(** * flowmap: subgrid volume tables, level solver, compositor and table store

    A shallow embedding of [src/flowmap/subgrid.py].

    Conventions of the embedding.
    - numpy [float64] values (elevations of a float raster, bin edges,
      volumes, levels) are modelled as exact rationals [Q]; results are
      compared with [==] (Qeq).  Rounding is not modelled: where the
      program compares or orders two separately rounded results (a pixel
      on a bin edge, the levels of two branches of the solver) its
      doubles can differ from the exact values by an ulp.  A float
      division by zero, which numpy evaluates to inf/nan without raising,
      has no rational value: the solver reports it as the separate outcome
      [NonFinite], which to its callers is a returned value like any
      other: the compositors go on with it.
    - numpy integers (pixel indices, histogram counts) are [Z], unbounded.
    - a masked array is a list of [option] values, [None] being a masked
      entry; a 2-D array is a list of rows.
    - Python exceptions are the [Raise] outcome.
    - [pandas.DataFrame] tables are lists of rows in index order; the index
      labels are unique ([set_index('id')] over [enumerate], or [arange]),
      so [tables.loc[face_idx]] for [face_idx] ranging over [tables.index]
      visits the rows in order.  The tables are the one object the
      compositors mutate: their models return the tables after the call.
    - the netCDF container is a record of its variables; a row of a
      variable is either never written (it holds the fill value and is
      read back masked) or written. *)

From Stdlib Require Import String Bool Arith ZArith QArith Qminmax Qround Qabs Lia Lqa List.
Import ListNotations.

Local Open Scope Z_scope.

(* ------------------------------------------------------------------ *)
(** ** Outcomes: a value, a Python exception, a non-finite float, or a
       loop of the model that ran out of fuel *)

Inductive exn : Type :=
| IndexError | KeyError | ValueError | TypeError | UnboundLocalError
| AttributeError | OverflowError.

Inductive outcome (A : Type) : Type :=
| Return (a : A)
| Raise (e : exn)
| NonFinite
| OutOfFuel.

Arguments Return {A} a.
Arguments Raise {A} e.
Arguments NonFinite {A}.
Arguments OutOfFuel {A}.

Definition bind {A B : Type} (m : outcome A) (k : A -> outcome B) : outcome B :=
  match m with
  | Return a => k a
  | Raise e => Raise e
  | NonFinite => NonFinite
  | OutOfFuel => OutOfFuel
  end.

Notation "x <- m ;; k" := (bind m (fun x => k))
  (at level 61, m at next level, right associativity).

Definition or_raise {A : Type} (e : exn) (o : option A) : outcome A :=
  match o with
  | Some a => Return a
  | None => Raise e
  end.

(* ------------------------------------------------------------------ *)
(** ** Python sequences: indexing and slicing with negative indices *)

(** [l[i]]: a negative index counts from the end; out of range is an
    IndexError (here [None]). *)
Definition py_index {A : Type} (l : list A) (i : Z) : option A :=
  let n := Z.of_nat (length l) in
  if i <? 0
  then (if n + i <? 0 then None else nth_error l (Z.to_nat (n + i)))
  else nth_error l (Z.to_nat i).

(** Bound of a slice, clipped to [0, len] as Python does. *)
Definition slice_bound (len : nat) (i : Z) : nat :=
  let n := Z.of_nat len in
  if i <? 0 then Z.to_nat (Z.max 0 (n + i)) else Z.to_nat (Z.min i n).

(** [l[start:stop]]. *)
Definition py_slice {A : Type} (l : list A) (start stop : Z) : list A :=
  let s := slice_bound (length l) start in
  let t := slice_bound (length l) stop in
  firstn (t - s) (skipn s l).

(** A pair of slices [np.s_[r0:r1, c0:c1]]. *)
Record slice2 : Type := mkSlice {
  row_start : Z; row_stop : Z; col_start : Z; col_stop : Z
}.

(** [band[r0:r1, c0:c1]] on a 2-D array. *)
Definition slice2d {A : Type} (band : list (list A)) (r0 r1 c0 c1 : Z)
  : list (list A) :=
  map (fun line => py_slice line c0 c1) (py_slice band r0 r1).

(** [np.prod(a.shape)]: the number of elements of the array. *)
Definition np_size {A : Type} (a : list (list A)) : Z :=
  Z.of_nat (length (concat a)).

(* ------------------------------------------------------------------ *)
(** ** [bisect.bisect] (= [bisect_right]) *)

(** [x < y] on floats. *)
Definition Qlt_bool (x y : Q) : bool := negb (Qle_bool y x).

(** The loop of [bisect_right]:
      while lo < hi: mid = (lo+hi)//2
                     if x < a[mid]: hi = mid  else: lo = mid+1
    [fuel] bounds the number of iterations; [None] is fuel exhausted. *)
Fixpoint bisect_loop (fuel : nat) (a : list Q) (x : Q) (lo hi : nat)
  : option nat :=
  if (lo <? hi)%nat then
    match fuel with
    | O => None
    | S fuel' =>
        let mid := ((lo + hi) / 2)%nat in
        if Qlt_bool x (nth mid a 0%Q)
        then bisect_loop fuel' a x lo mid
        else bisect_loop fuel' a x (S mid) hi
    end
  else Some lo.

Definition bisect (a : list Q) (x : Q) : option nat :=
  bisect_loop (length a) a x 0 (length a).

(** The guard of line 58, [fill_idx >= len(cum_volume_table) - 1]. *)
Definition flat_branch (cum : list Q) (k : nat) : bool :=
  Z.of_nat k >=? Z.of_nat (length cum) - 1.


(* ------------------------------------------------------------------ *)
(** ** Data model *)

(** A terrain pixel: [None] is a masked (invalid) pixel. *)
Definition pixel : Type := option Q.

(** The dtype of a raster: floats, or integers ([compute_band] notes that
    the band is sometimes int). *)
Inductive dtype : Type := Float | Int.

(** The terrain provider [dem]: the masked elevation [band] and its
    dtype, the affine coefficients [a] (pixel width) and [e] (pixel
    height), the pixel sizes [dxp], [dyp] and the [world2px] mapping from
    polygon vertices to (column, row) pixel coordinates. *)
Record dem : Type := mkDem {
  band : list (list pixel);
  band_dtype : dtype;
  affine_a : Q;
  affine_e : Q;
  dxp : Q;
  dyp : Q;
  world2px : list (Q * Q) -> list (Z * Z)
}.

(** The mesh provider [grid]. *)
Record grid : Type := mkGrid {
  face_coordinates : list (list (Q * Q))
}.

(** The simulation output of one timestep. *)
Record data : Type := mkData {
  d_vol1 : list Q;
  d_s1 : list Q;
  d_waterdepth : list Q
}.

(** The terrain window of a row: the [slice] column of tables built in
    memory, or the four integer columns [slice_0 .. slice_3] of imported
    tables. *)
Inductive window : Type :=
| Slice (s : slice2)
| SliceInts (slice_0 slice_1 slice_2 slice_3 : Z).

(** The result of the level solver. *)
Inductive solved : Type :=
| Waterlevel (level : Q)
| Waterdepth (depth : list (list pixel)).

(** What a caller holds after [result = subgrid_compute(...)]: [None],
    a level or a depth array, or the value that comes from an inf or nan
    level, which is returned like any other result. *)
Inductive result : Type :=
| NoResult
| Result (res : solved)
| NotFinite.

(** One row of the tables.  The table fields are [None] for an empty table
    (Python [None]); the columns [vol1], [s1], [waterdepth] and
    ['subgrid_' + method] exist only once a compositor has assigned them
    ([None] / no entry: the column is absent). *)
Record row : Type := mkRow {
  id_ : nat;
  slice : window;
  face : list (Q * Q);
  volume_table : option (list Q);
  cum_volume_table : option (list Q);
  n_per_bin : option (list Z);
  extent : list Q;
  bin_edges : option (list Q);
  vol1 : option Q;
  s1 : option Q;
  waterdepth : option Q;
  subgrid : list (string * result)
}.

(* ------------------------------------------------------------------ *)
(** ** Level solver: [subgrid_compute] *)

(** Float division; [None] when the divisor is zero (inf or nan). *)
Definition fdiv (x y : Q) : option Q :=
  if Qeq_bool y 0 then None else Some (x / y)%Q.

(** [dem['band'][s]] for a pair of slices. *)
Definition band_window (d : dem) (s : slice2) : list (list pixel) :=
  slice2d (band d) (row_start s) (row_stop s) (col_start s) (col_stop s).

(** The pixels the solver reads for a row: [dem['band'][row['slice']]], or
    for imported rows
    [dem['band'][slice_0:slice_2, slice_1:slice_3]]. *)
Definition row_window (r : row) (d : dem) : list (list pixel) :=
  match slice r with
  | Slice s => band_window d s
  | SliceInts s0 s1 s2 s3 => slice2d (band d) s0 s2 s1 s3
  end.

(** [int(x)] on a float, and the cast of a float stored into an integer
    array: truncation towards zero. *)
Definition py_int (x : Q) : Z :=
  if Qlt_bool x 0 then Qceiling x else Qfloor x.

(** A float stored into an array of the given dtype. *)
Definition store (dt : dtype) (x : Q) : Q :=
  match dt with
  | Float => x
  | Int => inject_Z (py_int x)
  end.

(** Depth of one pixel (lines 68-70): [np.zeros_like(dem_i)] has the
    dtype of the window, its zero is overwritten by [target_level - dem]
    where [dem < target_level], and on an integer raster the difference is
    truncated when it is stored; a masked pixel stays masked. *)
Definition pixel_depth (dt : dtype) (target_level : Q) (p : pixel) : pixel :=
  match p with
  | Some z => Some (if Qlt_bool z target_level then store dt (target_level - z)%Q else 0%Q)
  | None => None
  end.

(** [np.prod(dem_i.shape) * pixel_area] (lines 55-56). *)
Definition face_area (dem_i : list (list pixel)) (d : dem) : Q :=
  let pixel_area := (dxp d * dyp d)%Q in
  (inject_Z (np_size dem_i) * pixel_area)%Q.

(** Lines 53-63: the target level from the tables, the observed volume and
    the window area.  The outer layer is the Python exception, the inner
    [option] is [None] when a float division by zero makes the level
    inf/nan (numpy does not raise there, so later lookups still raise). *)
Definition target_level_of (bin_edges : list Q) (volume_table cum_volume_table : option (list Q))
           (dem_i : list (list pixel)) (d : dem) (vol_i : Q)
  : outcome (option Q) :=
  cum <- or_raise TypeError cum_volume_table ;;
  match bisect cum vol_i with
  | None => OutOfFuel
  | Some k =>
      let fill_idx := Z.of_nat k in
      cum_prev <- or_raise IndexError (py_index cum (fill_idx - 1)) ;;
      let remaining_volume := (vol_i - cum_prev)%Q in
      let face_area := face_area dem_i d in
      if flat_branch cum k then
        cum_last <- or_raise IndexError (py_index cum (-1)) ;;
        edge_last <- or_raise IndexError (py_index bin_edges (-1)) ;;
        Return (option_map (fun remaining => (edge_last + remaining)%Q)
                           (fdiv (vol_i - cum_last) face_area))
      else
        vt <- or_raise TypeError volume_table ;;
        vol_k <- or_raise IndexError (py_index vt fill_idx) ;;
        edge_k <- or_raise IndexError (py_index bin_edges fill_idx) ;;
        edge_k1 <- or_raise IndexError (py_index bin_edges (fill_idx + 1)) ;;
        Return (option_map
                  (fun remaining_volume_fraction =>
                     (edge_k + remaining_volume_fraction * (edge_k1 - edge_k))%Q)
                  (fdiv remaining_volume vol_k))
  end.

Definition subgrid_compute (r : row) (d : dem) (method : string)
  : outcome (option solved) :=
  match bin_edges r with
  | None => Return None
  | Some edges =>
      let dem_i := row_window r d in
      vol_i <- or_raise KeyError (vol1 r) ;;
      target <- target_level_of edges (volume_table r) (cum_volume_table r) dem_i d vol_i ;;
      if String.eqb method "waterlevel" then
        match target with
        | Some target_level => Return (Some (Waterlevel target_level))
        | None => NonFinite
        end
      else if String.eqb method "waterdepth" then
        match target with
        | Some target_level =>
            Return (Some (Waterdepth
                            (map (map (pixel_depth (band_dtype d) target_level)) dem_i)))
        | None => NonFinite
        end
      else Raise UnboundLocalError
  end.

(** The interpolation rule in the words of the specification:
    fraction = (observed_volume - cum_volume_table[k-1]) / volume_table[k],
    the cumulative volume at [k-1] being 0 when [k = 0];
    level = bin_edges[k] + fraction * (bin_edges[k+1] - bin_edges[k]). *)
Definition spec_interpolated_level (edges vt cum : list Q) (k : nat) (v : Q)
  : option Q :=
  match nth_error edges k, nth_error edges (S k), nth_error vt k with
  | Some edge_k, Some edge_k1, Some vol_k =>
      let cum_prev := match k with O => 0%Q | S k' => nth k' cum 0%Q end in
      option_map (fun fraction => (edge_k + fraction * (edge_k1 - edge_k))%Q)
                 (fdiv (v - cum_prev) vol_k)
  | _, _, _ => None
  end.

(** The scenario of the specification: bin edges [0,1,2,3,4], cumulative
    volumes [10,25,45,70] and a five-pixel window of unit pixels. *)
Definition scenario_dem : dem :=
  mkDem [[Some 0; Some 1; Some 2; Some 3; Some 4]]%Q Float 1 1 1 1 (fun _ => []).

Definition scenario_row (v : Q) : row :=
  mkRow 0 (Slice (mkSlice 0 1 0 5)) []
        (Some [10; 15; 20; 25]%Q) (Some [10; 25; 45; 70]%Q)
        (Some [1; 1; 1; 1]) [] (Some [0; 1; 2; 3; 4]%Q)
        (Some v) None None [].

(* ------------------------------------------------------------------ *)
(** ** numpy helpers used by the table builder *)

(** [a.min()] / [a.max()]: a reduction that raises on an empty array. *)
Definition reduce {A : Type} (f : A -> A -> A) (l : list A) : option A :=
  match l with
  | [] => None
  | x :: t => Some (fold_left f t x)
  end.

(** [np.cumsum], as a running sum from [acc]. *)
Fixpoint cumsum_from {A : Type} (add : A -> A -> A) (acc : A) (l : list A) : list A :=
  match l with
  | [] => []
  | x :: t => add acc x :: cumsum_from add (add acc x) t
  end.

Definition cumsumZ (l : list Z) : list Z := cumsum_from Z.add 0 l.
Definition cumsumQ (l : list Q) : list Q := cumsum_from Qplus 0%Q l.

(** [np.diff]: differences of consecutive entries. *)
Fixpoint diff (l : list Q) : list Q :=
  match l with
  | x :: (y :: _) as t => (y - x)%Q :: diff t
  | _ => []
  end.

(** Elementwise product of arrays of one length. *)
Fixpoint zip_with {A B C : Type} (f : A -> B -> C) (l : list A) (m : list B) : list C :=
  match l, m with
  | x :: l', y :: m' => f x y :: zip_with f l' m'
  | _, _ => []
  end.

(** The mask test [dem_i.mask.any()]: [None] when some pixel is masked,
    otherwise the elevations. *)
Fixpoint unmask (l : list pixel) : option (list Q) :=
  match l with
  | [] => Some []
  | None :: _ => None
  | Some z :: t => option_map (cons z) (unmask t)
  end.

(** [np.linspace(first, last, bins + 1)]. *)
Definition linspace (first last : Q) (bins : nat) : list Q :=
  map (fun i => (first + inject_Z (Z.of_nat i) * ((last - first) / inject_Z (Z.of_nat bins)))%Q)
      (seq 0 (S bins)).

(** The range of [np.histogram]: (0, 1) for an empty array, otherwise
    (min, max), widened by one half on each side when min = max. *)
Definition outer_edges (values : list Q) : Q * Q :=
  let '(first, last) :=
    match reduce Qmin values, reduce Qmax values with
    | Some lo, Some hi => (lo, hi)
    | _, _ => (0, 1)%Q
    end in
  if Qeq_bool first last then (first - (1 # 2), last + (1 # 2))%Q else (first, last).

(** The bin of a value: bins are half-open, the last one is closed. *)
Definition bin_index (first last : Q) (bins : nat) (x : Q) : nat :=
  let k := Qfloor ((x - first) / (last - first) * inject_Z (Z.of_nat bins)) in
  if k >=? Z.of_nat bins then (bins - 1)%nat else Z.to_nat k.

Definition count_bin (first last : Q) (bins : nat) (values : list Q) (k : nat) : Z :=
  Z.of_nat (length (filter (fun x => Nat.eqb (bin_index first last bins x) k) values)).

(** The counts of a histogram with [bins] bins. *)
Definition counts_of (first last : Q) (bins : nat) (values : list Q) : list Z :=
  map (count_bin first last bins values) (seq 0 bins).

(** [np.histogram(values, bins)]: the counts per bin and the bin edges. *)
Definition histogram (values : list Q) (bins : nat) : list Z * list Q :=
  let '(first, last) := outer_edges values in
  (counts_of first last bins values, linspace first last bins).

(* ------------------------------------------------------------------ *)
(** ** Table builder: [build_tables] *)

(** The four table fields of a row. *)
Record table : Type := mkTable {
  t_n_per_bin : option (list Z);
  t_bin_edges : option (list Q);
  t_volume_table : option (list Q);
  t_cum_volume_table : option (list Q)
}.

(** Lines 110-111: [np.abs(affine.a * affine.e) * n_cum * np.diff(bin_edges)]. *)
Definition volume_table_of (d : dem) (n_per_bin : list Z) (bin_edges : list Q) : list Q :=
  let n_cum := cumsumZ n_per_bin in
  zip_with (fun n w => (Qabs (affine_a d * affine_e d) * inject_Z n * w)%Q)
           n_cum (diff bin_edges).

(** Lines 103-112: the table of one terrain window. *)
Definition window_table (d : dem) (dem_i : list (list pixel)) : table :=
  match unmask (concat dem_i) with
  | None => mkTable None None None None
  | Some values =>
      let '(n_per_bin, bin_edges) := histogram values 20 in
      let volume_table := volume_table_of d n_per_bin bin_edges in
      let cum_volume_table := cumsumQ volume_table in
      mkTable (Some n_per_bin) (Some bin_edges) (Some volume_table) (Some cum_volume_table)
  end.

(** Lines 98-102: the pixel window [face_px2slice] of a polygon. *)
Definition face_slice (d : dem) (face : list (Q * Q)) : outcome slice2 :=
  let face_px := world2px d face in
  r0 <- or_raise ValueError (reduce Z.min (map snd face_px)) ;;
  r1 <- or_raise ValueError (reduce Z.max (map snd face_px)) ;;
  c0 <- or_raise ValueError (reduce Z.min (map fst face_px)) ;;
  c1 <- or_raise ValueError (reduce Z.max (map fst face_px)) ;;
  Return (mkSlice r0 r1 c0 c1).

(** Lines 113-118: the extent of a polygon. *)
Definition face_extent (face : list (Q * Q)) : outcome (list Q) :=
  x0 <- or_raise ValueError (reduce Qmin (map fst face)) ;;
  x1 <- or_raise ValueError (reduce Qmax (map fst face)) ;;
  y0 <- or_raise ValueError (reduce Qmin (map snd face)) ;;
  y1 <- or_raise ValueError (reduce Qmax (map snd face)) ;;
  Return [x0; x1; y0; y1].

(** The body of the loop of [build_tables] for the cell [id_] with polygon
    [face]. *)
Definition build_row (d : dem) (id_ : nat) (face : list (Q * Q)) : outcome row :=
  face_px2slice <- face_slice d face ;;
  let dem_i := band_window d face_px2slice in
  let t := window_table d dem_i in
  extent <- face_extent face ;;
  Return (mkRow id_ (Slice face_px2slice) face
                (t_volume_table t) (t_cum_volume_table t) (t_n_per_bin t)
                extent (t_bin_edges t) None None None []).

(** The loop over [enumerate(faces)], numbering from [start]. *)
Fixpoint build_rows (d : dem) (start : nat) (faces : list (list (Q * Q)))
  : outcome (list row) :=
  match faces with
  | [] => Return []
  | face :: rest =>
      record <- build_row d start face ;;
      rows <- build_rows d (S start) rest ;;
      Return (record :: rows)
  end.

(** [build_tables]: the loop, and line 133,
    [pd.DataFrame.from_records(rows).set_index('id')]: a frame made of no
    record has no column ['id'], and [set_index] raises KeyError. *)
Definition build_tables (g : grid) (d : dem) : outcome (list row) :=
  rows <- build_rows d 0 (face_coordinates g) ;;
  match rows with
  | [] => Raise KeyError
  | _ :: _ => Return rows
  end.

(** A small terrain: 3 rows of 4 unit pixels, one of them masked; pixel
    coordinates are the integer parts of the world coordinates. *)
Definition px_of (p : Q * Q) : Z * Z := (Qfloor (fst p), Qfloor (snd p)).

Definition small_dem : dem :=
  mkDem [[Some 1; Some 2; Some 3; None];
         [Some 2; Some 3; Some 5; Some 5];
         [Some 4; Some 4; Some 5; Some 5]]%Q
        Float 1 (-1) 1 1 (map px_of).

Definition face_of (x0 x1 y0 y1 : Q) : list (Q * Q) :=
  [(x0, y0); (x1, y0); (x1, y1); (x0, y1)].

(* ------------------------------------------------------------------ *)
(** ** Band/feature compositor: [compute_band], [compute_features] *)

(** Column assignment [tables[name] = values] on the caller's DataFrame:
    the lengths must agree. *)
Definition set_column {V : Type} (set : row -> V -> row) (tables : list row)
           (values : list V) : outcome (list row) :=
  if Nat.eqb (length values) (length tables)
  then Return (zip_with set tables values)
  else Raise ValueError.

Definition set_vol1 (r : row) (v : Q) : row :=
  mkRow (id_ r) (slice r) (face r) (volume_table r) (cum_volume_table r)
        (n_per_bin r) (extent r) (bin_edges r) (Some v) (s1 r) (waterdepth r)
        (subgrid r).

Definition set_s1 (r : row) (v : Q) : row :=
  mkRow (id_ r) (slice r) (face r) (volume_table r) (cum_volume_table r)
        (n_per_bin r) (extent r) (bin_edges r) (vol1 r) (Some v) (waterdepth r)
        (subgrid r).

Definition set_waterdepth (r : row) (v : Q) : row :=
  mkRow (id_ r) (slice r) (face r) (volume_table r) (cum_volume_table r)
        (n_per_bin r) (extent r) (bin_edges r) (vol1 r) (s1 r) (Some v)
        (subgrid r).

(** Assigning the column ['subgrid_' + method]: an existing column of that
    name is replaced. *)
Definition set_subgrid (method : string) (r : row) (v : result) : row :=
  mkRow (id_ r) (slice r) (face r) (volume_table r) (cum_volume_table r)
        (n_per_bin r) (extent r) (bin_edges r) (vol1 r) (s1 r) (waterdepth r)
        ((method, v) :: filter (fun c => negb (String.eqb (fst c) method)) (subgrid r)).

(** [map] with the position of each element. *)
Fixpoint imap_from {A B : Type} (i : nat) (f : nat -> A -> B) (l : list A) : list B :=
  match l with
  | [] => []
  | x :: t => f i x :: imap_from (S i) f t
  end.

Definition in_range (lo hi i : nat) : bool := ((lo <=? i) && (i <? hi))%nat.

(** A pixel of the band that [compute_band] assembles: masked, a number,
    or a value that comes from a level that is inf or nan (for
    ['waterlevel'] that level itself; for ['waterdepth'] the depth computed
    from it, which is inf or zero: the model does not follow which). *)
Inductive band_pixel : Type :=
| Masked
| Value (x : Q)
| NotFiniteValue.

(** [band[s] = value]: the pixels of the window take the values of
    [value], addressed relative to the window's origin. *)
Definition band_assign (b : list (list band_pixel)) (s : slice2)
           (value : nat -> nat -> band_pixel) : list (list band_pixel) :=
  let r0 := slice_bound (length b) (row_start s) in
  let r1 := slice_bound (length b) (row_stop s) in
  imap_from 0 (fun i line =>
    if in_range r0 r1 i then
      let c0 := slice_bound (length line) (col_start s) in
      let c1 := slice_bound (length line) (col_stop s) in
      imap_from 0 (fun j p =>
        if in_range c0 c1 j then value (i - r0)%nat (j - c0)%nat else p) line
    else line) b.

Definition returned (o : outcome (option solved)) : outcome result :=
  match o with
  | Return None => Return NoResult
  | Return (Some res) => Return (Result res)
  | NonFinite => Return NotFinite
  | Raise e => Raise e
  | OutOfFuel => OutOfFuel
  end.

Definition pixel_value (p : pixel) : band_pixel :=
  match p with
  | Some x => Value x
  | None => Masked
  end.

(** The right-hand side of the band assignment: a scalar level is
    broadcast, a depth array is copied pixel by pixel. *)
Definition result_value (res : solved) : nat -> nat -> band_pixel :=
  match res with
  | Waterlevel level => fun _ _ => Value level
  | Waterdepth depth => fun i j => pixel_value (nth j (nth i depth []) None)
  end.

(** [np.ma.masked_all(shape, dtype='float')]. *)
Definition masked_all {A : Type} (shape : list (list A)) : list (list band_pixel) :=
  map (map (fun _ => Masked)) shape.

(** The state of the loop of [compute_band]: the band being assembled and
    the [excluded] list. *)
Definition band_state : Type := (list (list band_pixel) * list nat)%type.

(** [band[row['slice']] = result] (line 197); rows of imported tables have
    no column ['slice']. *)
Definition band_write (st : band_state) (r : row) (value : nat -> nat -> band_pixel)
  : outcome band_state :=
  match slice r with
  | Slice s => Return (band_assign (fst st) s value, snd st)
  | SliceInts _ _ _ _ => Raise KeyError
  end.

(** One iteration of the loop of [compute_band] (lines 192-197). *)
Definition band_step (d : dem) (method : string) (st : band_state) (r : row)
  : outcome band_state :=
  result <- returned (subgrid_compute r d method) ;;
  match result with
  | NoResult => Return (fst st, snd st ++ [id_ r])
  | Result res => band_write st r (result_value res)
  | NotFinite => band_write st r (fun _ _ => NotFiniteValue)
  end.

Fixpoint band_loop (d : dem) (method : string) (rows : list row) (st : band_state)
  : outcome band_state :=
  match rows with
  | [] => Return st
  | r :: rest => st' <- band_step d method st r ;; band_loop d method rest st'
  end.

(** A computation on the caller's tables: the tables after the call and
    the outcome. *)
Definition on_tables (A : Type) : Type := list row -> list row * outcome A.

Definition assign {V : Type} (set : row -> V -> row) (values : list V) : on_tables unit :=
  fun tables =>
    match set_column set tables values with
    | Return tables' => (tables', Return tt)
    | Raise e => (tables, Raise e)
    | NonFinite => (tables, NonFinite)
    | OutOfFuel => (tables, OutOfFuel)
    end.

Definition read {A : Type} (f : list row -> outcome A) : on_tables A :=
  fun tables => (tables, f tables).

Definition then_ {A B : Type} (m : on_tables A) (k : A -> on_tables B) : on_tables B :=
  fun tables =>
    match m tables with
    | (tables', Return a) => k a tables'
    | (tables', Raise e) => (tables', Raise e)
    | (tables', NonFinite) => (tables', NonFinite)
    | (tables', OutOfFuel) => (tables', OutOfFuel)
    end.

Notation "x <-- m ;;; k" := (then_ m (fun x => k))
  (at level 61, m at next level, right associativity).

(** [compute_band]: the caller's tables after the call, and the returned
    band together with the excluded cells that are logged. *)
Definition compute_band (g : grid) (d : dem) (dt : data) (method : string)
  : on_tables band_state :=
  _ <-- assign set_vol1 (d_vol1 dt) ;;;
  read (fun tables => band_loop d method tables (masked_all (band d), [])).

Definition qsum (l : list Q) : Q := fold_right Qplus 0%Q l.

(** Sequencing a computation over the rows, in order. *)
Fixpoint map_outcome {A B : Type} (f : A -> outcome B) (l : list A) : outcome (list B) :=
  match l with
  | [] => Return []
  | x :: t => y <- f x ;; ys <- map_outcome f t ;; Return (y :: ys)
  end.

(** [compute_features], lines 143-155: the three column assignments, the
    loop of the solver over the rows and the assignment of the column
    ['subgrid_' + method] (in which pandas stores a [None] among floats as
    nan: [NoResult] stands for both).  The model gives the caller's tables
    after these lines and the list of results.  What follows in the code,
    the conversion of the rows into a GeoJSON feature collection by pandas'
    [apply], [float] and [geojson] (lines 157-177), is not modelled. *)
Definition compute_features (d : dem) (dt : data) (method : string)
  : on_tables (list result) :=
  _ <-- assign set_vol1 (d_vol1 dt) ;;;
  _ <-- assign set_s1 (d_s1 dt) ;;;
  _ <-- assign set_waterdepth (d_waterdepth dt) ;;;
  results <-- read (map_outcome (fun r => returned (subgrid_compute r d method))) ;;;
  _ <-- assign (set_subgrid method) results ;;;
  read (fun _ => Return results).

(* ------------------------------------------------------------------ *)
(** ** Table store: [create_export], [export_tables], [import_tables] *)

(** One row of a netCDF variable: never written ([Fill]: the file holds the
    fill value and the row is read back fully masked), or written. *)
Inductive nc_row (A : Type) : Type :=
| Fill
| Data (values : list A).

Arguments Fill {A}.
Arguments Data {A} values.

(** The container: its dimensions and its six variables, one row per cell. *)
Record dataset : Type := mkDataset {
  dim_cells : nat;
  dim_bins : nat;
  var_bin_edges : list (nc_row Q);
  var_cum_volume_table : list (nc_row Q);
  var_volume_table : list (nc_row Q);
  var_extent : list (nc_row Q);
  var_n_per_bin : list (nc_row Z);
  var_slice : list (nc_row Z)
}.

Definition dim_bin_edges (ds : dataset) : nat := (dim_bins ds + 1)%nat.
Definition two_times_two : nat := 4.

(** [create_export]: the dimensions and the six variables, no row
    written.  [createDimension(name, 0)] creates an unlimited dimension:
    with [n_cells = 0] the container starts without cells and grows as
    rows are assigned.  (With [n_bins = 0] the dimension 'bins' would be
    unlimited as well; the tables have 20 bins, and the growth of rows
    along 'bins' is not modelled.) *)
Definition create_export (n_cells n_bins : nat) : dataset :=
  mkDataset n_cells n_bins
            (repeat Fill n_cells) (repeat Fill n_cells) (repeat Fill n_cells)
            (repeat Fill n_cells) (repeat Fill n_cells) (repeat Fill n_cells).

(** The dimension 'cells' is unlimited when it was created with size 0. *)
Definition cells_unlimited (ds : dataset) : bool := Nat.eqb (dim_cells ds) 0.

Definition pad {A : Type} (n : nat) (var : list (nc_row A)) : list (nc_row A) :=
  var ++ repeat Fill (n - length var).

(** An assignment to row [i] along an unlimited dimension beyond its
    size extends the dimension to [i + 1] cells: every variable of the
    container gets rows of fill values.  A fixed dimension stays as it is
    (and the assignment raises IndexError). *)
Definition reserve (ds : dataset) (i : nat) : dataset :=
  if cells_unlimited ds
  then mkDataset (dim_cells ds) (dim_bins ds)
                 (pad (S i) (var_bin_edges ds)) (pad (S i) (var_cum_volume_table ds))
                 (pad (S i) (var_volume_table ds)) (pad (S i) (var_extent ds))
                 (pad (S i) (var_n_per_bin ds)) (pad (S i) (var_slice ds))
  else ds.

(** Replacing the element at a position. *)
Fixpoint replace_nth {A : Type} (i : nat) (x : A) (l : list A) : list A :=
  match l, i with
  | [], _ => []
  | _ :: t, O => x :: t
  | y :: t, S i' => y :: replace_nth i' x t
  end.

(** [ds.variables[var][i] = val] on a variable whose rows have [dim]
    entries: the cell must exist and the value must have the row's shape
    (netCDF4's broadcasting of other shapes is not modelled). *)
Definition nc_assign {A : Type} (dim : nat) (var : list (nc_row A)) (i : nat)
           (val : list A) : outcome (list (nc_row A)) :=
  if (i <? length var)%nat then
    if Nat.eqb (length val) dim then Return (replace_nth i (Data val) var)
    else Raise ValueError
  else Raise IndexError.

(** The assignment of one table field: [None] is skipped. *)
Definition nc_assign_opt {A : Type} (dim : nat) (var : list (nc_row A)) (i : nat)
           (val : option (list A)) : outcome (list (nc_row A)) :=
  match val with
  | None => Return var
  | Some v => nc_assign dim var i v
  end.

(** The assignments of the loop of [export_tables] for one row, on a
    container that has the cell. *)
Definition write_row (ds : dataset) (r : row) : outcome dataset :=
  let i := id_ r in
  be <- nc_assign_opt (dim_bin_edges ds) (var_bin_edges ds) i (bin_edges r) ;;
  cv <- nc_assign_opt (dim_bins ds) (var_cum_volume_table ds) i (cum_volume_table r) ;;
  vt <- nc_assign_opt (dim_bins ds) (var_volume_table ds) i (volume_table r) ;;
  ex <- nc_assign two_times_two (var_extent ds) i (extent r) ;;
  np <- nc_assign_opt (dim_bins ds) (var_n_per_bin ds) i (n_per_bin r) ;;
  match slice r with
  | SliceInts _ _ _ _ => Raise AttributeError
  | Slice s =>
      sl <- nc_assign two_times_two (var_slice ds) i
              [row_start s; row_stop s; col_start s; col_stop s] ;;
      Return (mkDataset (dim_cells ds) (dim_bins ds) be cv vt ex np sl)
  end.

(** The body of the loop of [export_tables] for one row. *)
Definition export_row (ds : dataset) (r : row) : outcome dataset :=
  write_row (reserve ds (id_ r)) r.

Fixpoint export_tables (ds : dataset) (tables : list row) : outcome dataset :=
  match tables with
  | [] => Return ds
  | r :: rest => ds' <- export_row ds r ;; export_tables ds' rest
  end.

(** One row of the imported tables: the arrays as read from the file and
    the four [slice_k] columns ([None]: masked). *)
Record imported_row : Type := mkImported {
  i_index : nat;
  i_bin_edges : nc_row Q;
  i_cum_volume_table : nc_row Q;
  i_volume_table : nc_row Q;
  i_extent : nc_row Q;
  i_n_per_bin : nc_row Z;
  i_slice_0 : option Z;
  i_slice_1 : option Z;
  i_slice_2 : option Z;
  i_slice_3 : option Z
}.

(** [slice_arr[:, k]] for one row. *)
Definition nc_column {A : Type} (k : nat) (r : nc_row A) : option A :=
  match r with
  | Fill => None
  | Data values => nth_error values k
  end.

Definition import_row (ds : dataset) (i : nat) : imported_row :=
  let slice_arr := nth i (var_slice ds) Fill in
  mkImported i
             (nth i (var_bin_edges ds) Fill)
             (nth i (var_cum_volume_table ds) Fill)
             (nth i (var_volume_table ds) Fill)
             (nth i (var_extent ds) Fill)
             (nth i (var_n_per_bin ds) Fill)
             (nc_column 0 slice_arr) (nc_column 1 slice_arr)
             (nc_column 2 slice_arr) (nc_column 3 slice_arr).

(** [import_tables]: one row per cell of the [bin_edges] variable, indexed
    by [np.arange]. *)
Definition import_tables (ds : dataset) : list imported_row :=
  map (import_row ds) (seq 0 (length (var_bin_edges ds))).

(** The row the solver sees for an imported row whose arrays were written:
    the table fields, and the window as the four integer columns. *)
Definition solver_row (ir : imported_row) (v : Q) : option row :=
  match i_bin_edges ir, i_cum_volume_table ir, i_volume_table ir, i_n_per_bin ir,
        i_extent ir, i_slice_0 ir, i_slice_1 ir, i_slice_2 ir, i_slice_3 ir with
  | Data be, Data cv, Data vt, Data np, Data ex, Some s0, Some s1, Some s2, Some s3 =>
      Some (mkRow (i_index ir) (SliceInts s0 s1 s2 s3) [] (Some vt) (Some cv)
                  (Some np) ex (Some be) (Some v) None None [])
  | _, _, _, _, _, _, _, _, _ => None
  end.

(* ------------------------------------------------------------------ *)
(** ** Predicates and examples used by the properties *)

(** An array is sorted when its entries never decrease. *)
Definition nondecreasing (l : list Q) : Prop :=
  forall i j, (i <= j)%nat -> (j < length l)%nat -> (nth i l 0 <= nth j l 0)%Q.

(** On a sorted array, [k] splits it: entries before [k] are at most [x],
    entries from [k] on are above [x]. *)
Definition splits (a : list Q) (x : Q) (k : nat) : Prop :=
  (k <= length a)%nat /\
  (forall i, (i < k)%nat -> (nth i a 0 <= x)%Q) /\
  (forall i, (k <= i)%nat -> (i < length a)%nat -> (x < nth i a 0)%Q).

(** The solver returns the scalar level [q] (up to equality of rationals). *)
Definition returns_level (o : outcome (option solved)) (q : Q) : Prop :=
  match o with
  | Return (Some (Waterlevel level)) => (level == q)%Q
  | _ => False
  end.

(** The depth [dp] of a pixel [p] under the level: the clipped difference
    for a valid pixel, masked for a masked one. *)
Definition clipped_depth (level : Q) (p dp : pixel) : Prop :=
  match p, dp with
  | Some z, Some dz =>
      (dz == Qmax (level - z) 0)%Q /\ (0 <= dz)%Q /\ ((dz == 0)%Q <-> (level <= z)%Q)
  | None, None => True
  | _, _ => False
  end.

(** A raster of two rows whose first row holds the elevations 0, 1, 2,
    3, 4, stored with the given dtype, and the scenario table over that
    first row. *)
Definition integer_dem (dt : dtype) : dem :=
  mkDem [[Some 0; Some 1; Some 2; Some 3; Some 4];
         [Some 9; Some 9; Some 9; Some 9; Some 9]]%Q dt 1 1 1 1 (fun _ => []).

Definition integer_row (v : Q) : row :=
  mkRow 0 (Slice (mkSlice 0 1 0 5)) []
        (Some [10; 15; 20; 25]%Q) (Some [10; 25; 45; 70]%Q)
        (Some [1; 1; 1; 1]) [] (Some [0; 1; 2; 3; 4]%Q)
        (Some v) None None [].

(** An empty row: no table, window rows 0-2 and columns 2-4. *)
Definition empty_row : row :=
  mkRow 1 (Slice (mkSlice 0 2 2 4)) [] None None None [] None (Some 3%Q) None None [].

(** Strictly increasing arrays. *)
Definition increasing (l : list Q) : Prop :=
  forall i j, (i < j)%nat -> (j < length l)%nat -> (nth i l 0 < nth j l 0)%Q.

Definition zsum (l : list Z) : Z := fold_right Z.add 0 l.

(** Two rows with the same table: they differ at most in the columns
    [vol1], [s1], [waterdepth] and ['subgrid_' + method]. *)
Definition same_table (r r' : row) : Prop :=
  id_ r' = id_ r /\ slice r' = slice r /\ face r' = face r /\
  volume_table r' = volume_table r /\ cum_volume_table r' = cum_volume_table r /\
  n_per_bin r' = n_per_bin r /\ extent r' = extent r /\ bin_edges r' = bin_edges r.

(** A computation on the caller's tables keeps every table. *)
Definition keeps_tables {A : Type} (m : on_tables A) : Prop :=
  forall tables, Forall2 same_table tables (fst (m tables)).

(** A field fits a variable when it is absent or has the row's length. *)
Definition fits {A : Type} (dim : nat) (val : option (list A)) : Prop :=
  match val with
  | None => True
  | Some v => length v = dim
  end.

(** What a variable row holds after the assignment of a field. *)
Definition stored {A : Type} (val : option (list A)) (old : nc_row A) : nc_row A :=
  match val with
  | None => old
  | Some v => Data v
  end.

(** A row that [export_tables] can write into a container with [bins]
    bins: it carries a slice pair, a four-entry extent, and table fields
    of the container's dimensions. *)
Definition exportable (bins : nat) (r : row) : Prop :=
  (exists s, slice r = Slice s) /\
  length (extent r) = 4%nat /\
  fits (bins + 1) (bin_edges r) /\
  fits bins (cum_volume_table r) /\
  fits bins (volume_table r) /\
  fits bins (n_per_bin r).

(** A container with [n] cells and [bins] bins. *)
Definition container (n bins : nat) (ds : dataset) : Prop :=
  dim_bins ds = bins /\
  length (var_bin_edges ds) = n /\ length (var_cum_volume_table ds) = n /\
  length (var_volume_table ds) = n /\ length (var_extent ds) = n /\
  length (var_n_per_bin ds) = n /\ length (var_slice ds) = n.

(** The imported form of a row written into a fresh container. *)
Definition as_imported (r : row) (old : imported_row) : imported_row :=
  match slice r with
  | Slice s =>
      mkImported (id_ r)
                 (stored (bin_edges r) (i_bin_edges old))
                 (stored (cum_volume_table r) (i_cum_volume_table old))
                 (stored (volume_table r) (i_volume_table old))
                 (Data (extent r))
                 (stored (n_per_bin r) (i_n_per_bin old))
                 (Some (row_start s)) (Some (row_stop s))
                 (Some (col_start s)) (Some (col_stop s))
  | SliceInts _ _ _ _ => old
  end.

(** Three cells of the small terrain; the second one covers the masked
    pixel. *)
Definition small_grid : grid :=
  mkGrid [face_of 0 2 0 2; face_of 2 4 0 2; face_of 2 4 1 3].

(** The level as a function of the bisection index [k], for a table with
    [n] bins: the flat branch, the interpolation from the second bin on,
    and the interpolation in the first bin. *)
Definition level_case (edges vt cum : list Q) (n : nat) (area : Q)
           (k : nat) (v l : Q) : Prop :=
  ((n <= S k)%nat /\
   l == nth n edges 0 + (v - nth (n - 1) cum 0) / area)%Q \/
  ((S k < n)%nat /\ (1 <= k)%nat /\ 0 < nth k vt 0 /\
   l == nth k edges 0
        + (v - nth (k - 1) cum 0) / nth k vt 0 * (nth (S k) edges 0 - nth k edges 0))%Q \/
  (k = O /\ (1 < n)%nat /\ 0 < nth 0 vt 0 /\
   l == nth 0 edges 0
        + (v - nth (n - 1) cum 0) / nth 0 vt 0 * (nth 1 edges 0 - nth 0 edges 0))%Q.

(** A polygon the builder cannot window: it has no vertex, or [world2px]
    maps it to no pixel coordinate. *)
Definition no_vertices (d : dem) (fc : list (Q * Q)) : Prop :=
  fc = [] \/ world2px d fc = [].

(** The shape of a 2-D array: the length of each of its rows. *)
Definition shape {A : Type} (b : list (list A)) : list nat := map (@length A) b.

(** The pixel of an assembled band at row [i] and column [j]. *)
Definition px (b : list (list band_pixel)) (i j : nat) : band_pixel :=
  nth j (nth i b []) Masked.

(** Pixel [(i, j)] lies in the window [s] of a band of the given shape,
    the bounds of the slices being clipped as Python does. *)
Definition covers (shp : list nat) (s : slice2) (i j : nat) : bool :=
  in_range (slice_bound (length shp) (row_start s))
           (slice_bound (length shp) (row_stop s)) i &&
  in_range (slice_bound (nth i shp O) (col_start s))
           (slice_bound (nth i shp O) (col_stop s)) j.

(** The row has a table and its window holds pixel [(i, j)]: the loop of
    [compute_band] writes that pixel for this row. *)
Definition writes (shp : list nat) (r : row) (i j : nat) : bool :=
  match bin_edges r, slice r with
  | Some _, Slice s => covers shp s i j
  | _, _ => false
  end.

(** Three cells of the small terrain: the first covers the masked pixel,
    the second has an empty window, the third has a table; and their
    observed volumes. *)
Definition mixed_grid : grid :=
  mkGrid [face_of 2 4 0 2; face_of 1 1 1 3; face_of 0 2 0 2].

Definition mixed_data : data := mkData [1; 1; 1 # 2]%Q [] [].

(** Observed volumes for the three cells of the small terrain. *)
Definition small_data : data := mkData [1 # 2; 0; 1 # 2]%Q [] [].

(** Two cells of the small terrain whose windows share the pixel (1, 1),
    with their observed volumes. *)
Definition overlapping_grid : grid := mkGrid [face_of 0 2 0 2; face_of 1 3 1 3].

Definition overlapping_data : data := mkData [1 # 2; 1 # 2]%Q [] [].

(** [row['bin_edges'] is not None]. *)
Definition has_table (r : row) : bool :=
  match bin_edges r with
  | Some _ => true
  | None => false
  end.

(* ------------------------------------------------------------------ *)
(** ** Cell lookup: [data_for_idx] *)

(** [int((x / 0).min())] over the numerators [x] of one axis. *)
Definition int_of_zero_division {A : Type} (numerators : list Q) : outcome A :=
  if existsb (fun x => Qeq_bool x 0) numerators
  then Raise ValueError
  else Raise OverflowError.

(** The dict returned by [data_for_idx]. *)
Record cell_data : Type := mkCell {
  c_face : list (Q * Q);
  c_dem : list (list pixel);
  c_vol : Q
}.

(** [data_for_idx] (lines 14-28).  The offsets [affine.xoff] and
    [affine.yoff], which the terrain record above does not carry, are
    passed next to it.  The index addresses the mesh and the volumes as
    Python does (a negative index counts from the end).  [min] and [max]
    of a polygon without vertices raise ValueError.  With a pixel width
    (or, failing that, height) of zero the coordinates of that axis are
    nan where the vertex lies on the origin and inf elsewhere; [min]
    propagates nan, and [int] raises ValueError on nan and OverflowError
    on inf. *)
Definition data_for_idx (face_idx : Z) (d : dem) (xoff yoff : Q) (g : grid) (dt : data)
  : outcome cell_data :=
  face <- or_raise IndexError (py_index (face_coordinates g) face_idx) ;;
  match face with
  | [] => Raise ValueError
  | _ :: _ =>
      if Qeq_bool (affine_a d) 0
      then int_of_zero_division (map (fun p => (fst p - xoff)%Q) face)
      else if Qeq_bool (affine_e d) 0
      then int_of_zero_division (map (fun p => (snd p - yoff)%Q) face)
      else
        let idx := map (fun p => ((fst p - xoff) / affine_a d,
                                  (snd p - yoff) / affine_e d)%Q) face in
        i_min <- or_raise ValueError (reduce Qmin (map fst idx)) ;;
        i_max <- or_raise ValueError (reduce Qmax (map fst idx)) ;;
        j_min <- or_raise ValueError (reduce Qmin (map snd idx)) ;;
        j_max <- or_raise ValueError (reduce Qmax (map snd idx)) ;;
        let dem_i := slice2d (band d) (py_int j_min) (py_int j_max)
                             (py_int i_min) (py_int i_max) in
        vol_i <- or_raise IndexError (py_index (d_vol1 dt) face_idx) ;;
        Return (mkCell face dem_i vol_i)
  end.

(** A [world2px] that maps a vertex to the truncated pixel coordinates of
    the affine transform with origin ([xoff], [yoff]). *)
Definition truncating_world2px (d : dem) (xoff yoff : Q) (face : list (Q * Q))
  : list (Z * Z) :=
  map (fun p => (py_int ((fst p - xoff) / affine_a d),
                 py_int ((snd p - yoff) / affine_e d))) face.

(** The small terrain with its origin at (0, 3): pixel row [i] covers
    [3 - i - 1 <= y < 3 - i]. *)
Definition north_up_dem : dem :=
  mkDem (band small_dem) Float 1 (-1) 1 1
        (map (fun p => (py_int ((fst p - 0) / 1), py_int ((snd p - 3) / -1)))).

(* ================================================================== *)
(** * Properties *)

(** ** Bisection *)

Lemma Qlt_bool_iff (x y : Q) : Qlt_bool x y = true <-> (x < y)%Q.
Proof.
  unfold Qlt_bool. rewrite negb_true_iff.
  split; intro H.
  - apply Qnot_le_lt. intro Hle. apply Qle_bool_iff in Hle. congruence.
  - destruct (Qle_bool y x) eqn:E; [|reflexivity].
    apply Qle_bool_iff in E. exfalso. apply (Qlt_not_le _ _ H E).
Qed.

Lemma Qlt_bool_false (x y : Q) : Qlt_bool x y = false <-> (y <= x)%Q.
Proof.
  unfold Qlt_bool. rewrite negb_false_iff. apply Qle_bool_iff.
Qed.

Lemma midpoint_bounds (lo hi : nat) :
  (lo < hi)%nat -> (lo <= (lo + hi) / 2 < hi)%nat.
Proof.
  intro H.
  pose proof (Nat.div_mod_eq (lo + hi) 2) as E.
  pose proof (Nat.mod_upper_bound (lo + hi) 2) as B.
  lia.
Qed.

(** The loop terminates within [hi - lo] iterations, on any array. *)
Lemma bisect_loop_total (fuel : nat) (a : list Q) (x : Q) :
  forall lo hi, (hi - lo <= fuel)%nat -> (lo <= hi)%nat ->
  exists k, bisect_loop fuel a x lo hi = Some k /\ (lo <= k <= hi)%nat.
Proof.
  induction fuel as [|fuel IH]; intros lo hi Hf Hle; cbn [bisect_loop].
  - assert (lo = hi) by lia. subst.
    rewrite Nat.ltb_irrefl. exists hi. split; [reflexivity | lia].
  - destruct (lo <? hi)%nat eqn:E.
    + apply Nat.ltb_lt in E.
      pose proof (midpoint_bounds lo hi E) as M.
      destruct (Qlt_bool x (nth ((lo + hi) / 2) a 0%Q)).
      * destruct (IH lo ((lo + hi) / 2)%nat) as (k & Hk & Hb); [lia | lia |].
        exists k. split; [exact Hk | lia].
      * destruct (IH (S ((lo + hi) / 2)) hi) as (k & Hk & Hb); [lia | lia |].
        exists k. split; [exact Hk | lia].
    + apply Nat.ltb_ge in E. exists lo. split; [reflexivity | lia].
Qed.

Lemma bisect_total (a : list Q) (x : Q) :
  exists k, bisect a x = Some k /\ (k <= length a)%nat.
Proof.
  destruct (bisect_loop_total (length a) a x 0 (length a)) as (k & Hk & Hb);
    [lia | lia |].
  exists k. split; [exact Hk | lia].
Qed.

Lemma bisect_loop_splits (fuel : nat) (a : list Q) (x : Q) :
  nondecreasing a ->
  forall lo hi, (hi - lo <= fuel)%nat -> (lo <= hi)%nat -> (hi <= length a)%nat ->
  (forall i, (i < lo)%nat -> (nth i a 0 <= x)%Q) ->
  (forall i, (hi <= i)%nat -> (i < length a)%nat -> (x < nth i a 0)%Q) ->
  exists k, bisect_loop fuel a x lo hi = Some k /\ splits a x k.
Proof.
  intro Hs.
  induction fuel as [|fuel IH]; intros lo hi Hf Hle Hlen Hlo Hhi; cbn [bisect_loop].
  - assert (lo = hi) by lia. subst.
    rewrite Nat.ltb_irrefl. exists hi. repeat split; auto.
  - destruct (lo <? hi)%nat eqn:E.
    + apply Nat.ltb_lt in E.
      pose proof (midpoint_bounds lo hi E) as M.
      destruct (Qlt_bool x (nth ((lo + hi) / 2) a 0%Q)) eqn:C.
      * apply Qlt_bool_iff in C.
        apply IH; try lia; auto.
        intros i Hi Hil.
        eapply Qlt_le_trans; [exact C | apply Hs; lia].
      * apply Qlt_bool_false in C.
        apply IH; try lia; auto.
        intros i Hi.
        apply Qle_trans with (nth ((lo + hi) / 2) a 0%Q); [apply Hs; lia | exact C].
    + apply Nat.ltb_ge in E. assert (lo = hi) by lia. subst.
      exists hi. repeat split; auto.
Qed.

Lemma bisect_splits (a : list Q) (x : Q) :
  nondecreasing a -> exists k, bisect a x = Some k /\ splits a x k.
Proof.
  intro Hs. apply bisect_loop_splits; auto; try lia.
Qed.

(** ** Level solver *)

Lemma fdiv_nonzero (x y : Q) : ~ (y == 0)%Q -> fdiv x y = Some (x / y)%Q.
Proof.
  intro H. unfold fdiv.
  destruct (Qeq_bool y 0) eqn:E; [|reflexivity].
  apply Qeq_bool_iff in E. contradiction.
Qed.

Lemma py_index_nat {A : Type} (l : list A) (k : nat) :
  py_index l (Z.of_nat k) = nth_error l k.
Proof.
  unfold py_index.
  destruct (Z.of_nat k <? 0) eqn:E; [apply Z.ltb_lt in E; lia|].
  now rewrite Nat2Z.id.
Qed.

(** [l[k-1]] for [k >= 1] is the entry before [k]; for [k = 0] it wraps
    around to the last entry. *)
Lemma py_index_pred {A : Type} (l : list A) (k : nat) :
  py_index l (Z.of_nat k - 1) =
  match k with
  | O => py_index l (-1)
  | S k' => nth_error l k'
  end.
Proof.
  destruct k as [|k'].
  - reflexivity.
  - replace (Z.of_nat (S k') - 1) with (Z.of_nat k') by lia. apply py_index_nat.
Qed.

Lemma py_index_minus1 {A : Type} (l : list A) (dflt : A) :
  l <> [] -> py_index l (-1) = Some (nth (length l - 1) l dflt).
Proof.
  intro H. unfold py_index.
  replace (-1 <? 0) with true by reflexivity.
  assert (0 < length l)%nat by (destruct l; [congruence | simpl; lia]).
  destruct (Z.of_nat (length l) + -1 <? 0) eqn:E; [apply Z.ltb_lt in E; lia|].
  replace (Z.to_nat (Z.of_nat (length l) + -1)) with (length l - 1)%nat by lia.
  apply nth_error_nth'. lia.
Qed.

Lemma flat_branch_true (cum : list Q) (k : nat) :
  flat_branch cum k = true <-> (length cum <= S k)%nat.
Proof.
  unfold flat_branch. rewrite Z.geb_leb, Z.leb_le. lia.
Qed.

Lemma flat_branch_false (cum : list Q) (k : nat) :
  flat_branch cum k = false <-> (S k < length cum)%nat.
Proof.
  unfold flat_branch. rewrite Z.geb_leb, Z.leb_gt. lia.
Qed.


(** What the solver computes on the flat branch. *)
Lemma target_level_flat (edges cum : list Q) (vt : option (list Q))
      (dem_i : list (list pixel)) (d : dem) (v : Q) (k : nat) (cum_last edge_last : Q) :
  bisect cum v = Some k ->
  flat_branch cum k = true ->
  py_index cum (-1) = Some cum_last ->
  py_index edges (-1) = Some edge_last ->
  target_level_of edges vt (Some cum) dem_i d v =
  Return (option_map (fun remaining => (edge_last + remaining)%Q)
                     (fdiv (v - cum_last) (face_area dem_i d))).
Proof.
  intros Hk Hf Hc He.
  unfold target_level_of. simpl. rewrite Hk.
  assert (Hp : exists c, py_index cum (Z.of_nat k - 1) = Some c).
  { rewrite py_index_pred. destruct k as [|k']; [eauto|].
    destruct (bisect_total cum v) as (k0 & Hk0 & Hb).
    rewrite Hk in Hk0. injection Hk0 as <-.
    destruct (nth_error cum k') eqn:E; [eauto|].
    apply nth_error_None in E. lia. }
  destruct Hp as (c & Hp). rewrite Hp. simpl.
  rewrite Hf, Hc, He. reflexivity.
Qed.

(** What the solver computes on the interpolation branch. *)
Lemma target_level_interpolated (edges cum vt : list Q)
      (dem_i : list (list pixel)) (d : dem) (v : Q) (k : nat)
      (cum_prev vol_k edge_k edge_k1 : Q) :
  bisect cum v = Some k ->
  flat_branch cum k = false ->
  py_index cum (Z.of_nat k - 1) = Some cum_prev ->
  nth_error vt k = Some vol_k ->
  nth_error edges k = Some edge_k ->
  nth_error edges (S k) = Some edge_k1 ->
  target_level_of edges (Some vt) (Some cum) dem_i d v =
  Return (option_map (fun fraction => (edge_k + fraction * (edge_k1 - edge_k))%Q)
                     (fdiv (v - cum_prev) vol_k)).
Proof.
  intros Hk Hf Hc Hv He He1.
  unfold target_level_of. simpl. rewrite Hk, Hc. simpl. rewrite Hf. simpl.
  rewrite !py_index_nat, Hv, He. simpl.
  replace (Z.of_nat k + 1) with (Z.of_nat (S k)) by lia.
  rewrite py_index_nat, He1. reflexivity.
Qed.


(** The scalar result of a row with a table, from its target level. *)
Lemma subgrid_compute_waterlevel (r : row) (d : dem) (edges : list Q) (v level : Q) :
  bin_edges r = Some edges ->
  vol1 r = Some v ->
  target_level_of edges (volume_table r) (cum_volume_table r) (row_window r d) d v
  = Return (Some level) ->
  subgrid_compute r d "waterlevel" = Return (Some (Waterlevel level)).
Proof.
  intros He Hv Ht. unfold subgrid_compute. rewrite He, Hv. simpl.
  rewrite Ht. reflexivity.
Qed.

(** From the second bin on, the interpolation branch is the rule of the
    specification. *)
Lemma interpolation_agrees_above_first_bin (r : row) (d : dem)
      (edges vt cum : list Q) (v : Q) (k' : nat) (level : Q) :
  bin_edges r = Some edges ->
  volume_table r = Some vt ->
  cum_volume_table r = Some cum ->
  vol1 r = Some v ->
  bisect cum v = Some (S k') ->
  flat_branch cum (S k') = false ->
  spec_interpolated_level edges vt cum (S k') v = Some level ->
  subgrid_compute r d "waterlevel" = Return (Some (Waterlevel level)).
Proof.
  intros He Hvt Hc Hv Hk Hf Hs.
  unfold spec_interpolated_level in Hs.
  destruct (nth_error edges (S k')) as [ek|] eqn:E1; [|discriminate].
  destruct (nth_error edges (S (S k'))) as [ek1|] eqn:E2; [|discriminate].
  destruct (nth_error vt (S k')) as [vk|] eqn:E3; [|discriminate].
  assert (Hlen : (k' < length cum)%nat).
  { apply flat_branch_false in Hf. lia. }
  apply subgrid_compute_waterlevel with (edges := edges) (v := v); auto.
  rewrite Hvt, Hc.
  rewrite (target_level_interpolated edges cum vt _ d v (S k') (nth k' cum 0%Q) vk ek ek1);
    auto.
  - now rewrite Hs.
  - rewrite py_index_pred. apply nth_error_nth'. exact Hlen.
Qed.

(** In the first bin the solver subtracts [cum_volume_table[-1]], the last
    cumulative volume. *)
Lemma interpolation_first_bin (r : row) (d : dem)
      (edges vt cum : list Q) (v cum_last vol_0 edge_0 edge_1 : Q) :
  bin_edges r = Some edges ->
  volume_table r = Some vt ->
  cum_volume_table r = Some cum ->
  vol1 r = Some v ->
  bisect cum v = Some O ->
  flat_branch cum O = false ->
  py_index cum (-1) = Some cum_last ->
  nth_error vt 0 = Some vol_0 ->
  nth_error edges 0 = Some edge_0 ->
  nth_error edges 1 = Some edge_1 ->
  ~ (vol_0 == 0)%Q ->
  subgrid_compute r d "waterlevel" =
  Return (Some (Waterlevel (edge_0 + (v - cum_last) / vol_0 * (edge_1 - edge_0))%Q)).
Proof.
  intros He Hvt Hc Hv Hk Hf Hl Hv0 He0 He1 Hnz.
  apply subgrid_compute_waterlevel with (edges := edges) (v := v); auto.
  rewrite Hvt, Hc.
  rewrite (target_level_interpolated edges cum vt _ d v O cum_last vol_0 edge_0 edge_1);
    auto.
  now rewrite fdiv_nonzero.
Qed.

(** The scenario of the specification: observed volume 30 solves to 2.25. *)
Example scenario_level_30 :
  returns_level (subgrid_compute (scenario_row 30) scenario_dem "waterlevel") (9 # 4).
Proof. vm_compute. reflexivity. Qed.

(** C1 (defect of the code).  For an observed volume in the first bin
    ([k = 0]) the solver does not use 0 for the cumulative volume before
    the bin: [cum_volume_table[fill_idx - 1]] is [cum_volume_table[-1]],
    the last entry.  On the scenario table with observed volume 5 the
    solver returns -6.5, where the rule of the specification gives 0.5. *)
Theorem interpolation_first_bin_wraps_around :
  bisect [10; 25; 45; 70]%Q 5 = Some O /\
  flat_branch [10; 25; 45; 70]%Q O = false /\
  returns_level (subgrid_compute (scenario_row 5) scenario_dem "waterlevel") (- (13 # 2)) /\
  (exists level,
      spec_interpolated_level [0; 1; 2; 3; 4]%Q [10; 15; 20; 25]%Q [10; 25; 45; 70]%Q O 5
      = Some level /\ (level == 1 # 2)%Q).
Proof.
  split; [reflexivity|]. split; [reflexivity|]. split.
  - vm_compute. reflexivity.
  - eexists. split; [vm_compute; reflexivity | reflexivity].
Qed.




(** ** Water depth *)

Lemma store_float (x : Q) : store Float x = x.
Proof. reflexivity. Qed.

Lemma py_int_nonneg (x : Q) : (0 <= x)%Q -> 0 <= py_int x.
Proof.
  intro H. unfold py_int, Qlt_bool.
  replace (Qle_bool 0 x) with true by (symmetry; apply Qle_bool_iff; exact H).
  simpl. change 0 with (Qfloor 0). apply Qfloor_resp_le. exact H.
Qed.

(** Whatever the dtype, a depth is never negative and is zero where the
    elevation is at or above the level. *)
Lemma pixel_depth_nonneg (dt : dtype) (level z dz : Q) :
  pixel_depth dt level (Some z) = Some dz ->
  (0 <= dz)%Q /\ ((level <= z)%Q -> dz = 0%Q).
Proof.
  unfold pixel_depth. intro H. injection H as <-.
  destruct (Qlt_bool z level) eqn:E.
  - apply Qlt_bool_iff in E. split; [|intro; lra].
    destruct dt; simpl; [lra|].
    change 0%Q with (inject_Z 0). rewrite <- Zle_Qle. apply py_int_nonneg. lra.
  - split; [lra | reflexivity].
Qed.

(** On a float raster the depth is the clipped difference. *)
Lemma pixel_depth_clipped (level : Q) (p : pixel) :
  clipped_depth level p (pixel_depth Float level p).
Proof.
  destruct p as [z|]; simpl; [|exact I].
  destruct (Qlt_bool z level) eqn:E.
  - apply Qlt_bool_iff in E. repeat split.
    + symmetry. apply Q.max_l. lra.
    + lra.
    + intro H. lra.
    + intro H. lra.
  - apply Qlt_bool_false in E. repeat split.
    + symmetry. apply Q.max_r. lra.
    + lra.
    + intros _. exact E.
Qed.

Lemma Forall2_map_right {A B : Type} (R : A -> B -> Prop) (f : A -> B) (l : list A) :
  (forall x, R x (f x)) -> Forall2 R l (map f l).
Proof.
  intro H. induction l; simpl; constructor; auto.
Qed.

(** The two methods share the level: when the scalar method returns
    [level], the depth method returns the window mapped by [pixel_depth]. *)
Lemma waterdepth_of_waterlevel (r : row) (d : dem) (level : Q) :
  subgrid_compute r d "waterlevel" = Return (Some (Waterlevel level)) ->
  subgrid_compute r d "waterdepth" =
  Return (Some (Waterdepth (map (map (pixel_depth (band_dtype d) level)) (row_window r d)))).
Proof.
  unfold subgrid_compute.
  destruct (bin_edges r) as [edges|]; [|discriminate].
  destruct (vol1 r) as [v|]; simpl; [|discriminate].
  destruct (target_level_of edges (volume_table r) (cum_volume_table r)
              (row_window r d) d v) as [[t|]|e| |]; simpl; try discriminate.
  intro H. injection H as <-. reflexivity.
Qed.

(** On a float raster, whenever the solver yields a level for a row built
    in memory, its waterdepth result has the shape of the window
    [band[row_start:row_stop, col_start:col_stop]] of the row and holds,
    pixel by pixel, max(level - elevation, 0): the depth is never negative
    and is zero exactly where the elevation is at or above the level. *)
Lemma waterdepth_is_clipped_difference (r : row) (d : dem) (s : slice2) (level : Q) :
  band_dtype d = Float ->
  slice r = Slice s ->
  subgrid_compute r d "waterlevel" = Return (Some (Waterlevel level)) ->
  exists depth,
    subgrid_compute r d "waterdepth" = Return (Some (Waterdepth depth)) /\
    Forall2 (Forall2 (clipped_depth level))
            (slice2d (band d) (row_start s) (row_stop s) (col_start s) (col_stop s))
            depth.
Proof.
  intros Hdt Hs H. eexists. split; [apply waterdepth_of_waterlevel, H|].
  rewrite Hdt. unfold row_window, band_window. rewrite Hs.
  apply Forall2_map_right. intro line.
  apply Forall2_map_right. apply pixel_depth_clipped.
Qed.

(** C6 (defect of the code).  The depth array is created by
    [np.zeros_like(dem_i)] and so has the dtype of the terrain window: on
    an integer raster the differences [target_level - dem] are truncated
    when they are stored.  For the scenario table over the integer
    elevations 0, 1, 2, 3, 4 (the first row of a raster of two rows) and
    the observed volume 35 the level is 2.5 and the solver returns the
    depths 2, 1, 0, 0, 0, where max(level - elevation, 0) is 2.5, 1.5,
    0.5, 0, 0: the pixel of elevation 2 lies below the level and has
    depth 0.  On the same raster stored as floats the solver returns the
    clipped differences. *)
Theorem waterdepth_truncated_on_integer_raster :
  returns_level (subgrid_compute (integer_row 35) (integer_dem Int) "waterlevel") (5 # 2) /\
  subgrid_compute (integer_row 35) (integer_dem Int) "waterdepth"
  = Return (Some (Waterdepth [[Some 2; Some 1; Some 0; Some 0; Some 0]]%Q)) /\
  (exists depth,
      subgrid_compute (integer_row 35) (integer_dem Float) "waterdepth"
      = Return (Some (Waterdepth depth)) /\
      Forall2 (Forall2 (fun dz q => exists x, dz = Some x /\ (x == q)%Q)) depth
              [[5 # 2; 3 # 2; 1 # 2; 0; 0]]%Q).
Proof.
  split; [vm_compute; reflexivity|]. split; [vm_compute; reflexivity|].
  eexists. split; [vm_compute; reflexivity|].
  repeat constructor; eexists; (split; [reflexivity | vm_compute; reflexivity]).
Qed.

(** ** Empty tables *)

(** C10.  A row whose [bin_edges] is [None] solves to [None] for both
    methods, whatever the terrain: nothing is raised and the raster is not
    read. *)
Theorem subgrid_compute_empty_table (r : row) (d : dem) :
  bin_edges r = None ->
  subgrid_compute r d "waterlevel" = Return None /\
  subgrid_compute r d "waterdepth" = Return None.
Proof.
  intro H. unfold subgrid_compute. rewrite H. split; reflexivity.
Qed.

Lemma subgrid_compute_empty_row :
  subgrid_compute empty_row scenario_dem "waterlevel" = Return None /\
  subgrid_compute empty_row scenario_dem "waterdepth" = Return None.
Proof.
  exact (subgrid_compute_empty_table empty_row scenario_dem eq_refl).
Defined.

(** The solver never looks at the terrain for an empty table. *)
Lemma subgrid_compute_empty_any_dem (r : row) (d d' : dem) (method : string) :
  bin_edges r = None ->
  subgrid_compute r d method = subgrid_compute r d' method.
Proof.
  intro H. unfold subgrid_compute. now rewrite H.
Qed.

(* ------------------------------------------------------------------ *)
(** ** Arrays: masks, running sums, differences *)


Lemma unmask_valid (l : list pixel) (values : list Q) :
  unmask l = Some values -> l = map Some values.
Proof.
  revert values. induction l as [|[z|] t IH]; simpl; intros values H.
  - injection H as <-. reflexivity.
  - destruct (unmask t) as [vs|]; [|discriminate].
    injection H as <-. simpl. f_equal. now apply IH.
  - discriminate.
Qed.

Lemma cumsum_from_length {A : Type} (add : A -> A -> A) (l : list A) :
  forall acc, length (cumsum_from add acc l) = length l.
Proof.
  induction l as [|x t IH]; intro acc; simpl; [reflexivity|]. now rewrite IH.
Qed.

Lemma zip_with_length {A B C : Type} (f : A -> B -> C) (l : list A) :
  forall m, length (zip_with f l m) = Nat.min (length l) (length m).
Proof.
  induction l as [|x t IH]; intros [|y m]; simpl; try reflexivity. now rewrite IH.
Qed.

Lemma zip_with_nth {A B C : Type} (f : A -> B -> C) (da : A) (db : B) (dc : C)
      (l : list A) :
  forall m k, (k < length l)%nat -> (k < length m)%nat ->
  nth k (zip_with f l m) dc = f (nth k l da) (nth k m db).
Proof.
  induction l as [|x t IH]; intros [|y m] [|k] Hl Hm; simpl in *; try lia.
  - reflexivity.
  - apply IH; lia.
Qed.

Lemma diff_length (l : list Q) : length (diff l) = (length l - 1)%nat.
Proof.
  induction l as [|x [|y t] IH]; try reflexivity.
  change (diff (x :: y :: t)) with ((y - x)%Q :: diff (y :: t)).
  simpl length in *. rewrite IH. lia.
Qed.

Lemma diff_nth (l : list Q) :
  forall k, (S k < length l)%nat ->
  nth k (diff l) 0%Q = (nth (S k) l 0 - nth k l 0)%Q.
Proof.
  induction l as [|x [|y t] IH]; intros k Hk; simpl in Hk; try lia.
  change (diff (x :: y :: t)) with ((y - x)%Q :: diff (y :: t)).
  destruct k as [|k]; [reflexivity|].
  change (nth (S k) ((y - x)%Q :: diff (y :: t)) 0%Q) with (nth k (diff (y :: t)) 0%Q).
  rewrite IH by (simpl; lia). reflexivity.
Qed.

Lemma linspace_length (first last : Q) (bins : nat) :
  length (linspace first last bins) = S bins.
Proof.
  unfold linspace. now rewrite length_map, length_seq.
Qed.

Lemma nth_map_seq {A : Type} (f : nat -> A) (n k : nat) (dflt : A) :
  (k < n)%nat -> nth k (map f (seq 0 n)) dflt = f k.
Proof.
  intro H.
  rewrite (nth_indep _ dflt (f O)) by (rewrite length_map, length_seq; lia).
  rewrite (map_nth f (seq 0 n) O k), seq_nth by lia. reflexivity.
Qed.

Lemma linspace_nth (first last : Q) (bins k : nat) :
  (k <= bins)%nat ->
  nth k (linspace first last bins) 0%Q =
  (first + inject_Z (Z.of_nat k) * ((last - first) / inject_Z (Z.of_nat bins)))%Q.
Proof.
  intro H. unfold linspace. rewrite nth_map_seq by lia. reflexivity.
Qed.

(** Running sums of rationals: entry [k] is the sum of the first [k+1]
    entries. *)
Lemma cumsum_from_prefix (l : list Q) :
  forall acc k, (k < length l)%nat ->
  (nth k (cumsum_from Qplus acc l) 0 == acc + qsum (firstn (S k) l))%Q.
Proof.
  induction l as [|x t IH]; intros acc k Hk; simpl in Hk; [lia|].
  destruct k as [|k].
  - cbn [cumsum_from nth firstn qsum fold_right]. ring.
  - cbn [cumsum_from nth]. rewrite IH by lia.
    change (firstn (S (S k)) (x :: t)) with (x :: firstn (S k) t).
    cbn [qsum fold_right]. fold (qsum (firstn (S k) t)). ring.
Qed.

Lemma cumsum_from_step (l : list Q) :
  forall acc k, (S k < length l)%nat ->
  (nth (S k) (cumsum_from Qplus acc l) 0 ==
   nth k (cumsum_from Qplus acc l) 0 + nth (S k) l 0)%Q.
Proof.
  induction l as [|x t IH]; intros acc k Hk; simpl in Hk; [lia|].
  destruct k as [|k].
  - destruct t as [|y t]; simpl in Hk; [lia|]. cbn [cumsum_from nth]. reflexivity.
  - cbn [cumsum_from nth]. apply IH. lia.
Qed.

Lemma cumsum_nondecreasing (l : list Q) :
  (forall k, (k < length l)%nat -> (0 <= nth k l 0)%Q) ->
  nondecreasing (cumsumQ l).
Proof.
  intros Hpos i j Hij Hj. unfold cumsumQ in *.
  rewrite cumsum_from_length in Hj.
  induction Hij as [|j Hij IH].
  - apply Qle_refl.
  - rewrite cumsum_from_step by lia.
    specialize (IH ltac:(lia)). specialize (Hpos (S j) Hj). lra.
Qed.

Lemma cumsum_increasing (l : list Q) :
  (forall k, (0 < k)%nat -> (k < length l)%nat -> (0 < nth k l 0)%Q) ->
  increasing (cumsumQ l).
Proof.
  intros Hpos i j Hij Hj. unfold cumsumQ in *.
  rewrite cumsum_from_length in Hj.
  induction Hij as [|j Hij IH].
  - rewrite cumsum_from_step by lia.
    specialize (Hpos (S i) ltac:(lia) Hj). lra.
  - rewrite cumsum_from_step by lia.
    specialize (IH ltac:(lia)). specialize (Hpos (S j) ltac:(lia) Hj). lra.
Qed.

(* ------------------------------------------------------------------ *)
(** ** Histogram *)

Lemma Qmin_cases (x y : Q) : Qmin x y = x \/ Qmin x y = y.
Proof.
  unfold Qmin, GenericMinMax.gmin. destruct (x ?= y)%Q; auto.
Qed.

Lemma Qmax_cases (x y : Q) : Qmax x y = x \/ Qmax x y = y.
Proof.
  unfold Qmax, GenericMinMax.gmax. destruct (x ?= y)%Q; auto.
Qed.

Lemma fold_min_lower (t : list Q) :
  forall x, (fold_left Qmin t x <= x)%Q /\
            (forall y, In y t -> (fold_left Qmin t x <= y)%Q) /\
            In (fold_left Qmin t x) (x :: t).
Proof.
  induction t as [|z t IH]; intro x; simpl.
  - repeat split; [apply Qle_refl | intros y [] | auto].
  - destruct (IH (Qmin x z)) as (H1 & H2 & H3). repeat split.
    + eapply Qle_trans; [exact H1 | apply Q.le_min_l].
    + intros y [<-|Hy]; [|auto].
      eapply Qle_trans; [exact H1 | apply Q.le_min_r].
    + destruct H3 as [H3|H3]; [|auto].
      rewrite <- H3. destruct (Qmin_cases x z) as [->| ->]; auto.
Qed.

Lemma fold_max_upper (t : list Q) :
  forall x, (x <= fold_left Qmax t x)%Q /\
            (forall y, In y t -> (y <= fold_left Qmax t x)%Q) /\
            In (fold_left Qmax t x) (x :: t).
Proof.
  induction t as [|z t IH]; intro x; simpl.
  - repeat split; [apply Qle_refl | intros y [] | auto].
  - destruct (IH (Qmax x z)) as (H1 & H2 & H3). repeat split.
    + eapply Qle_trans; [apply Q.le_max_l | exact H1].
    + intros y [<-|Hy]; [|auto].
      eapply Qle_trans; [apply Q.le_max_r | exact H1].
    + destruct H3 as [H3|H3]; [|auto].
      rewrite <- H3. destruct (Qmax_cases x z) as [->| ->]; auto.
Qed.

(** The range of the histogram is never empty. *)
Lemma outer_edges_lt (values : list Q) (first last : Q) :
  outer_edges values = (first, last) -> (first < last)%Q.
Proof.
  unfold outer_edges.
  destruct values as [|x t]; simpl.
  - intro H. injection H as <- <-. reflexivity.
  - destruct (fold_min_lower t x) as (Hlo & _ & _).
    destruct (fold_max_upper t x) as (Hhi & _ & _).
    destruct (Qeq_bool (fold_left Qmin t x) (fold_left Qmax t x)) eqn:E;
      intro H; injection H as <- <-.
    + lra.
    + apply Qeq_bool_neq in E. lra.
Qed.

(** With two different elevations the range is (min, max), and the
    minimum is one of the values. *)
Lemma outer_edges_distinct (values : list Q) (x y : Q) :
  In x values -> In y values -> ~ (x == y)%Q ->
  exists first last,
    outer_edges values = (first, last) /\ In first values.
Proof.
  intros Hx Hy Hne. unfold outer_edges.
  destruct values as [|z t]; [contradiction|]. simpl reduce. cbv iota.
  destruct (fold_min_lower t z) as (Hlo & Hlo' & Hin).
  destruct (fold_max_upper t z) as (Hhi & Hhi' & _).
  assert (Hbelow : forall w, In w (z :: t) -> (fold_left Qmin t z <= w)%Q).
  { intros w [<-|Hw]; auto. }
  assert (Habove : forall w, In w (z :: t) -> (w <= fold_left Qmax t z)%Q).
  { intros w [<-|Hw]; auto. }
  destruct (Qeq_bool (fold_left Qmin t z) (fold_left Qmax t z)) eqn:E.
  - exfalso. apply Qeq_bool_iff in E. apply Hne.
    pose proof (Hbelow x Hx). pose proof (Habove x Hx).
    pose proof (Hbelow y Hy). pose proof (Habove y Hy). lra.
  - eexists. eexists. split; [reflexivity | exact Hin].
Qed.

Lemma bin_index_bound (first last : Q) (bins : nat) (x : Q) :
  (0 < bins)%nat -> (bin_index first last bins x < bins)%nat.
Proof.
  intro H. unfold bin_index.
  destruct (Qfloor ((x - first) / (last - first) * inject_Z (Z.of_nat bins))
            >=? Z.of_nat bins) eqn:E.
  - lia.
  - rewrite Z.geb_leb in E. apply Z.leb_gt in E. lia.
Qed.

(** The lowest value of the range falls in the first bin. *)
Lemma bin_index_first (first last : Q) (bins : nat) :
  (0 < bins)%nat -> bin_index first last bins first = O.
Proof.
  intro H. unfold bin_index.
  assert (E : ((first - first) / (last - first) * inject_Z (Z.of_nat bins) == inject_Z 0)%Q).
  { unfold Qdiv. setoid_replace (first - first)%Q with 0%Q by ring. ring. }
  rewrite (Qfloor_comp _ _ E), Qfloor_Z.
  destruct (0 >=? Z.of_nat bins) eqn:G; [|reflexivity].
  rewrite Z.geb_leb in G. apply Z.leb_le in G. lia.
Qed.

Lemma count_bin_nonneg (first last : Q) (bins : nat) (values : list Q) (k : nat) :
  0 <= count_bin first last bins values k.
Proof. unfold count_bin. lia. Qed.

Lemma count_bin_positive (first last : Q) (bins : nat) (values : list Q) (x : Q) :
  In x values -> 1 <= count_bin first last bins values (bin_index first last bins x).
Proof.
  intro H. unfold count_bin.
  assert (Hin : In x (filter (fun y => Nat.eqb (bin_index first last bins y)
                                               (bin_index first last bins x)) values)).
  { apply filter_In. split; [exact H | apply Nat.eqb_refl]. }
  destruct (filter _ values); [contradiction | simpl length; lia].
Qed.

Lemma zsum_indicator (b : nat) :
  forall n s,
  zsum (map (fun k => if Nat.eqb b k then 1 else 0) (seq s n)) =
  if ((s <=? b) && (b <? s + n))%nat then 1 else 0.
Proof.
  induction n as [|n IH]; intro s.
  - cbn [seq map zsum fold_right].
    destruct (Nat.leb_spec s b); destruct (Nat.ltb_spec b (s + 0)); simpl; lia.
  - cbn [seq map zsum fold_right].
    fold (zsum (map (fun k => if Nat.eqb b k then 1 else 0) (seq (S s) n))).
    rewrite IH.
    destruct (Nat.eqb_spec b s);
      destruct (Nat.leb_spec (S s) b); destruct (Nat.leb_spec s b);
      destruct (Nat.ltb_spec b (S s + n)); destruct (Nat.ltb_spec b (s + S n));
      cbn [andb]; lia.
Qed.

Lemma zsum_map_add {A : Type} (f g : A -> Z) (l : list A) :
  zsum (map (fun k => f k + g k) l) = zsum (map f l) + zsum (map g l).
Proof.
  induction l as [|x t IH]; simpl; [reflexivity|].
  fold (zsum (map (fun k => f k + g k) t)). fold (zsum (map f t)). fold (zsum (map g t)).
  lia.
Qed.

Lemma zsum_map_zero {A : Type} (f : A -> Z) (l : list A) :
  (forall k, f k = 0) -> zsum (map f l) = 0.
Proof.
  intro H. induction l as [|x t IH]; [reflexivity|].
  cbn [map zsum fold_right]. fold (zsum (map f t)). rewrite H, IH. reflexivity.
Qed.

(** Every value is counted in exactly one bin. *)
Lemma histogram_counts_all (first last : Q) (bins : nat) (values : list Q) :
  (0 < bins)%nat ->
  zsum (map (count_bin first last bins values) (seq 0 bins)) = Z.of_nat (length values).
Proof.
  intro Hb. induction values as [|x t IH].
  - apply zsum_map_zero. reflexivity.
  - rewrite (map_ext _ (fun k => (if Nat.eqb (bin_index first last bins x) k then 1 else 0)
                                 + count_bin first last bins t k)).
    + rewrite zsum_map_add, IH, zsum_indicator. simpl Nat.leb.
      pose proof (bin_index_bound first last bins x Hb) as B.
      replace (bin_index first last bins x <? 0 + bins)%nat with true
        by (symmetry; apply Nat.ltb_lt; lia).
      cbn [andb]. change (length (x :: t)) with (S (length t)). lia.
    + intro k. unfold count_bin. cbn [filter].
      destruct (Nat.eqb (bin_index first last bins x) k); [|lia].
      change (length (x :: ?l)) with (S (length l)).
      cbn [length]. lia.
Qed.

Lemma cumsumZ_prefix (l : list Z) :
  forall acc k, (k < length l)%nat ->
  nth k (cumsum_from Z.add acc l) 0 = acc + zsum (firstn (S k) l).
Proof.
  induction l as [|x t IH]; intros acc k Hk; simpl in Hk; [lia|].
  destruct k as [|k].
  - cbn [cumsum_from nth firstn zsum fold_right]. lia.
  - cbn [cumsum_from nth]. rewrite IH by lia.
    change (firstn (S (S k)) (x :: t)) with (x :: firstn (S k) t).
    cbn [zsum fold_right]. fold (zsum (firstn (S k) t)). lia.
Qed.

Lemma zsum_nonneg (l : list Z) : Forall (fun n => 0 <= n) l -> 0 <= zsum l.
Proof.
  induction 1 as [|x t Hx Ht IH]; [reflexivity|].
  cbn [zsum fold_right]. fold (zsum t). lia.
Qed.

Lemma Forall_prefix {A : Type} (P : A -> Prop) (k : nat) :
  forall l, Forall P l -> Forall P (firstn k l).
Proof.
  induction k as [|k IH]; intros l H; [constructor|].
  destruct H as [|x t Hx Ht]; [constructor|].
  cbn [firstn]. constructor; auto.
Qed.

Lemma zsum_prefix_lower (l : list Z) (k : nat) :
  Forall (fun n => 0 <= n) l -> nth 0 l 0 <= zsum (firstn (S k) l).
Proof.
  intro H. destruct H as [|x t Hx Ht]; [reflexivity|].
  cbn [firstn nth zsum fold_right]. fold (zsum (firstn k t)).
  pose proof (zsum_nonneg (firstn k t)) as P.
  specialize (P (Forall_prefix _ k t Ht)). lia.
Qed.

Lemma counts_of_nonneg (first last : Q) (bins : nat) (values : list Q) :
  Forall (fun n => 0 <= n) (counts_of first last bins values).
Proof.
  apply Forall_forall. intros n Hn. apply in_map_iff in Hn.
  destruct Hn as (k & <- & _). apply count_bin_nonneg.
Qed.

Lemma counts_of_length (first last : Q) (bins : nat) (values : list Q) :
  length (counts_of first last bins values) = bins.
Proof.
  unfold counts_of. now rewrite length_map, length_seq.
Qed.

(** The cumulative counts are never negative, and the last one is the
    number of values. *)
Lemma n_cum_nonneg (first last : Q) (bins : nat) (values : list Q) (k : nat) :
  (k < bins)%nat -> 0 <= nth k (cumsumZ (counts_of first last bins values)) 0.
Proof.
  intro Hk. unfold cumsumZ.
  rewrite cumsumZ_prefix by (rewrite counts_of_length; exact Hk).
  pose proof (counts_of_nonneg first last bins values) as Hn.
  pose proof (zsum_prefix_lower _ k Hn) as P.
  assert (0 <= nth 0 (counts_of first last bins values) 0).
  { destruct (counts_of first last bins values) as [|c cs] eqn:E; [simpl; lia|].
    inversion Hn; subst. assumption. }
  lia.
Qed.

Lemma n_cum_last (first last : Q) (bins : nat) (values : list Q) :
  (0 < bins)%nat ->
  nth (bins - 1) (cumsumZ (counts_of first last bins values)) 0 = Z.of_nat (length values).
Proof.
  intro Hb. unfold cumsumZ.
  rewrite cumsumZ_prefix by (rewrite counts_of_length; lia).
  replace (S (bins - 1)) with (length (counts_of first last bins values))
    by (rewrite counts_of_length; lia).
  rewrite firstn_all. unfold counts_of. rewrite histogram_counts_all by exact Hb. lia.
Qed.

(** When the lowest value of the range is one of the values, every
    cumulative count is positive. *)
Lemma n_cum_positive (first last : Q) (bins : nat) (values : list Q) (k : nat) :
  In first values -> (k < bins)%nat ->
  1 <= nth k (cumsumZ (counts_of first last bins values)) 0.
Proof.
  intros Hin Hk. unfold cumsumZ.
  rewrite cumsumZ_prefix by (rewrite counts_of_length; exact Hk).
  pose proof (zsum_prefix_lower _ k (counts_of_nonneg first last bins values)) as P.
  assert (H0 : nth 0 (counts_of first last bins values) 0
               = count_bin first last bins values 0).
  { unfold counts_of. apply nth_map_seq. lia. }
  pose proof (count_bin_positive first last bins values first Hin) as C.
  rewrite bin_index_first in C by lia. lia.
Qed.

(** Consecutive edges of [linspace] are one step apart. *)
Lemma linspace_diff (first last : Q) (bins k : nat) :
  (k < bins)%nat ->
  (nth k (diff (linspace first last bins)) 0 == (last - first) / inject_Z (Z.of_nat bins))%Q.
Proof.
  intro Hk. rewrite diff_nth by (rewrite linspace_length; lia).
  rewrite !linspace_nth by lia.
  rewrite Nat2Z.inj_succ. unfold Z.succ. rewrite inject_Z_plus. ring.
Qed.

Lemma linspace_step_positive (first last : Q) (bins : nat) :
  (0 < bins)%nat -> (first < last)%Q ->
  (0 < (last - first) / inject_Z (Z.of_nat bins))%Q.
Proof.
  intros Hb Hlt. apply Qlt_shift_div_l.
  - change 0%Q with (inject_Z 0). rewrite <- Zlt_Qlt. lia.
  - lra.
Qed.

(* ------------------------------------------------------------------ *)
(** ** Table builder *)


Lemma window_table_valid (d : dem) (dem_i : list (list pixel)) (values : list Q)
      (first last : Q) :
  unmask (concat dem_i) = Some values ->
  outer_edges values = (first, last) ->
  window_table d dem_i =
  let n_per_bin := counts_of first last 20 values in
  let bin_edges := linspace first last 20 in
  let vt := volume_table_of d n_per_bin bin_edges in
  mkTable (Some n_per_bin) (Some bin_edges) (Some vt) (Some (cumsumQ vt)).
Proof.
  intros Hu Ho. unfold window_table, histogram. rewrite Hu, Ho. reflexivity.
Qed.

Section VolumeTable.

Variable d : dem.
Variables first last : Q.
Variable values : list Q.
Variable bins : nat.
Hypothesis bins_positive : (0 < bins)%nat.
Hypothesis range_ordered : (first < last)%Q.

Let n_per_bin := counts_of first last bins values.
Let bin_edges := linspace first last bins.
Let vt := volume_table_of d n_per_bin bin_edges.
Let step := ((last - first) / inject_Z (Z.of_nat bins))%Q.

Lemma volume_table_length : length vt = bins.
Proof.
    unfold vt, volume_table_of, cumsumZ.
    rewrite zip_with_length, cumsum_from_length, diff_length.
    unfold n_per_bin, bin_edges. rewrite counts_of_length, linspace_length. lia.
Qed.

Lemma volume_table_nth (k : nat) :
  (k < bins)%nat ->
  (nth k vt 0 ==
   Qabs (affine_a d * affine_e d) * inject_Z (nth k (cumsumZ n_per_bin) 0%Z) * step)%Q.
Proof.
    intro Hk. unfold vt, volume_table_of.
    rewrite (zip_with_nth _ 0 0%Q 0%Q).
    - unfold bin_edges. rewrite linspace_diff by exact Hk. reflexivity.
    - unfold cumsumZ, n_per_bin. rewrite cumsum_from_length, counts_of_length. exact Hk.
    - unfold bin_edges. rewrite diff_length, linspace_length. lia.
Qed.

Lemma volume_table_nonneg (k : nat) : (k < bins)%nat -> (0 <= nth k vt 0)%Q.
Proof.
    intro Hk. rewrite volume_table_nth by exact Hk.
    pose proof (Qabs_nonneg (affine_a d * affine_e d)) as Ha.
    pose proof (n_cum_nonneg first last bins values k Hk) as Hn.
    pose proof (linspace_step_positive first last bins bins_positive range_ordered) as Hs.
    fold step in Hs. fold n_per_bin in Hn.
    rewrite Zle_Qle in Hn. change (inject_Z 0) with 0%Q in Hn.
    apply Qmult_le_0_compat; [apply Qmult_le_0_compat|]; lra.
Qed.

Lemma volume_table_positive (k : nat) :
  In first values -> ~ (affine_a d * affine_e d == 0)%Q ->
  (k < bins)%nat -> (0 < nth k vt 0)%Q.
Proof.
    intros Hin Hnz Hk. rewrite volume_table_nth by exact Hk.
    assert (Ha : (0 < Qabs (affine_a d * affine_e d))%Q).
    { pose proof (Qabs_nonneg (affine_a d * affine_e d)) as H.
      destruct (Qlt_le_dec 0 (Qabs (affine_a d * affine_e d))) as [|Hle]; [assumption|].
      exfalso. apply Hnz.
      assert (E : (Qabs (affine_a d * affine_e d) == 0)%Q) by lra.
      revert E. apply Qabs_case; intros; lra. }
    pose proof (n_cum_positive first last bins values k Hin Hk) as Hn.
    pose proof (linspace_step_positive first last bins bins_positive range_ordered) as Hs.
    fold step in Hs. fold n_per_bin in Hn.
    rewrite Zle_Qle in Hn. change (inject_Z 1) with 1%Q in Hn.
    apply Qmult_lt_0_compat; [apply Qmult_lt_0_compat|]; lra.
Qed.

Lemma volume_table_last :
  (nth (bins - 1) vt 0 ==
   Qabs (affine_a d * affine_e d) * inject_Z (Z.of_nat (length values)) * step)%Q.
Proof.
    rewrite volume_table_nth by lia.
    unfold n_per_bin. rewrite n_cum_last by exact bins_positive. reflexivity.
Qed.

End VolumeTable.

(** What a returned row is made of. *)
Lemma build_row_inv (d : dem) (i : nat) (fc : list (Q * Q)) (r : row) :
  build_row d i fc = Return r ->
  exists s ext,
    face_slice d fc = Return s /\ face_extent fc = Return ext /\
    r = mkRow i (Slice s) fc
              (t_volume_table (window_table d (band_window d s)))
              (t_cum_volume_table (window_table d (band_window d s)))
              (t_n_per_bin (window_table d (band_window d s)))
              ext
              (t_bin_edges (window_table d (band_window d s)))
              None None None [].
Proof.
  unfold build_row.
  destruct (face_slice d fc) as [s|e| |]; simpl; try discriminate.
  destruct (face_extent fc) as [ext|e| |]; simpl; try discriminate.
  intro H. injection H as <-. eauto.
Qed.

(** A row with bin edges comes from a window without masked pixels. *)
Lemma build_row_table (d : dem) (i : nat) (fc : list (Q * Q)) (r : row) (edges : list Q) :
  build_row d i fc = Return r ->
  bin_edges r = Some edges ->
  exists values first last,
    unmask (concat (row_window r d)) = Some values /\
    outer_edges values = (first, last) /\
    (first < last)%Q /\
    edges = linspace first last 20 /\
    n_per_bin r = Some (counts_of first last 20 values) /\
    volume_table r
    = Some (volume_table_of d (counts_of first last 20 values) (linspace first last 20)) /\
    cum_volume_table r
    = Some (cumsumQ (volume_table_of d (counts_of first last 20 values)
                                     (linspace first last 20))).
Proof.
  intros Hb He.
  destruct (build_row_inv d i fc r Hb) as (s & ext & _ & _ & ->).
  unfold row_window. cbn [slice bin_edges n_per_bin volume_table cum_volume_table] in *.
  destruct (unmask (concat (band_window d s))) as [values|] eqn:Hu.
  - destruct (outer_edges values) as [first last] eqn:Ho.
    rewrite (window_table_valid d _ values first last Hu Ho) in *.
    cbn [t_bin_edges t_volume_table t_cum_volume_table t_n_per_bin] in *.
    injection He as <-.
    exists values, first, last. repeat split; auto.
    eapply outer_edges_lt; eassumption.
  - unfold window_table in He. rewrite Hu in He. discriminate.
Qed.

(** The flat window of the small terrain: four pixels of elevation 5. *)
Lemma cum_volume_table_flat_window :
  exists r cum,
    build_row small_dem 2 (face_of 2 4 1 3) = Return r /\
    bin_edges r <> None /\
    cum_volume_table r = Some cum /\
    (nth 0 cum 0 == nth 1 cum 0)%Q /\
    ~ (nth 0 cum 0 < nth 1 cum 0)%Q.
Proof.
  eexists. eexists. split; [vm_compute; reflexivity|].
  split; [discriminate|]. split; [reflexivity|].
  split; [reflexivity|]. intro H. discriminate H.
Qed.

(** C7 (amended).  For every row with a table built by [build_tables],
    [cum_volume_table[k]] is the sum of [volume_table[0..k]] for every bin
    [k], the last entry is the sum of the whole volume table, and the
    cumulative table never decreases; it is strictly increasing when the
    window holds two different elevations and the pixel area
    [affine.a * affine.e] is not zero. *)
Theorem cum_volume_table_prefix_sums (d : dem) (i : nat) (fc : list (Q * Q))
        (r : row) (edges : list Q) :
  build_row d i fc = Return r ->
  bin_edges r = Some edges ->
  exists vt cum cum_last,
    volume_table r = Some vt /\ cum_volume_table r = Some cum /\
    length vt = 20%nat /\ length cum = 20%nat /\
    (forall k, (k < 20)%nat -> (nth k cum 0 == qsum (firstn (S k) vt))%Q) /\
    py_index cum (-1) = Some cum_last /\ (cum_last == qsum vt)%Q /\
    nondecreasing cum /\
    ((exists x y, In (Some x) (concat (row_window r d)) /\
                  In (Some y) (concat (row_window r d)) /\ ~ (x == y)%Q) ->
     ~ (affine_a d * affine_e d == 0)%Q ->
     increasing cum).
Proof.
  intros Hb He.
  destruct (build_row_table d i fc r edges Hb He)
    as (values & first & last & Hu & Ho & Hlt & _ & _ & Hvt & Hcum).
  set (vt := volume_table_of d (counts_of first last 20 values) (linspace first last 20)) in *.
  assert (Hlen : length vt = 20%nat) by (apply volume_table_length; lia).
  assert (Hclen : length (cumsumQ vt) = 20%nat).
  { unfold cumsumQ. now rewrite cumsum_from_length. }
  assert (Hprefix : forall k, (k < 20)%nat ->
                              (nth k (cumsumQ vt) 0 == qsum (firstn (S k) vt))%Q).
  { intros k Hk. unfold cumsumQ. rewrite cumsum_from_prefix by lia. ring. }
  exists vt, (cumsumQ vt), (nth 19 (cumsumQ vt) 0%Q).
  split; [exact Hvt|]. split; [exact Hcum|]. split; [exact Hlen|].
  split; [exact Hclen|]. split; [exact Hprefix|]. split; [|split; [|split]].
  - rewrite (py_index_minus1 _ 0%Q).
    + now rewrite Hclen.
    + intro E. rewrite E in Hclen. discriminate.
  - rewrite Hprefix by lia.
    replace 20%nat with (length vt) at 1 by exact Hlen.
    now rewrite firstn_all.
  - apply cumsum_nondecreasing. intros k Hk. rewrite Hlen in Hk.
    apply volume_table_nonneg; [lia | exact Hlt | exact Hk].
  - intros (x & y & Hx & Hy & Hne) Hnz.
    apply cumsum_increasing. intros k _ Hk. rewrite Hlen in Hk.
    apply unmask_valid in Hu. rewrite Hu in Hx, Hy.
    apply in_map_iff in Hx. destruct Hx as (x' & Ex & Hx). injection Ex as ->.
    apply in_map_iff in Hy. destruct Hy as (y' & Ey & Hy). injection Ey as ->.
    destruct (outer_edges_distinct values x y Hx Hy Hne) as (f & l & Ho' & Hin).
    rewrite Ho in Ho'. injection Ho' as <- <-.
    apply volume_table_positive; auto. lia.
Qed.

(** The first cell of the small terrain, elevations 1, 2, 2, 3. *)
Lemma cum_volume_table_small_cell :
  exists r vt cum cum_last,
    build_row small_dem 0 (face_of 0 2 0 2) = Return r /\
    volume_table r = Some vt /\ cum_volume_table r = Some cum /\
    py_index cum (-1) = Some cum_last /\ (cum_last == qsum vt)%Q /\
    increasing cum.
Proof.
  destruct (build_row small_dem 0 (face_of 0 2 0 2)) as [r| | |] eqn:Hb;
    try (exfalso; vm_compute in Hb; discriminate).
  assert (He : exists edges, bin_edges r = Some edges).
  { vm_compute in Hb. injection Hb as <-. eexists. reflexivity. }
  destruct He as (edges & He).
  destruct (cum_volume_table_prefix_sums small_dem 0 (face_of 0 2 0 2) r edges Hb He)
    as (vt & cum & cl & Hvt & Hcum & _ & _ & _ & Hl & Hs & _ & Hinc).
  exists r, vt, cum, cl. repeat split; auto.
  apply Hinc.
  - exists 1%Q, 3%Q. vm_compute in Hb. injection Hb as <-.
    split; [|split].
    + vm_compute. auto.
    + vm_compute. auto 10.
    + intro H. discriminate H.
  - vm_compute. discriminate.
Defined.

(** *** Degenerate windows *)

Lemma face_extent_total (fc : list (Q * Q)) :
  fc <> [] -> exists ext, face_extent fc = Return ext /\ length ext = 4%nat.
Proof.
  intro H. destruct fc as [|p t]; [congruence|].
  unfold face_extent. simpl. eexists. split; reflexivity.
Qed.

Lemma build_row_total (d : dem) (i : nat) (fc : list (Q * Q)) (s : slice2) :
  face_slice d fc = Return s -> fc <> [] ->
  exists ext,
    face_extent fc = Return ext /\ length ext = 4%nat /\
    build_row d i fc =
    Return (mkRow i (Slice s) fc
              (t_volume_table (window_table d (band_window d s)))
              (t_cum_volume_table (window_table d (band_window d s)))
              (t_n_per_bin (window_table d (band_window d s)))
              ext
              (t_bin_edges (window_table d (band_window d s)))
              None None None []).
Proof.
  intros Hs Hf. destruct (face_extent_total fc Hf) as (ext & He & Hl).
  exists ext. split; [exact He|]. split; [exact Hl|].
  unfold build_row. rewrite Hs. simpl. rewrite He. reflexivity.
Qed.

Lemma qsum_zero (l : list Q) : Forall (fun x => x == 0)%Q l -> (qsum l == 0)%Q.
Proof.
  induction 1 as [|x t Hx Ht IH]; [reflexivity|].
  cbn [qsum fold_right]. fold (qsum t). rewrite Hx, IH. reflexivity.
Qed.

(** The fourth cell of the small terrain lies within one pixel column: its
    window is empty, and its table is not. *)
Lemma degenerate_window_has_table :
  exists r,
    build_row small_dem 3 (face_of 1 1 1 3) = Return r /\
    concat (row_window r small_dem) = [] /\
    bin_edges r <> None.
Proof.
  eexists. split; [vm_compute; reflexivity|].
  split; [reflexivity | discriminate].
Qed.

(** C9 (amended).  For a cell whose terrain window holds no pixel,
    [build_tables] does not raise and yields a row with a table, not an
    empty one: 21 bin edges from 0 to 1, and 20 zero counts, zero volumes
    and zero cumulative volumes. *)
Theorem degenerate_window_zero_table (d : dem) (i : nat) (fc : list (Q * Q)) (s : slice2) :
  face_slice d fc = Return s ->
  fc <> [] ->
  concat (band_window d s) = [] ->
  exists r vt cum,
    build_row d i fc = Return r /\
    bin_edges r = Some (linspace 0 1 20) /\
    n_per_bin r = Some (repeat 0 20) /\
    volume_table r = Some vt /\ cum_volume_table r = Some cum /\
    length vt = 20%nat /\ length cum = 20%nat /\
    Forall (fun x => x == 0)%Q vt /\ Forall (fun x => x == 0)%Q cum.
Proof.
  intros Hs Hf Hw.
  destruct (build_row_total d i fc s Hs Hf) as (ext & _ & _ & Hb).
  assert (Ht : window_table d (band_window d s) =
               let n_per_bin := counts_of 0 1 20 [] in
               let bin_edges := linspace 0 1 20 in
               let vt := volume_table_of d n_per_bin bin_edges in
               mkTable (Some n_per_bin) (Some bin_edges) (Some vt) (Some (cumsumQ vt))).
  { apply window_table_valid; [rewrite Hw; reflexivity | reflexivity]. }
  rewrite Ht in Hb. cbn zeta in Hb.
  cbn [t_bin_edges t_volume_table t_cum_volume_table t_n_per_bin] in Hb.
  set (vt := volume_table_of d (counts_of 0 1 20 []) (linspace 0 1 20)) in *.
  assert (Hlen : length vt = 20%nat) by (apply volume_table_length; lia).
  assert (Hzero : Forall (fun x => x == 0)%Q vt).
  { apply Forall_nth. intros k dflt Hk. rewrite Hlen in Hk.
    rewrite (nth_indep vt dflt 0%Q) by lia. cbv beta.
    unfold vt. rewrite volume_table_nth by lia.
    assert (E : nth k (cumsumZ (counts_of 0 1 20 [])) 0 = 0).
    { do 20 (destruct k as [|k]; [reflexivity|]). lia. }
    rewrite E. change (inject_Z 0) with 0%Q. ring. }
  exists (mkRow i (Slice s) fc (Some vt) (Some (cumsumQ vt))
                (Some (counts_of 0 1 20 [])) ext (Some (linspace 0 1 20))
                None None None []), vt, (cumsumQ vt).
  split; [exact Hb|]. split; [reflexivity|]. split; [reflexivity|].
  split; [reflexivity|]. split; [reflexivity|]. split; [exact Hlen|].
  split; [unfold cumsumQ; now rewrite cumsum_from_length|].
  split; [exact Hzero|].
  apply Forall_nth. intros k dflt Hk.
  unfold cumsumQ in *. rewrite cumsum_from_length, Hlen in Hk.
  rewrite (nth_indep _ dflt 0%Q) by (rewrite cumsum_from_length; lia). cbv beta.
  rewrite cumsum_from_prefix by lia.
  rewrite (qsum_zero _ (Forall_prefix _ (S k) vt Hzero)). ring.
Qed.

Lemma degenerate_window_small_cell :
  exists r vt cum,
    build_row small_dem 3 (face_of 1 1 1 3) = Return r /\
    bin_edges r = Some (linspace 0 1 20) /\
    n_per_bin r = Some (repeat 0 20) /\
    volume_table r = Some vt /\ cum_volume_table r = Some cum /\
    length vt = 20%nat /\ length cum = 20%nat /\
    Forall (fun x => x == 0)%Q vt /\ Forall (fun x => x == 0)%Q cum.
Proof.
  apply (degenerate_window_zero_table small_dem 3 (face_of 1 1 1 3) (mkSlice 1 3 1 1)).
  - reflexivity.
  - discriminate.
  - reflexivity.
Defined.

(* ------------------------------------------------------------------ *)
(** ** Compositor *)

(** The solver returns [None] exactly for the rows without a table. *)
Lemma subgrid_compute_none (r : row) (d : dem) (method : string) :
  subgrid_compute r d method = Return None <-> bin_edges r = None.
Proof.
  unfold subgrid_compute. destruct (bin_edges r) as [edges|].
  - split; [|discriminate].
    destruct (vol1 r) as [v|]; simpl; [|discriminate].
    destruct (target_level_of _ _ _ _ _ _) as [[t|]|e| |]; simpl; try discriminate;
      destruct (String.eqb method "waterlevel"); try discriminate;
      destruct (String.eqb method "waterdepth"); discriminate.
  - split; reflexivity.
Qed.

Lemma band_loop_app (d : dem) (method : string) (pre post : list row) :
  forall st,
  band_loop d method (pre ++ post) st =
  (st1 <- band_loop d method pre st ;; band_loop d method post st1).
Proof.
  induction pre as [|r pre IH]; intro st; simpl; [reflexivity|].
  destruct (band_step d method st r) as [st'|e| |]; simpl; auto.
Qed.

(** One iteration on a row without table: the cell is recorded and the
    band is not touched. *)
Lemma band_step_empty (d : dem) (method : string) (st : band_state) (r : row) :
  bin_edges r = None ->
  band_step d method st r = Return (fst st, snd st ++ [id_ r]).
Proof.
  intro H. unfold band_step, subgrid_compute. rewrite H. reflexivity.
Qed.

(** A completed iteration either records a row without table, or writes
    the window of a row with a table: with the result of the solver, or,
    when the level is inf or nan, with values that are not finite. *)
Lemma band_step_cases (d : dem) (method : string) (st st' : band_state) (r : row) :
  band_step d method st r = Return st' ->
  (bin_edges r = None /\ st' = (fst st, snd st ++ [id_ r])) \/
  (exists s value,
      bin_edges r <> None /\ slice r = Slice s /\
      st' = (band_assign (fst st) s value, snd st) /\
      ((exists res, subgrid_compute r d method = Return (Some res) /\
                    value = result_value res) \/
       (subgrid_compute r d method = NonFinite /\
        value = fun _ _ => NotFiniteValue))).
Proof.
  unfold band_step, band_write.
  destruct (subgrid_compute r d method) as [[res|]|e| |] eqn:Es; simpl; try discriminate.
  - destruct (slice r) as [s|]; [|discriminate].
    intro H. injection H as <-. right. exists s, (result_value res).
    split; [|split; [reflexivity|split; [reflexivity|left; eauto]]].
    intro E. apply (subgrid_compute_none r d method) in E. congruence.
  - intro H. injection H as <-. left.
    split; [apply (subgrid_compute_none r d method); exact Es | reflexivity].
  - destruct (slice r) as [s|]; [|discriminate].
    intro H. injection H as <-. right. exists s, (fun _ _ => NotFiniteValue).
    split; [|split; [reflexivity|split; [reflexivity|right; auto]]].
    intro E. apply (subgrid_compute_none r d method) in E. congruence.
Qed.

(** The excluded list only grows. *)
Lemma band_step_excluded (d : dem) (method : string) (st st' : band_state) (r : row) :
  band_step d method st r = Return st' -> incl (snd st) (snd st').
Proof.
  intro H.
  destruct (band_step_cases d method st st' r H) as [(_ & ->)|(s & value & _ & _ & -> & _)].
  - simpl. apply incl_appl, incl_refl.
  - apply incl_refl.
Qed.

Lemma band_loop_excluded (d : dem) (method : string) (rows : list row) :
  forall st st', band_loop d method rows st = Return st' -> incl (snd st) (snd st').
Proof.
  induction rows as [|r rows IH]; intros st st'; simpl.
  - intro H. injection H as <-. apply incl_refl.
  - destruct (band_step d method st r) as [st1|e| |] eqn:E; simpl; try discriminate.
    intro H. eapply incl_tran; [eapply band_step_excluded; eassumption | eauto].
Qed.

(** *** What the compositors change *)

Lemma same_table_refl (r : row) : same_table r r.
Proof. repeat split. Qed.

Lemma same_table_trans (r1 r2 r3 : row) :
  same_table r1 r2 -> same_table r2 r3 -> same_table r1 r3.
Proof.
  unfold same_table. intros H1 H2.
  decompose [and] H1. decompose [and] H2. repeat split; congruence.
Qed.

Lemma Forall2_same_table_refl (tables : list row) : Forall2 same_table tables tables.
Proof.
  induction tables; constructor; auto using same_table_refl.
Qed.

Lemma Forall2_same_table_trans (t1 t2 t3 : list row) :
  Forall2 same_table t1 t2 -> Forall2 same_table t2 t3 -> Forall2 same_table t1 t3.
Proof.
  intro H. revert t3. induction H as [|r1 r2 l1 l2 Hr Hl IH]; intros t3 H3.
  - inversion H3. constructor.
  - inversion H3; subst. constructor; eauto using same_table_trans.
Qed.

Lemma zip_with_same_table {V : Type} (set : row -> V -> row) :
  (forall r v, same_table r (set r v)) ->
  forall tables values, length values = length tables ->
  Forall2 same_table tables (zip_with set tables values).
Proof.
  intros Hset tables. induction tables as [|r t IH]; intros [|v vs] Hl;
    simpl in *; try discriminate; constructor; auto.
Qed.

Lemma assign_keeps_tables {V : Type} (set : row -> V -> row) (values : list V) :
  (forall r v, same_table r (set r v)) -> keeps_tables (assign set values).
Proof.
  intros Hset tables. unfold assign, set_column.
  destruct (Nat.eqb (length values) (length tables)) eqn:E; simpl.
  - apply Nat.eqb_eq in E. now apply zip_with_same_table.
  - apply Forall2_same_table_refl.
Qed.

Lemma read_keeps_tables {A : Type} (f : list row -> outcome A) : keeps_tables (read f).
Proof.
  intro tables. apply Forall2_same_table_refl.
Qed.

Lemma then_keeps_tables {A B : Type} (m : on_tables A) (k : A -> on_tables B) :
  keeps_tables m -> (forall a, keeps_tables (k a)) -> keeps_tables (then_ m k).
Proof.
  intros Hm Hk tables. unfold then_.
  specialize (Hm tables).
  destruct (m tables) as [tables' [a|e| |]]; simpl in *; auto.
  eapply Forall2_same_table_trans; [exact Hm | apply Hk].
Qed.

(** The compositors write into the caller's tables: after [compute_band]
    the column [vol1] of the scenario table holds the new volume, and
    after [compute_features] the columns [s1], [waterdepth] and
    [subgrid_waterlevel] exist. *)
Lemma compositors_mutate_tables :
  fst (compute_band (mkGrid []) scenario_dem (mkData [44%Q] [] []) "waterlevel"
                    [scenario_row 30])
  = [scenario_row 44] /\
  [scenario_row 44] <> [scenario_row 30] /\
  map s1 (fst (compute_features scenario_dem (mkData [44%Q] [2%Q] [1%Q]) "waterlevel"
                                [scenario_row 30]))
  = [Some 2%Q] /\
  map s1 [scenario_row 30] = [None].
Proof.
  split; [reflexivity|]. split; [discriminate|]. split; reflexivity.
Qed.

Lemma zip_with_nth_error {A B C : Type} (f : A -> B -> C) (l : list A) :
  forall m k,
  nth_error (zip_with f l m) k =
  match nth_error l k, nth_error m k with
  | Some a, Some b => Some (f a b)
  | _, _ => None
  end.
Proof.
  induction l as [|x t IH]; intros [|y m] [|k]; simpl; try reflexivity.
  - destruct (nth_error t k); reflexivity.
  - apply IH.
Qed.

Lemma map_outcome_nth {A B : Type} (f : A -> outcome B) (l : list A) :
  forall ys,
  map_outcome f l = Return ys ->
  length ys = length l /\
  forall k x, nth_error l k = Some x ->
              exists y, nth_error ys k = Some y /\ f x = Return y.
Proof.
  induction l as [|x0 t IH]; intros ys; simpl.
  - intro H. injection H as <-. split; [reflexivity|]. intros [|k] x; discriminate.
  - destruct (f x0) as [y0|e| |] eqn:E0; simpl; try discriminate.
    destruct (map_outcome f t) as [ys0|e| |] eqn:Et; simpl; try discriminate.
    intro H. injection H as <-.
    destruct (IH ys0 eq_refl) as (L & N).
    split; [simpl; congruence|].
    intros [|k] x Hx; simpl in *.
    + injection Hx as <-. eauto.
    + apply N, Hx.
Qed.

Lemma assign_return {V : Type} (set : row -> V -> row) (values : list V)
      (tables tables' : list row) (u : unit) :
  assign set values tables = (tables', Return u) ->
  length values = length tables /\ tables' = zip_with set tables values.
Proof.
  unfold assign, set_column.
  destruct (Nat.eqb (length values) (length tables)) eqn:E; [|discriminate].
  apply Nat.eqb_eq in E. intro H. injection H as <-. auto.
Qed.

(** C8 (amended).  [compute_band] and [compute_features] write into the
    tables the caller passes in.  [compute_band] assigns the column
    [vol1] when the volumes have the length of the tables, and otherwise
    leaves the tables as they are.  After a completed [compute_features]
    (lines 143-155) every row holds [vol1], [s1] and [waterdepth] from the
    observed data and, in the column ['subgrid_' + method], the result the
    solver returns for the row with these columns assigned; a column of
    that name is replaced.  Both keep every table field (id, slice, face,
    volume_table, cum_volume_table, n_per_bin, extent, bin_edges) of
    every row, whether they complete or raise. *)
Theorem compositors_keep_tables (g : grid) (d : dem) (dt : data) (method : string)
        (tables : list row) :
  fst (compute_band g d dt method tables)
  = (if Nat.eqb (length (d_vol1 dt)) (length tables)
     then zip_with set_vol1 tables (d_vol1 dt) else tables) /\
  Forall2 same_table tables (fst (compute_band g d dt method tables)) /\
  Forall2 same_table tables (fst (compute_features d dt method tables)) /\
  (forall tables' results,
      compute_features d dt method tables = (tables', Return results) ->
      length tables' = length tables /\
      forall k r,
        nth_error tables k = Some r ->
        exists v s w res,
          nth_error (d_vol1 dt) k = Some v /\
          nth_error (d_s1 dt) k = Some s /\
          nth_error (d_waterdepth dt) k = Some w /\
          nth_error results k = Some res /\
          returned (subgrid_compute (set_waterdepth (set_s1 (set_vol1 r v) s) w) d method)
          = Return res /\
          nth_error tables' k
          = Some (set_subgrid method (set_waterdepth (set_s1 (set_vol1 r v) s) w) res)).
Proof.
  split; [|split; [|split]].
  - unfold compute_band, then_, assign, read, set_column.
    destruct (Nat.eqb (length (d_vol1 dt)) (length tables)); reflexivity.
  - apply then_keeps_tables.
    + apply assign_keeps_tables. intros r v. repeat split.
    + intro a. apply read_keeps_tables.
  - unfold compute_features.
    repeat (apply then_keeps_tables;
            [first [apply assign_keeps_tables; intros r v; repeat split
                   | apply read_keeps_tables] | intro]).
    apply read_keeps_tables.
  - intros tables' results. unfold compute_features, then_, read.
    destruct (assign set_vol1 (d_vol1 dt) tables) as [t1 [u1|e| |]] eqn:A1;
      try discriminate.
    destruct (assign set_s1 (d_s1 dt) t1) as [t2 [u2|e| |]] eqn:A2; try discriminate.
    destruct (assign set_waterdepth (d_waterdepth dt) t2) as [t3 [u3|e| |]] eqn:A3;
      try discriminate.
    destruct (map_outcome (fun r => returned (subgrid_compute r d method)) t3)
      as [rs|e| |] eqn:M; try discriminate.
    destruct (assign (set_subgrid method) rs t3) as [t4 [u4|e| |]] eqn:A4;
      try discriminate.
    intro H. injection H as <- <-.
    destruct (assign_return _ _ _ _ _ A1) as (L1 & ->).
    destruct (assign_return _ _ _ _ _ A2) as (L2 & ->).
    destruct (assign_return _ _ _ _ _ A3) as (L3 & ->).
    destruct (assign_return _ _ _ _ _ A4) as (L4 & ->).
    destruct (map_outcome_nth _ _ _ M) as (Lr & Nr).
    rewrite !zip_with_length in *.
    split; [lia|].
    intros k r Hr.
    assert (Hk : (k < length tables)%nat) by (apply nth_error_Some; congruence).
    destruct (nth_error (d_vol1 dt) k) as [v|] eqn:Ev;
      [|apply nth_error_None in Ev; lia].
    destruct (nth_error (d_s1 dt) k) as [sv|] eqn:Es;
      [|apply nth_error_None in Es; lia].
    destruct (nth_error (d_waterdepth dt) k) as [w|] eqn:Ew;
      [|apply nth_error_None in Ew; lia].
    assert (H3 : nth_error (zip_with set_waterdepth
                              (zip_with set_s1 (zip_with set_vol1 tables (d_vol1 dt))
                                        (d_s1 dt)) (d_waterdepth dt)) k
                 = Some (set_waterdepth (set_s1 (set_vol1 r v) sv) w)).
    { rewrite !zip_with_nth_error, Hr, Ev, Es, Ew. reflexivity. }
    destruct (Nr k _ H3) as (res & Hres & Hsolve).
    exists v, sv, w, res. do 4 (split; [reflexivity || assumption|]).
    split; [exact Hsolve|].
    rewrite zip_with_nth_error, H3, Hres. reflexivity.
Qed.

(** The scenario table with the observed values 44, 2 and 1: the call
    completes, the row holds the three values, and the column
    [subgrid_waterlevel] holds the level solved for the volume 44. *)
Lemma compositors_scenario_columns :
  exists r' level,
    compute_features scenario_dem (mkData [44%Q] [2%Q] [1%Q]) "waterlevel"
                     [scenario_row 30]
    = ([r'], Return [Result (Waterlevel level)]) /\
    vol1 r' = Some 44%Q /\ s1 r' = Some 2%Q /\ waterdepth r' = Some 1%Q /\
    subgrid r' = [("waterlevel"%string, Result (Waterlevel level))] /\
    (level == 59 # 20)%Q /\
    same_table (scenario_row 30) r'.
Proof.
  destruct (compute_features scenario_dem (mkData [44%Q] [2%Q] [1%Q]) "waterlevel"
                             [scenario_row 30]) as [tables' [results|e| |]] eqn:Hc;
    try (exfalso; vm_compute in Hc; discriminate).
  destruct (compositors_keep_tables (mkGrid []) scenario_dem (mkData [44%Q] [2%Q] [1%Q])
              "waterlevel" [scenario_row 30]) as (_ & _ & _ & H).
  destruct (H tables' results Hc) as (L & N).
  destruct (N 0%nat (scenario_row 30) eq_refl)
    as (v & sv & w & res & Hv & Hs & Hw & Hres & Hsolve & Hrow).
  injection Hv as <-. injection Hs as <-. injection Hw as <-.
  vm_compute in Hsolve. injection Hsolve as <-.
  destruct tables' as [|r' [|r1 t]]; try discriminate L.
  simpl in Hrow. injection Hrow as ->.
  vm_compute in Hc. injection Hc as <-.
  eexists. eexists. split; [reflexivity|].
  repeat (split; [reflexivity|]). reflexivity.
Defined.

(* ------------------------------------------------------------------ *)
(** ** Table store *)

Lemma replace_nth_length {A : Type} (x : A) (l : list A) :
  forall i, length (replace_nth i x l) = length l.
Proof.
  induction l as [|y t IH]; intros [|i]; simpl; auto.
Qed.

Lemma replace_nth_same {A : Type} (x dflt : A) (l : list A) :
  forall i, (i < length l)%nat -> nth i (replace_nth i x l) dflt = x.
Proof.
  induction l as [|y t IH]; intros [|i] H; simpl in *; try lia; auto.
  apply IH. lia.
Qed.

Lemma replace_nth_other {A : Type} (x dflt : A) (l : list A) :
  forall i j, i <> j -> nth j (replace_nth i x l) dflt = nth j l dflt.
Proof.
  induction l as [|y t IH]; intros [|i] [|j] H; simpl; try congruence; auto.
Qed.

Lemma nc_assign_opt_spec {A : Type} (dim : nat) (var : list (nc_row A)) (i : nat)
      (val : option (list A)) :
  fits dim val -> (i < length var)%nat ->
  exists var',
    nc_assign_opt dim var i val = Return var' /\
    length var' = length var /\
    nth i var' Fill = stored val (nth i var Fill) /\
    (forall j, i <> j -> nth j var' Fill = nth j var Fill).
Proof.
  intros Hf Hi. destruct val as [v|]; simpl in *.
  - unfold nc_assign.
    replace (i <? length var)%nat with true by (symmetry; apply Nat.ltb_lt; exact Hi).
    rewrite Hf, Nat.eqb_refl.
    eexists. split; [reflexivity|]. split; [apply replace_nth_length|].
    split; [apply replace_nth_same; exact Hi|].
    intros j Hj. now apply replace_nth_other.
  - exists var. auto.
Qed.

Lemma pad_within {A : Type} (n : nat) (var : list (nc_row A)) :
  (n <= length var)%nat -> pad n var = var.
Proof.
  intro H. unfold pad. replace (n - length var)%nat with O by lia.
  apply app_nil_r.
Qed.

Lemma nth_pad {A : Type} (n j : nat) (var : list (nc_row A)) :
  nth j (pad n var) Fill = nth j var Fill.
Proof.
  unfold pad. destruct (Nat.lt_ge_cases j (length var)) as [H|H].
  - apply app_nth1. exact H.
  - rewrite app_nth2 by exact H. rewrite (nth_overflow var) by exact H.
    apply nth_repeat.
Qed.

Lemma length_pad {A : Type} (n : nat) (var : list (nc_row A)) :
  length (pad n var) = Nat.max n (length var).
Proof.
  unfold pad. rewrite length_app, repeat_length. lia.
Qed.

(** A cell the container holds needs no room. *)
Lemma reserve_within (n bins : nat) (ds : dataset) (i : nat) :
  container n bins ds -> (i < n)%nat -> reserve ds i = ds.
Proof.
  intros (_ & L1 & L2 & L3 & L4 & L5 & L6) Hi. unfold reserve.
  destruct (cells_unlimited ds); [|reflexivity].
  rewrite !pad_within by lia. destruct ds; reflexivity.
Qed.

(** Making room changes nothing that is read back. *)
Lemma import_row_reserve (ds : dataset) (i j : nat) :
  import_row (reserve ds i) j = import_row ds j.
Proof.
  unfold reserve. destruct (cells_unlimited ds); [|reflexivity].
  unfold import_row. cbn. rewrite !nth_pad. reflexivity.
Qed.

Lemma export_row_spec (n bins : nat) (ds : dataset) (r : row) :
  container n bins ds -> exportable bins r -> (id_ r < n)%nat ->
  exists ds',
    export_row ds r = Return ds' /\ container n bins ds' /\
    import_row ds' (id_ r) = as_imported r (import_row ds (id_ r)) /\
    (forall j, id_ r <> j -> import_row ds' j = import_row ds j).
Proof.
  intros Hc ((s & Hs) & He & F1 & F2 & F3 & F4) Hi.
  unfold export_row. rewrite (reserve_within n bins ds (id_ r) Hc Hi).
  destruct Hc as (Hb & L1 & L2 & L3 & L4 & L5 & L6).
  unfold write_row, dim_bin_edges, two_times_two. rewrite Hb.
  destruct (nc_assign_opt_spec (bins + 1) (var_bin_edges ds) (id_ r) (bin_edges r) F1)
    as (be & -> & Lbe & Sbe & Obe); [lia|].
  destruct (nc_assign_opt_spec bins (var_cum_volume_table ds) (id_ r) (cum_volume_table r) F2)
    as (cv & -> & Lcv & Scv & Ocv); [lia|].
  destruct (nc_assign_opt_spec bins (var_volume_table ds) (id_ r) (volume_table r) F3)
    as (vt & -> & Lvt & Svt & Ovt); [lia|].
  destruct (nc_assign_opt_spec 4 (var_extent ds) (id_ r) (Some (extent r)) He)
    as (ex & Eex & Lex & Sex & Oex); [lia|].
  destruct (nc_assign_opt_spec bins (var_n_per_bin ds) (id_ r) (n_per_bin r) F4)
    as (np & -> & Lnp & Snp & Onp); [lia|].
  destruct (nc_assign_opt_spec 4 (var_slice ds) (id_ r)
              (Some [row_start s; row_stop s; col_start s; col_stop s]) eq_refl)
    as (sl & Esl & Lsl & Ssl & Osl); [lia|].
  simpl in Eex, Esl. cbn [bind]. rewrite Eex. cbn [bind]. rewrite Hs, Esl. cbn [bind].
  eexists. split; [reflexivity|]. split; [|split].
  - unfold container. cbn. repeat split; congruence.
  - unfold import_row, as_imported. rewrite Hs. cbn.
    rewrite Sbe, Scv, Svt, Sex, Snp, Ssl. reflexivity.
  - intros j Hj. unfold import_row. cbn.
    rewrite Obe, Ocv, Ovt, Oex, Onp, Osl by exact Hj. reflexivity.
Qed.

Lemma export_tables_spec (n bins : nat) (rows : list row) :
  forall ds,
  container n bins ds ->
  Forall (exportable bins) rows ->
  NoDup (map id_ rows) ->
  (forall r, In r rows -> (id_ r < n)%nat) ->
  exists ds',
    export_tables ds rows = Return ds' /\ container n bins ds' /\
    (forall r, In r rows ->
               import_row ds' (id_ r) = as_imported r (import_row ds (id_ r))) /\
    (forall j, ~ In j (map id_ rows) -> import_row ds' j = import_row ds j).
Proof.
  induction rows as [|r rest IH]; intros ds Hc Hex Hnd Hid.
  - exists ds. split; [reflexivity|]. split; [exact Hc|].
    split; [intros r [] | reflexivity].
  - inversion Hex as [|? ? Hr Hrest]; subst.
    inversion Hnd as [|? ? Hnotin Hnd']; subst.
    destruct (export_row_spec n bins ds r Hc Hr (Hid r (or_introl eq_refl)))
      as (ds1 & E1 & Hc1 & Hsame & Hother).
    destruct (IH ds1 Hc1 Hrest Hnd' (fun r' H => Hid r' (or_intror H)))
      as (ds' & E' & Hc' & Hin & Hout).
    exists ds'. split; [simpl; rewrite E1; exact E'|]. split; [exact Hc'|]. split.
    + intros r' [<-|Hr'].
      * rewrite (Hout (id_ r) Hnotin). exact Hsame.
      * rewrite (Hin r' Hr'). f_equal. apply Hother.
        intro E. apply Hnotin. rewrite E. now apply in_map.
    + intros j Hj. simpl in Hj.
      rewrite Hout by tauto. apply Hother. tauto.
Qed.

Lemma create_export_container (n bins : nat) : container n bins (create_export n bins).
Proof.
  unfold container, create_export. cbn. rewrite !repeat_length. auto 10.
Qed.

Lemma import_row_fresh (n bins j : nat) :
  import_row (create_export n bins) j = mkImported j Fill Fill Fill Fill Fill None None None None.
Proof.
  unfold import_row, create_export. cbn. rewrite !nth_repeat. reflexivity.
Qed.

Lemma face_extent_length (fc : list (Q * Q)) (ext : list Q) :
  face_extent fc = Return ext -> length ext = 4%nat.
Proof.
  destruct fc as [|p t]; [discriminate|].
  unfold face_extent. simpl. intro H. injection H as <-. reflexivity.
Qed.

(** The tables of the builder have 21 bin edges and 20 bins. *)
Lemma window_table_fits (d : dem) (dem_i : list (list pixel)) :
  fits 21 (t_bin_edges (window_table d dem_i)) /\
  fits 20 (t_cum_volume_table (window_table d dem_i)) /\
  fits 20 (t_volume_table (window_table d dem_i)) /\
  fits 20 (t_n_per_bin (window_table d dem_i)).
Proof.
  destruct (unmask (concat dem_i)) as [values|] eqn:Hu.
  - destruct (outer_edges values) as [first last] eqn:Ho.
    rewrite (window_table_valid d dem_i values first last Hu Ho). cbv zeta.
    cbn [t_bin_edges t_cum_volume_table t_volume_table t_n_per_bin fits].
    split; [apply linspace_length|].
    split; [unfold cumsumQ; rewrite cumsum_from_length; apply volume_table_length; lia|].
    split; [apply volume_table_length; lia | apply counts_of_length].
  - unfold window_table. rewrite Hu. cbn. auto.
Qed.

Lemma build_row_exportable (d : dem) (i : nat) (fc : list (Q * Q)) (r : row) :
  build_row d i fc = Return r -> id_ r = i /\ exportable 20 r.
Proof.
  intro Hb. destruct (build_row_inv d i fc r Hb) as (s & ext & _ & He & ->).
  split; [reflexivity|].
  destruct (window_table_fits d (band_window d s)) as (F1 & F2 & F3 & F4).
  unfold exportable. cbn.
  split; [eauto|]. split; [eapply face_extent_length; eassumption|]. auto.
Qed.

Lemma build_rows_spec (d : dem) (faces : list (list (Q * Q))) :
  forall start rows,
  build_rows d start faces = Return rows ->
  map id_ rows = seq start (length faces) /\ Forall (exportable 20) rows.
Proof.
  induction faces as [|fc rest IH]; intros start rows; simpl.
  - intro H. injection H as <-. split; [reflexivity | constructor].
  - destruct (build_row d start fc) as [r|e| |] eqn:Er; simpl; try discriminate.
    destruct (build_rows d (S start) rest) as [rs|e| |] eqn:Ers; simpl; try discriminate.
    intro H. injection H as <-.
    destruct (build_row_exportable d start fc r Er) as (Hid & Hex).
    destruct (IH (S start) rs Ers) as (Hids & Hexs).
    split; [simpl; congruence | constructor; assumption].
Qed.

Lemma build_tables_inv (g : grid) (d : dem) (tables : list row) :
  build_tables g d = Return tables ->
  build_rows d 0 (face_coordinates g) = Return tables /\ tables <> [].
Proof.
  unfold build_tables.
  destruct (build_rows d 0 (face_coordinates g)) as [[|r rows]|e| |]; simpl;
    try discriminate.
  intro H. injection H as <-. split; [reflexivity | discriminate].
Qed.

(** C4.  Writing the tables of [build_tables] into a fresh container with
    one cell per row and 20 bins succeeds, and reading it back gives one
    row per cell, in order, with the same index, the same extent and the
    window as its four integers (row start, row stop, column start,
    column stop); [bin_edges], [cum_volume_table], [volume_table] and
    [n_per_bin] come back as written for a row with a table, and as
    never-written (fill-valued, masked) rows for an empty table. *)
Theorem export_import_roundtrip (g : grid) (d : dem) (tables : list row) :
  build_tables g d = Return tables ->
  exists ds,
    export_tables (create_export (length tables) 20) tables = Return ds /\
    length (import_tables ds) = length tables /\
    forall i r,
      nth_error tables i = Some r ->
      exists ir s,
        nth_error (import_tables ds) i = Some ir /\
        i_index ir = id_ r /\
        slice r = Slice s /\
        i_slice_0 ir = Some (row_start s) /\ i_slice_1 ir = Some (row_stop s) /\
        i_slice_2 ir = Some (col_start s) /\ i_slice_3 ir = Some (col_stop s) /\
        i_extent ir = Data (extent r) /\
        i_bin_edges ir = stored (bin_edges r) Fill /\
        i_cum_volume_table ir = stored (cum_volume_table r) Fill /\
        i_volume_table ir = stored (volume_table r) Fill /\
        i_n_per_bin ir = stored (n_per_bin r) Fill.
Proof.
  intro Hb. apply build_tables_inv in Hb. destruct Hb as (Hb & _).
  destruct (build_rows_spec d (face_coordinates g) 0 tables Hb) as (Hids & Hex).
  assert (Hlen : length tables = length (face_coordinates g)).
  { rewrite <- (length_map id_ tables), Hids. apply length_seq. }
  rewrite <- Hlen in Hids.
  set (n := length tables) in *.
  destruct (export_tables_spec n 20 tables (create_export n 20))
    as (ds & E & (_ & L1 & _) & Hin & _).
  - apply create_export_container.
  - exact Hex.
  - rewrite Hids. apply seq_NoDup.
  - intros r Hr. apply (in_map id_) in Hr. rewrite Hids in Hr.
    apply in_seq in Hr. lia.
  - exists ds. split; [exact E|].
    assert (Hilen : length (import_tables ds) = n).
    { unfold import_tables. now rewrite length_map, length_seq. }
    split; [exact Hilen|].
    intros i r Hr.
    assert (Hi : (i < n)%nat) by (apply nth_error_Some; congruence).
    assert (Hid : id_ r = i).
    { pose proof (map_nth_error id_ i tables Hr) as Hm.
      rewrite Hids in Hm.
      rewrite (nth_error_nth' _ O) in Hm by (rewrite length_seq; exact Hi).
      rewrite seq_nth in Hm by exact Hi. simpl in Hm. congruence. }
    assert (Hsl : exists s, slice r = Slice s).
    { rewrite Forall_forall in Hex. apply (Hex r). eapply nth_error_In; eassumption. }
    destruct Hsl as (s & Hs).
    exists (import_row ds i), s.
    split.
    { unfold import_tables. rewrite L1.
      rewrite (nth_error_nth' _ (import_row ds O)) by (rewrite length_map, length_seq; exact Hi).
      rewrite (map_nth (import_row ds) (seq 0 n) O i), seq_nth by exact Hi.
      reflexivity. }
    rewrite <- Hid at 1 2 3 4 5 6 7 8 9 10.
    rewrite (Hin r (nth_error_In _ _ Hr)), import_row_fresh.
    unfold as_imported. rewrite Hs. cbn. repeat split; reflexivity.
Qed.

(** The window of the first cell of the small terrain is stored as the
    integers 0, 2, 1, 3 (rows 0-2, columns 1-3).  The solver reads an
    imported row as [band[slice_0:slice_2, slice_1:slice_3]], which is
    rows 0-1 and columns 2-3: another window than the one the table was
    built from. *)
Remark imported_window_mixes_bounds :
  exists r ds ir sr,
    build_row small_dem 0 (face_of 1 3 0 2) = Return r /\
    export_tables (create_export 1 20) [r] = Return ds /\
    nth_error (import_tables ds) 0 = Some ir /\
    solver_row ir 1 = Some sr /\
    row_window r small_dem = [[Some 2; Some 3]; [Some 3; Some 5]]%Q /\
    row_window sr small_dem = [[Some 3]]%Q.
Proof.
  eexists. eexists. eexists. eexists.
  split; [vm_compute; reflexivity|].
  split; [vm_compute; reflexivity|].
  split; [vm_compute; reflexivity|].
  split; [vm_compute; reflexivity|].
  split; vm_compute; reflexivity.
Qed.

Lemma export_import_small_terrain :
  exists tables ds ir,
    build_tables small_grid small_dem = Return tables /\
    export_tables (create_export (length tables) 20) tables = Return ds /\
    length (import_tables ds) = 3%nat /\
    nth_error (import_tables ds) 1 = Some ir /\
    i_bin_edges ir = Fill /\ i_volume_table ir = Fill /\
    i_extent ir = Data [2; 4; 0; 2]%Q /\
    i_slice_0 ir = Some 0 /\ i_slice_1 ir = Some 2 /\
    i_slice_2 ir = Some 2 /\ i_slice_3 ir = Some 4.
Proof.
  destruct (build_tables small_grid small_dem) as [tables|e| |] eqn:Hb;
    try (exfalso; vm_compute in Hb; discriminate).
  destruct (export_import_roundtrip small_grid small_dem tables Hb) as (ds & E & L & H).
  vm_compute in Hb. injection Hb as <-.
  destruct (H 1%nat _ eq_refl)
    as (ir & s & Hir & _ & Hs & S0 & S1 & S2 & S3 & Hex & Hbe & _ & Hvt & _).
  injection Hs as <-.
  eexists. exists ds, ir. split; [reflexivity|]. split; [exact E|]. split; [exact L|].
  split; [exact Hir|]. cbn in *. auto 10.
Defined.

(* ------------------------------------------------------------------ *)
(** ** Monotonicity of the solved level *)

(** The scenario table: observed volume 44 solves to 2.95 and the larger
    volume 50 to 0. *)
Lemma level_drops_in_last_bin :
  (44 <= 50)%Q /\
  returns_level (subgrid_compute (scenario_row 44) scenario_dem "waterlevel") (59 # 20) /\
  returns_level (subgrid_compute (scenario_row 50) scenario_dem "waterlevel") 0 /\
  ~ (59 # 20 <= 0)%Q.
Proof.
  split; [discriminate|]. split; [vm_compute; reflexivity|].
  split; [vm_compute; reflexivity|]. intro H. apply H. reflexivity.
Qed.

Lemma Qdiv_le_mono (a b c : Q) : (0 < c -> a <= b -> a / c <= b / c)%Q.
Proof.
  intros Hc Hab. unfold Qdiv. apply Qmult_le_compat_r; [exact Hab|].
  apply Qlt_le_weak, Qinv_lt_0_compat, Hc.
Qed.

(** C3 (amended).  For a fixed table, the level does not decrease with
    the observed volume as long as the volumes bisect to the same index
    [k] of the cumulative volumes: on the flat branch when the window
    area is positive, on the interpolation branch when bin [k] has a
    positive volume and [bin_edges[k] <= bin_edges[k+1]].  The solver
    returns a waterlevel for both volumes. *)
Theorem level_monotone_same_index (r : row) (d : dem) (edges vt cum : list Q)
        (v1 v2 : Q) (k : nat) :
  bin_edges r = Some edges ->
  volume_table r = Some vt ->
  cum_volume_table r = Some cum ->
  cum <> [] ->
  bisect cum v1 = Some k ->
  bisect cum v2 = Some k ->
  (v1 <= v2)%Q ->
  (if flat_branch cum k
   then edges <> [] /\ (0 < face_area (row_window r d) d)%Q
   else (k < length vt)%nat /\ (S k < length edges)%nat /\
        (0 < nth k vt 0)%Q /\ (nth k edges 0 <= nth (S k) edges 0)%Q) ->
  exists l1 l2,
    subgrid_compute (set_vol1 r v1) d "waterlevel" = Return (Some (Waterlevel l1)) /\
    subgrid_compute (set_vol1 r v2) d "waterlevel" = Return (Some (Waterlevel l2)) /\
    (l1 <= l2)%Q.
Proof.
  intros He Hvt Hc Hne Hk1 Hk2 Hv Hbranch.
  assert (Hsolve : forall v l,
             target_level_of edges (Some vt) (Some cum) (row_window r d) d v
             = Return (Some l) ->
             subgrid_compute (set_vol1 r v) d "waterlevel" = Return (Some (Waterlevel l))).
  { intros v l Ht.
    apply (subgrid_compute_waterlevel (set_vol1 r v) d edges v l He eq_refl).
    change (volume_table (set_vol1 r v)) with (volume_table r).
    change (cum_volume_table (set_vol1 r v)) with (cum_volume_table r).
    change (row_window (set_vol1 r v) d) with (row_window r d).
    rewrite Hvt, Hc. exact Ht. }
  pose proof (py_index_minus1 cum 0%Q Hne) as Hlast.
  destruct (flat_branch cum k) eqn:Hf.
  - destruct Hbranch as (Hee & Harea).
    pose proof (py_index_minus1 edges 0%Q Hee) as Helast.
    assert (Hnz : ~ (face_area (row_window r d) d == 0)%Q) by lra.
    pose proof (target_level_flat edges cum (Some vt) (row_window r d) d v1 k _ _
                  Hk1 Hf Hlast Helast) as T1.
    pose proof (target_level_flat edges cum (Some vt) (row_window r d) d v2 k _ _
                  Hk2 Hf Hlast Helast) as T2.
    rewrite fdiv_nonzero in T1, T2 by exact Hnz. simpl in T1, T2.
    eexists. eexists. split; [apply Hsolve, T1|]. split; [apply Hsolve, T2|].
    pose proof (Qdiv_le_mono (v1 - nth (length cum - 1) cum 0)
                  (v2 - nth (length cum - 1) cum 0)
                  (face_area (row_window r d) d) Harea ltac:(lra))%Q as H.
    lra.
  - destruct Hbranch as (Lvt & Le & Hpos & Hw).
    assert (Hp : exists cp, py_index cum (Z.of_nat k - 1) = Some cp).
    { rewrite py_index_pred. destruct k as [|k']; [eauto|].
      destruct (bisect_total cum v1) as (k0 & Hk0 & Hb).
      rewrite Hk1 in Hk0. injection Hk0 as <-.
      exists (nth k' cum 0%Q). apply nth_error_nth'. lia. }
    destruct Hp as (cp & Hp).
    assert (Hnz : ~ (nth k vt 0 == 0)%Q) by lra.
    assert (Le0 : (k < length edges)%nat) by lia.
    pose proof (target_level_interpolated edges cum vt (row_window r d) d v1 k cp
                  (nth k vt 0%Q) (nth k edges 0%Q) (nth (S k) edges 0%Q) Hk1 Hf Hp
                  (nth_error_nth' vt 0%Q Lvt)
                  (nth_error_nth' edges 0%Q Le0)
                  (nth_error_nth' edges 0%Q Le)) as T1.
    pose proof (target_level_interpolated edges cum vt (row_window r d) d v2 k cp
                  (nth k vt 0%Q) (nth k edges 0%Q) (nth (S k) edges 0%Q) Hk2 Hf Hp
                  (nth_error_nth' vt 0%Q Lvt)
                  (nth_error_nth' edges 0%Q Le0)
                  (nth_error_nth' edges 0%Q Le)) as T2.
    rewrite fdiv_nonzero in T1, T2 by exact Hnz. simpl in T1, T2.
    eexists. eexists. split; [apply Hsolve, T1|]. split; [apply Hsolve, T2|].
    pose proof (Qdiv_le_mono (v1 - cp) (v2 - cp) (nth k vt 0) Hpos ltac:(lra))%Q as H.
    set (f1 := ((v1 - cp) / nth k vt 0)%Q) in *.
    set (f2 := ((v2 - cp) / nth k vt 0)%Q) in *.
    nra.
Qed.

(** The scenario table at the observed volumes 26 and 44, both in bin 2:
    the levels are 2.05 and 2.95. *)
Lemma level_monotone_scenario_bin_2 :
  exists l1 l2,
    subgrid_compute (set_vol1 (scenario_row 0) 26) scenario_dem "waterlevel"
    = Return (Some (Waterlevel l1)) /\
    subgrid_compute (set_vol1 (scenario_row 0) 44) scenario_dem "waterlevel"
    = Return (Some (Waterlevel l2)) /\
    (l1 <= l2)%Q /\ (l1 == 41 # 20)%Q /\ (l2 == 59 # 20)%Q.
Proof.
  destruct (level_monotone_same_index (scenario_row 0) scenario_dem
              [0; 1; 2; 3; 4]%Q [10; 15; 20; 25]%Q [10; 25; 45; 70]%Q 26 44 2
              eq_refl eq_refl eq_refl)
    as (l1 & l2 & H1 & H2 & Hle).
  - discriminate.
  - reflexivity.
  - reflexivity.
  - discriminate.
  - cbn. split; [lia|]. split; [lia|]. split; [reflexivity | discriminate].
  - exists l1, l2. split; [exact H1|]. split; [exact H2|]. split; [exact Hle|].
    vm_compute in H1. injection H1 as <-. vm_compute in H2. injection H2 as <-.
    split; reflexivity.
Defined.

Section Monotone.

Local Open Scope Q_scope.

Variables edges vt : list Q.
Variable n : nat.
Variable dem_i : list (list pixel).
Variable d : dem.

Let cum := cumsumQ vt.
Let area := face_area dem_i d.

(** A table whose last bin holds the whole window: bin edges and
    cumulative volumes are sorted, and the volume of the last bin is the
    window area times the width of that bin. *)
Hypothesis bins : (1 <= n)%nat.
Hypothesis edges_length : length edges = S n.
Hypothesis vt_length : length vt = n.
Hypothesis vt_nonneg : forall k, (k < n)%nat -> 0 <= nth k vt 0.
Hypothesis edges_sorted : forall k, (k < n)%nat -> nth k edges 0 <= nth (S k) edges 0.
Hypothesis area_positive : 0 < area.
Hypothesis last_bin_full :
  nth (n - 1) vt 0 == area * (nth n edges 0 - nth (n - 1) edges 0).

Lemma cum_length : length cum = n.
Proof. unfold cum, cumsumQ. now rewrite cumsum_from_length. Qed.

Lemma cum_sorted : nondecreasing cum.
Proof.
    apply cumsum_nondecreasing. intros k Hk. apply vt_nonneg. now rewrite <- vt_length.
Qed.

Lemma cum_step (k : nat) :
  (S k < n)%nat -> nth (S k) cum 0 == nth k cum 0 + nth (S k) vt 0.
Proof.
    intro Hk. unfold cum, cumsumQ. apply cumsum_from_step. now rewrite vt_length.
Qed.

Lemma cum_first : nth 0 cum 0 == nth 0 vt 0.
Proof.
    unfold cum, cumsumQ. rewrite cumsum_from_prefix by (rewrite vt_length; lia).
    destruct vt as [|x t]; cbn [firstn qsum fold_right nth]; ring.
Qed.

Lemma edges_monotone (i j : nat) :
  (i <= j)%nat -> (j <= n)%nat -> nth i edges 0 <= nth j edges 0.
Proof.
    intros Hij Hj. induction Hij as [|j Hij IH]; [apply Qle_refl|].
    eapply Qle_trans; [apply IH; lia | apply edges_sorted; lia].
Qed.

Lemma cum_last_index : py_index cum (-1) = Some (nth (n - 1) cum 0).
Proof.
    rewrite (py_index_minus1 cum 0), cum_length; [reflexivity|].
    intro E. pose proof cum_length as L. rewrite E in L. simpl in L. lia.
Qed.

Lemma edges_last_index : py_index edges (-1) = Some (nth n edges 0).
Proof.
    rewrite (py_index_minus1 edges 0), edges_length.
    - now rewrite Nat.sub_succ, Nat.sub_0_r.
    - intro E. rewrite E in edges_length. discriminate.
Qed.

(** For a non-negative volume the solver returns a level, given by one
    of the three cases. *)
Lemma solve_cases (v : Q) :
  0 <= v ->
  exists k l,
    splits cum v k /\
    target_level_of edges (Some vt) (Some cum) dem_i d v = Return (Some l) /\
    level_case edges vt cum n area k v l.
Proof.
    intro Hv.
    destruct (bisect_splits cum v cum_sorted) as (k & Hk & Hsp).
    pose proof Hsp as (Hle & Hbefore & Hafter).
    rewrite cum_length in Hle, Hafter.
    exists k.
    destruct (flat_branch cum k) eqn:Hf.
    - apply flat_branch_true in Hf. rewrite cum_length in Hf.
      eexists. split; [exact Hsp|]. split.
      + rewrite (target_level_flat edges cum (Some vt) dem_i d v k _ _ Hk
                   ltac:(apply flat_branch_true; rewrite cum_length; exact Hf)
                   cum_last_index edges_last_index).
        rewrite fdiv_nonzero by (fold area; lra). reflexivity.
      + left. split; [exact Hf|]. reflexivity.
    - pose proof Hf as Hf'. apply flat_branch_false in Hf'. rewrite cum_length in Hf'.
      destruct k as [|k'].
      + assert (Hpos : 0 < nth 0 vt 0).
        { pose proof (Hafter O ltac:(lia) ltac:(lia)) as H. rewrite cum_first in H. lra. }
        eexists. split; [exact Hsp|]. split.
        * rewrite (target_level_interpolated edges cum vt dem_i d v O
                     (nth (n - 1) cum 0) (nth 0 vt 0) (nth 0 edges 0) (nth 1 edges 0)
                     Hk Hf cum_last_index).
          -- rewrite fdiv_nonzero by lra. reflexivity.
          -- apply nth_error_nth'. lia.
          -- apply nth_error_nth'. lia.
          -- apply nth_error_nth'. lia.
        * right. right. split; [reflexivity|]. split; [lia|]. split; [exact Hpos|].
          reflexivity.
      + assert (Hpos : 0 < nth (S k') vt 0).
        { pose proof (Hafter (S k') ltac:(lia) ltac:(lia)) as H.
          pose proof (Hbefore k' ltac:(lia)) as H'.
          rewrite cum_step in H by lia. lra. }
        eexists. split; [exact Hsp|]. split.
        * rewrite (target_level_interpolated edges cum vt dem_i d v (S k')
                     (nth k' cum 0) (nth (S k') vt 0) (nth (S k') edges 0)
                     (nth (S (S k')) edges 0) Hk Hf).
          -- rewrite fdiv_nonzero by lra. reflexivity.
          -- rewrite py_index_pred. apply nth_error_nth'. rewrite cum_length. lia.
          -- apply nth_error_nth'. lia.
          -- apply nth_error_nth'. lia.
          -- apply nth_error_nth'. lia.
        * right. left. split; [lia|]. split; [lia|]. split; [exact Hpos|].
          replace (S k' - 1)%nat with k' by lia. reflexivity.
Qed.

(** In the last bin the flat formula gives the level of the interpolation:
    the guard of the solver sends that bin to the flat branch without
    changing the level. *)
Lemma flat_agrees_in_last_bin (v : Q) :
  (2 <= n)%nat -> 0 < nth (n - 1) vt 0 ->
  nth n edges 0 + (v - nth (n - 1) cum 0) / area ==
  nth (n - 1) edges 0
  + (v - nth (n - 2) cum 0) / nth (n - 1) vt 0 * (nth n edges 0 - nth (n - 1) edges 0).
Proof.
  intros Hn Hpos.
  pose proof (cum_step (n - 2) ltac:(lia)) as Hs.
  replace (S (n - 2)) with (n - 1)%nat in Hs by lia.
  rewrite Hs.
  set (w := nth n edges 0 - nth (n - 1) edges 0) in *.
  assert (Hw : ~ w == 0).
  { intro E. rewrite E in last_bin_full. lra. }
  rewrite last_bin_full. unfold w in *. field. split; lra.
Qed.

Lemma level_flat_monotone (k1 k2 : nat) (v1 v2 l1 l2 : Q) :
  (n <= S k1)%nat -> (n <= S k2)%nat -> v1 <= v2 ->
  level_case edges vt cum n area k1 v1 l1 ->
  level_case edges vt cum n area k2 v2 l2 -> l1 <= l2.
Proof.
    intros H1 H2 Hv [(_ & E1)|[(C & _)|(-> & C & _)]]; try lia.
    intros [(_ & E2)|[(C & _)|(-> & C & _)]]; try lia.
    pose proof (Qdiv_le_mono (v1 - nth (n - 1) cum 0) (v2 - nth (n - 1) cum 0) area
                  area_positive ltac:(lra)) as H.
    lra.
Qed.

Lemma level_same_bin (k : nat) (v1 v2 l1 l2 : Q) :
  (S k < n)%nat -> v1 <= v2 ->
  level_case edges vt cum n area k v1 l1 ->
  level_case edges vt cum n area k v2 l2 -> l1 <= l2.
Proof.
    intros Hk Hv [(C & _)|[(_ & K1 & P & E1)|(K1 & _ & P & E1)]]; try lia;
      intros [(C & _)|[(_ & K2 & _ & E2)|(K2 & _ & _ & E2)]]; try lia.
    - pose proof (Qdiv_le_mono (v1 - nth (k - 1) cum 0) (v2 - nth (k - 1) cum 0)
                    (nth k vt 0) P ltac:(lra)) as H.
      pose proof (edges_sorted k ltac:(lia)) as W.
      set (f1 := (v1 - nth (k - 1) cum 0) / nth k vt 0) in *.
      set (f2 := (v2 - nth (k - 1) cum 0) / nth k vt 0) in *.
      nra.
    - subst k.
      pose proof (Qdiv_le_mono (v1 - nth (n - 1) cum 0) (v2 - nth (n - 1) cum 0)
                    (nth 0 vt 0) P ltac:(lra)) as H.
      pose proof (edges_sorted O ltac:(lia)) as W.
      set (f1 := (v1 - nth (n - 1) cum 0) / nth 0 vt 0) in *.
      set (f2 := (v2 - nth (n - 1) cum 0) / nth 0 vt 0) in *.
      nra.
Qed.

(** Below the last bin the level stays under the upper edge of its bin. *)
Lemma level_upper (k : nat) (v l : Q) :
  splits cum v k -> level_case edges vt cum n area k v l -> (S k < n)%nat ->
  l <= nth (S k) edges 0.
Proof.
    intros (_ & Hbefore & Hafter) Hc Hk.
    rewrite cum_length in Hafter.
    destruct Hc as [(C & _)|[(_ & K & P & E)|(-> & _ & P & E)]]; try lia.
    - pose proof (Hafter k ltac:(lia) ltac:(lia)) as Hv.
      pose proof (cum_step (k - 1) ltac:(lia)) as Hs.
      replace (S (k - 1)) with k in Hs by lia.
      pose proof (Qdiv_le_mono (v - nth (k - 1) cum 0) (nth k vt 0) (nth k vt 0) P
                    ltac:(lra)) as H.
      assert (H1 : nth k vt 0 / nth k vt 0 == 1) by (field; lra).
      pose proof (edges_sorted k ltac:(lia)) as W.
      set (f := (v - nth (k - 1) cum 0) / nth k vt 0) in *.
      nra.
    - pose proof (Hafter O ltac:(lia) ltac:(lia)) as Hv.
      pose proof (cum_sorted O (n - 1)%nat ltac:(lia) ltac:(rewrite cum_length; lia)) as Hs.
      pose proof (Qdiv_le_mono (v - nth (n - 1) cum 0) 0 (nth 0 vt 0) P ltac:(lra)) as H.
      assert (H0 : 0 / nth 0 vt 0 == 0) by (field; lra).
      pose proof (edges_sorted O ltac:(lia)) as W.
      set (f := (v - nth (n - 1) cum 0) / nth 0 vt 0) in *.
      nra.
Qed.

(** From the second bin on the level is at least the lower edge of its
    bin; on the flat branch it is at least the lower edge of the last bin. *)
Lemma level_lower (k : nat) (v l : Q) :
  splits cum v k -> level_case edges vt cum n area k v l -> (1 <= k)%nat ->
  nth (Nat.min k (n - 1)) edges 0 <= l.
Proof.
    intros (Hle & Hbefore & _) Hc Hk.
    rewrite cum_length in Hle.
    destruct Hc as [(C & E)|[(C & _ & P & E)|(-> & _)]]; try lia.
    - replace (Nat.min k (n - 1)) with (n - 1)%nat by lia.
      pose proof (edges_sorted (n - 1)%nat ltac:(lia)) as W.
      replace (S (n - 1)) with n in W by lia.
      assert (Hv : - (area * (nth n edges 0 - nth (n - 1) edges 0))
                   <= v - nth (n - 1) cum 0).
      { destruct (Nat.eq_dec k n) as [->|Hkn].
        - pose proof (Hbefore (n - 1)%nat ltac:(lia)) as H. nra.
        - assert (k = (n - 1)%nat) by lia. subst k.
          pose proof (Hbefore (n - 1 - 1)%nat ltac:(lia)) as H.
          pose proof (cum_step (n - 1 - 1) ltac:(lia)) as Hs.
          replace (S (n - 1 - 1)) with (n - 1)%nat in Hs by lia.
          lra. }
      pose proof (Qdiv_le_mono _ _ area area_positive Hv) as H.
      assert (H1 : - (area * (nth n edges 0 - nth (n - 1) edges 0)) / area
                   == - (nth n edges 0 - nth (n - 1) edges 0)) by (field; lra).
      lra.
    - replace (Nat.min k (n - 1)) with k by lia.
      pose proof (Hbefore (k - 1)%nat ltac:(lia)) as Hv.
      pose proof (Qdiv_le_mono 0 (v - nth (k - 1) cum 0) (nth k vt 0) P ltac:(lra)) as H.
      assert (H0 : 0 / nth k vt 0 == 0) by (field; lra).
      pose proof (edges_sorted k ltac:(lia)) as W.
      set (f := (v - nth (k - 1) cum 0) / nth k vt 0) in *.
      nra.
Qed.

(** The solved level never decreases with the observed volume. *)
Lemma level_monotone (v1 v2 : Q) :
  0 <= v1 -> v1 <= v2 ->
  exists l1 l2,
    target_level_of edges (Some vt) (Some cum) dem_i d v1 = Return (Some l1) /\
    target_level_of edges (Some vt) (Some cum) dem_i d v2 = Return (Some l2) /\
    l1 <= l2.
Proof.
    intros H0 Hv.
    destruct (solve_cases v1 H0) as (k1 & l1 & S1 & T1 & C1).
    destruct (solve_cases v2 ltac:(lra)) as (k2 & l2 & S2 & T2 & C2).
    exists l1, l2. split; [exact T1|]. split; [exact T2|].
    assert (Hk : (k1 <= k2)%nat).
    { destruct (le_lt_dec k1 k2) as [|Hlt]; [assumption|]. exfalso.
      destruct S1 as (L1 & B1 & _). destruct S2 as (_ & _ & A2).
      pose proof (B1 k2 Hlt) as Ha. pose proof (A2 k2 ltac:(lia) ltac:(lia)) as Hb. lra. }
    destruct (le_lt_dec n (S k1)) as [Hflat|Hin].
    - apply (level_flat_monotone k1 k2 v1 v2); auto. lia.
    - destruct (Nat.eq_dec k1 k2) as [<-|Hne].
      + apply (level_same_bin k1 v1 v2); auto.
      + pose proof (level_upper k1 v1 l1 S1 C1 Hin) as U.
        pose proof (level_lower k2 v2 l2 S2 C2 ltac:(lia)) as L.
        pose proof (edges_monotone (S k1) (Nat.min k2 (n - 1)) ltac:(lia) ltac:(lia)) as M.
        lra.
Qed.

End Monotone.

Lemma Qabs_positive (x : Q) : ~ (x == 0)%Q -> (0 < Qabs x)%Q.
Proof.
  intro Hnz. pose proof (Qabs_nonneg x) as H.
  destruct (Qlt_le_dec 0 (Qabs x)) as [|Hle]; [assumption|].
  exfalso. apply Hnz.
  assert (E : (Qabs x == 0)%Q) by lra.
  revert E. apply Qabs_case; intros; lra.
Qed.

Lemma linspace_sorted (first last : Q) (bins k : nat) :
  (first < last)%Q -> (k < bins)%nat ->
  (nth k (linspace first last bins) 0 <= nth (S k) (linspace first last bins) 0)%Q.
Proof.
  intros Hlt Hk.
  pose proof (linspace_diff first last bins k Hk) as H.
  rewrite diff_nth in H by (rewrite linspace_length; lia).
  pose proof (linspace_step_positive first last bins ltac:(lia) Hlt). lra.
Qed.

(** In the exact arithmetic of the model the levels of a table built by
    [build_tables] are ordered across the bins and branches as well: over
    a window that holds at least one pixel, on a terrain whose pixel sizes
    agree with its affine transform ([dxp * dyp = |a * e|], not zero), and
    for observed volumes [0 <= v1 <= v2], the solver returns a waterlevel
    for both volumes and the level for [v1] is at most the level for
    [v2].  (Where the solver changes bin or branch the two levels are the
    results of different formulas, and the order of their doubles is not
    implied by this order of exact values.) *)
Lemma built_level_monotone (d : dem) (i : nat) (fc : list (Q * Q)) (r : row)
        (edges : list Q) (v1 v2 : Q) :
  build_row d i fc = Return r ->
  bin_edges r = Some edges ->
  concat (row_window r d) <> [] ->
  (dxp d * dyp d == Qabs (affine_a d * affine_e d))%Q ->
  ~ (affine_a d * affine_e d == 0)%Q ->
  (0 <= v1)%Q -> (v1 <= v2)%Q ->
  exists l1 l2,
    subgrid_compute (set_vol1 r v1) d "waterlevel" = Return (Some (Waterlevel l1)) /\
    subgrid_compute (set_vol1 r v2) d "waterlevel" = Return (Some (Waterlevel l2)) /\
    (l1 <= l2)%Q.
Proof.
  intros Hb He Hw Hpx Hnz H0 Hv.
  destruct (build_row_table d i fc r edges Hb He)
    as (values & first & last & Hu & Ho & Hlt & -> & _ & Hvt & Hcum).
  set (vt := volume_table_of d (counts_of first last 20 values) (linspace first last 20)) in *.
  assert (Hwin : forall v, row_window (set_vol1 r v) d = row_window r d) by reflexivity.
  pose proof (Qabs_positive _ Hnz) as Habs.
  assert (Hsize : length values = length (concat (row_window r d))).
  { apply unmask_valid in Hu. rewrite Hu, length_map. reflexivity. }
  assert (Hcount : (1 <= inject_Z (Z.of_nat (length values)))%Q).
  { change 1%Q with (inject_Z 1). rewrite <- Zle_Qle.
    destruct (concat (row_window r d)); [congruence | simpl in Hsize; lia]. }
  assert (Harea : (face_area (row_window r d) d
                   == inject_Z (Z.of_nat (length values)) * Qabs (affine_a d * affine_e d))%Q).
  { unfold face_area, np_size. rewrite <- Hsize, Hpx. reflexivity. }
  assert (A1 : (1 <= 20)%nat) by lia.
  assert (A2 : length (linspace first last 20) = 21%nat) by apply linspace_length.
  assert (A3 : length vt = 20%nat) by (apply volume_table_length; lia).
  assert (A4 : forall k, (k < 20)%nat -> (0 <= nth k vt 0)%Q).
  { intros k Hk. apply volume_table_nonneg; [lia | exact Hlt | exact Hk]. }
  assert (A5 : forall k, (k < 20)%nat ->
                         (nth k (linspace first last 20) 0
                          <= nth (S k) (linspace first last 20) 0)%Q).
  { intros k Hk. apply linspace_sorted; assumption. }
  assert (A6 : (0 < face_area (row_window r d) d)%Q).
  { rewrite Harea. apply Qmult_lt_0_compat; lra. }
  assert (A7 : (nth (20 - 1) vt 0 ==
                face_area (row_window r d) d
                * (nth 20 (linspace first last 20) 0
                   - nth (20 - 1) (linspace first last 20) 0))%Q).
  { unfold vt. rewrite volume_table_last by lia.
    pose proof (linspace_diff first last 20 19 ltac:(lia)) as Hd.
    rewrite diff_nth in Hd by (rewrite linspace_length; lia).
    change (20 - 1)%nat with 19%nat. rewrite Hd, Harea. ring. }
  destruct (level_monotone (linspace first last 20) vt 20 (row_window r d) d
              A1 A2 A3 A4 A5 A6 A7 v1 v2 H0 Hv) as (l1 & l2 & T1 & T2 & Hle).
  exists l1, l2. split; [|split; [|exact Hle]].
  - apply subgrid_compute_waterlevel with (edges := linspace first last 20) (v := v1);
        [exact He | reflexivity |].
    rewrite Hwin. change (volume_table (set_vol1 r v1)) with (volume_table r).
    change (cum_volume_table (set_vol1 r v1)) with (cum_volume_table r).
    rewrite Hvt, Hcum. exact T1.
  - apply subgrid_compute_waterlevel with (edges := linspace first last 20) (v := v2);
      [exact He | reflexivity |].
    rewrite Hwin. change (volume_table (set_vol1 r v2)) with (volume_table r).
    change (cum_volume_table (set_vol1 r v2)) with (cum_volume_table r).
    rewrite Hvt, Hcum. exact T2.
Qed.

(** The first cell of the small terrain at the observed volumes 1/20 and
    1/2. *)
Lemma built_level_monotone_small_cell :
  exists r l1 l2,
    build_row small_dem 0 (face_of 0 2 0 2) = Return r /\
    subgrid_compute (set_vol1 r (1 # 20)) small_dem "waterlevel"
    = Return (Some (Waterlevel l1)) /\
    subgrid_compute (set_vol1 r (1 # 2)) small_dem "waterlevel"
    = Return (Some (Waterlevel l2)) /\
    (l1 <= l2)%Q.
Proof.
  destruct (build_row small_dem 0 (face_of 0 2 0 2)) as [r|e| |] eqn:Hb;
    try (exfalso; vm_compute in Hb; discriminate).
  assert (He : exists edges, bin_edges r = Some edges).
  { vm_compute in Hb. injection Hb as <-. eexists. reflexivity. }
  destruct He as (edges & He).
  assert (Hw : concat (row_window r small_dem) <> []).
  { vm_compute in Hb. injection Hb as <-. discriminate. }
  destruct (built_level_monotone small_dem 0 (face_of 0 2 0 2) r edges (1 # 20) (1 # 2)
              Hb He Hw)
    as (l1 & l2 & H1 & H2 & Hle).
  - reflexivity.
  - vm_compute. discriminate.
  - discriminate.
  - discriminate.
  - exists r, l1, l2. auto.
Defined.

(* ================================================================== *)
(** * Further properties *)

(** ** Table builder: rows, errors, histogram, extent, window *)

Lemma build_rows_nth (d : dem) (faces : list (list (Q * Q))) :
  forall start rows,
  build_rows d start faces = Return rows ->
  length rows = length faces /\
  forall k r, nth_error rows k = Some r ->
              exists fc, nth_error faces k = Some fc /\
                         build_row d (start + k) fc = Return r.
Proof.
  induction faces as [|fc rest IH]; intros start rows; simpl.
  - intro H. injection H as <-. split; [reflexivity|].
    intros [|k] r H; discriminate H.
  - destruct (build_row d start fc) as [r0|e| |] eqn:Er; simpl; try discriminate.
    destruct (build_rows d (S start) rest) as [rs|e| |] eqn:Ers; simpl; try discriminate.
    intro H. injection H as <-.
    destruct (IH (S start) rs Ers) as (Hlen & Hnth).
    split; [simpl; congruence|].
    intros [|k] r Hr; simpl in Hr.
    + injection Hr as <-. exists fc. split; [reflexivity|].
      now rewrite Nat.add_0_r.
    + destruct (Hnth k r Hr) as (fc' & Hfc & Hb).
      exists fc'. split; [exact Hfc|].
      replace (start + S k)%nat with (S start + k)%nat by lia. exact Hb.
Qed.

(** [build_tables] returns one row per mesh cell, in mesh order: row [k]
    is numbered [k], carries the polygon of cell [k] and is the row built
    from that polygon alone. *)
Theorem build_tables_rows_in_mesh_order (g : grid) (d : dem) (tables : list row) :
  build_tables g d = Return tables ->
  length tables = length (face_coordinates g) /\
  forall k r,
    nth_error tables k = Some r ->
    id_ r = k /\
    nth_error (face_coordinates g) k = Some (face r) /\
    build_row d k (face r) = Return r.
Proof.
  intro Hb. apply build_tables_inv in Hb. destruct Hb as (Hb & _).
  destruct (build_rows_nth d (face_coordinates g) 0 tables Hb) as (Hlen & Hnth).
  split; [exact Hlen|].
  intros k r Hr. destruct (Hnth k r Hr) as (fc & Hfc & Hrow).
  simpl in Hrow.
  destruct (build_row_inv d k fc r Hrow) as (s & ext & _ & _ & E).
  assert (Hface : face r = fc) by (rewrite E; reflexivity).
  assert (Hid : id_ r = k) by (rewrite E; reflexivity).
  rewrite Hface. auto.
Qed.

Lemma build_tables_small_grid_in_order :
  exists tables,
    build_tables small_grid small_dem = Return tables /\
    length tables = 3%nat /\
    map id_ tables = [0; 1; 2]%nat /\
    map face tables = face_coordinates small_grid.
Proof.
  destruct (build_tables small_grid small_dem) as [tables|e| |] eqn:Hb;
    try (exfalso; vm_compute in Hb; discriminate).
  destruct (build_tables_rows_in_mesh_order small_grid small_dem tables Hb) as (Hlen & Hnth).
  exists tables. split; [reflexivity|]. split; [exact Hlen|].
  destruct tables as [|r0 [|r1 [|r2 [|r3 t]]]]; try discriminate Hlen.
  destruct (Hnth 0%nat r0 eq_refl) as (I0 & F0 & _).
  destruct (Hnth 1%nat r1 eq_refl) as (I1 & F1 & _).
  destruct (Hnth 2%nat r2 eq_refl) as (I2 & F2 & _).
  simpl in F0, F1, F2. injection F0 as F0. injection F1 as F1. injection F2 as F2.
  simpl. rewrite I0, I1, I2, <- F0, <- F1, <- F2. split; reflexivity.
Defined.

Lemma face_slice_outcome (d : dem) (fc : list (Q * Q)) :
  (world2px d fc <> [] /\ exists s, face_slice d fc = Return s) \/
  (world2px d fc = [] /\ face_slice d fc = Raise ValueError).
Proof.
  unfold face_slice. destruct (world2px d fc) as [|p t].
  - right. split; reflexivity.
  - left. split; [discriminate|]. simpl. eexists. reflexivity.
Qed.

Lemma build_row_outcome (d : dem) (i : nat) (fc : list (Q * Q)) :
  (fc <> [] /\ world2px d fc <> [] /\ exists r, build_row d i fc = Return r) \/
  ((fc = [] \/ world2px d fc = []) /\ build_row d i fc = Raise ValueError).
Proof.
  destruct (face_slice_outcome d fc) as [(Hpx & s & Hs)|(Hpx & Hs)].
  - destruct fc as [|p t].
    + right. split; [auto|]. unfold build_row. rewrite Hs. reflexivity.
    + left. split; [discriminate|]. split; [exact Hpx|].
      destruct (build_row_total d i (p :: t) s Hs ltac:(discriminate)) as (ext & _ & _ & Hb).
      eexists. exact Hb.
  - right. split; [auto|]. unfold build_row. rewrite Hs. reflexivity.
Qed.

Lemma build_rows_outcome (d : dem) (faces : list (list (Q * Q))) :
  forall start,
  (Forall (fun fc => ~ no_vertices d fc) faces /\
   exists rows, build_rows d start faces = Return rows /\ length rows = length faces) \/
  (Exists (no_vertices d) faces /\ build_rows d start faces = Raise ValueError).
Proof.
  induction faces as [|fc rest IH]; intro start.
  - left. split; [constructor|]. exists []. split; reflexivity.
  - destruct (build_row_outcome d start fc) as [(Hf & Hpx & r & Hr)|(Hbad & Hr)].
    + destruct (IH (S start)) as [(Hall & rows & Ht & Hl)|(Hex & Ht)].
      * left. split.
        -- constructor; [|exact Hall]. unfold no_vertices. tauto.
        -- exists (r :: rows). simpl. rewrite Hr. simpl. rewrite Ht, Hl.
           split; reflexivity.
      * right. split; [now apply Exists_cons_tl|].
        simpl. rewrite Hr. simpl. rewrite Ht. reflexivity.
    + right. split; [now apply Exists_cons_hd|].
      simpl. rewrite Hr. reflexivity.
Qed.

(** The three outcomes of [build_tables] on a raster of finite
    elevations.  A mesh without cells raises KeyError (the frame of no
    record has no column ['id'] to index by); a mesh in which some polygon
    has no vertex, or no pixel coordinate, raises ValueError from
    [min]/[max] of an empty array; every other mesh yields the tables:
    masked, flat or empty terrain windows do not make it raise. *)
Theorem build_tables_outcomes (g : grid) (d : dem) :
  (face_coordinates g = [] /\ build_tables g d = Raise KeyError) \/
  (face_coordinates g <> [] /\
   Forall (fun fc => ~ no_vertices d fc) (face_coordinates g) /\
   exists tables, build_tables g d = Return tables) \/
  (Exists (no_vertices d) (face_coordinates g) /\
   build_tables g d = Raise ValueError).
Proof.
  unfold build_tables.
  destruct (build_rows_outcome d (face_coordinates g) 0)
    as [(Hall & rows & Hr & Hl)|(Hex & Hr)].
  - rewrite Hr. simpl.
    destruct (face_coordinates g) as [|fc rest] eqn:E.
    + left. destruct rows; [split; reflexivity | discriminate].
    + right. left. split; [discriminate|]. split; [exact Hall|].
      destruct rows as [|r rows]; [discriminate|]. eexists. reflexivity.
  - right. right. split; [exact Hex|]. rewrite Hr. reflexivity.
Qed.

Lemma zsum_counts_of (first last : Q) (values : list Q) :
  zsum (counts_of first last 20 values) = Z.of_nat (length values).
Proof.
  unfold counts_of. apply histogram_counts_all. lia.
Qed.

(** The histogram of a row with a table has 20 counts, none negative,
    and they add up to the number of pixels of the cell's window: every
    pixel is counted in exactly one bin. *)
Theorem n_per_bin_counts_window (d : dem) (i : nat) (fc : list (Q * Q)) (r : row)
        (edges : list Q) :
  build_row d i fc = Return r ->
  bin_edges r = Some edges ->
  exists counts,
    n_per_bin r = Some counts /\
    length counts = 20%nat /\
    Forall (fun c => 0 <= c) counts /\
    zsum counts = np_size (row_window r d).
Proof.
  intros Hb He.
  destruct (build_row_table d i fc r edges Hb He)
    as (values & first & last & Hu & _ & _ & _ & Hn & _).
  exists (counts_of first last 20 values).
  split; [exact Hn|]. split; [apply counts_of_length|].
  split; [apply counts_of_nonneg|].
  rewrite zsum_counts_of. unfold np_size.
  apply unmask_valid in Hu. rewrite Hu, length_map. reflexivity.
Qed.

Lemma n_per_bin_small_cell :
  exists r counts,
    build_row small_dem 0 (face_of 0 2 0 2) = Return r /\
    n_per_bin r = Some counts /\ zsum counts = 4.
Proof.
  destruct (build_row small_dem 0 (face_of 0 2 0 2)) as [r|e| |] eqn:Hb;
    try (exfalso; vm_compute in Hb; discriminate).
  assert (He : exists edges, bin_edges r = Some edges).
  { vm_compute in Hb. injection Hb as <-. eexists. reflexivity. }
  destruct He as (edges & He).
  destruct (n_per_bin_counts_window small_dem 0 (face_of 0 2 0 2) r edges Hb He)
    as (counts & Hn & _ & _ & Hs).
  exists r, counts. split; [reflexivity|]. split; [exact Hn|].
  rewrite Hs. vm_compute in Hb. injection Hb as <-. reflexivity.
Defined.

Lemma outer_edges_bounds (values : list Q) (first last : Q) (z : Q) :
  outer_edges values = (first, last) -> In z values -> (first <= z <= last)%Q.
Proof.
  unfold outer_edges. intros Ho Hz.
  destruct values as [|x t]; [contradiction|]. simpl reduce in Ho. cbv iota in Ho.
  destruct (fold_min_lower t x) as (Hlo & Hlo' & _).
  destruct (fold_max_upper t x) as (Hhi & Hhi' & _).
  assert (Hb : (fold_left Qmin t x <= z <= fold_left Qmax t x)%Q).
  { destruct Hz as [<-|Hz]; split; auto. }
  destruct (Qeq_bool (fold_left Qmin t x) (fold_left Qmax t x));
    injection Ho as <- <-; lra.
Qed.

(** The bin edges of a row with a table are 21 strictly increasing
    values that span the window: every pixel elevation lies between the
    first and the last edge. *)
Theorem bin_edges_span_window (d : dem) (i : nat) (fc : list (Q * Q)) (r : row)
        (edges : list Q) :
  build_row d i fc = Return r ->
  bin_edges r = Some edges ->
  length edges = 21%nat /\
  (forall k, (k < 20)%nat -> (nth k edges 0 < nth (S k) edges 0)%Q) /\
  (forall z, In (Some z) (concat (row_window r d)) ->
             (nth 0 edges 0 <= z <= nth 20 edges 0)%Q).
Proof.
  intros Hb He.
  destruct (build_row_table d i fc r edges Hb He)
    as (values & first & last & Hu & Ho & Hlt & -> & _).
  split; [apply linspace_length|]. split.
  - intros k Hk.
    pose proof (linspace_diff first last 20 k Hk) as H.
    rewrite diff_nth in H by (rewrite linspace_length; lia).
    pose proof (linspace_step_positive first last 20 ltac:(lia) Hlt). lra.
  - intros z Hz. apply unmask_valid in Hu. rewrite Hu in Hz.
    apply in_map_iff in Hz. destruct Hz as (z' & E & Hz). injection E as ->.
    pose proof (outer_edges_bounds values first last z Ho Hz) as Hbz.
    rewrite !linspace_nth by lia.
    assert (E0 : (first + inject_Z (Z.of_nat 0) * ((last - first) / inject_Z (Z.of_nat 20))
                  == first)%Q).
    { change (inject_Z (Z.of_nat 0)) with 0%Q. ring. }
    assert (E20 : (first + inject_Z (Z.of_nat 20) * ((last - first) / inject_Z (Z.of_nat 20))
                   == last)%Q).
    { field. }
    rewrite E0, E20. exact Hbz.
Qed.

Lemma bin_edges_small_cell :
  exists r edges,
    build_row small_dem 0 (face_of 0 2 0 2) = Return r /\
    bin_edges r = Some edges /\
    (nth 0 edges 0 <= 2 <= nth 20 edges 0)%Q.
Proof.
  destruct (build_row small_dem 0 (face_of 0 2 0 2)) as [r|e| |] eqn:Hb;
    try (exfalso; vm_compute in Hb; discriminate).
  assert (He : exists edges, bin_edges r = Some edges).
  { vm_compute in Hb. injection Hb as <-. eexists. reflexivity. }
  destruct He as (edges & He).
  destruct (bin_edges_span_window small_dem 0 (face_of 0 2 0 2) r edges Hb He)
    as (_ & _ & Hspan).
  exists r, edges. split; [reflexivity|]. split; [exact He|].
  apply Hspan. vm_compute in Hb. injection Hb as <-. vm_compute. auto.
Defined.

Lemma fold_Zmin_lower (t : list Z) :
  forall x, fold_left Z.min t x <= x /\
            (forall y, In y t -> fold_left Z.min t x <= y) /\
            In (fold_left Z.min t x) (x :: t).
Proof.
  induction t as [|z t IH]; intro x; simpl.
  - repeat split; [lia | intros y [] | auto].
  - destruct (IH (Z.min x z)) as (H1 & H2 & H3). split; [lia|]. split.
    + intros y [<-|Hy]; [lia | auto].
    + destruct H3 as [H3|H3]; [|auto].
      rewrite <- H3. destruct (Z.min_spec x z) as [(_ & ->)|(_ & ->)]; auto.
Qed.

Lemma fold_Zmax_upper (t : list Z) :
  forall x, x <= fold_left Z.max t x /\
            (forall y, In y t -> y <= fold_left Z.max t x) /\
            In (fold_left Z.max t x) (x :: t).
Proof.
  induction t as [|z t IH]; intro x; simpl.
  - repeat split; [lia | intros y [] | auto].
  - destruct (IH (Z.max x z)) as (H1 & H2 & H3). split; [lia|]. split.
    + intros y [<-|Hy]; [lia | auto].
    + destruct H3 as [H3|H3]; [|auto].
      rewrite <- H3. destruct (Z.max_spec x z) as [(_ & ->)|(_ & ->)]; auto.
Qed.

(** The extent of a row is the bounding box of its polygon: every vertex
    lies within it, and each of its four bounds is the coordinate of some
    vertex. *)
Theorem extent_is_bounding_box (d : dem) (i : nat) (fc : list (Q * Q)) (r : row) :
  build_row d i fc = Return r ->
  exists x0 x1 y0 y1,
    extent r = [x0; x1; y0; y1] /\
    (forall x y, In (x, y) fc -> (x0 <= x <= x1)%Q /\ (y0 <= y <= y1)%Q) /\
    In x0 (map fst fc) /\ In x1 (map fst fc) /\
    In y0 (map snd fc) /\ In y1 (map snd fc).
Proof.
  intro Hb. destruct (build_row_inv d i fc r Hb) as (s & ext & _ & He & ->).
  cbn [extent]. destruct fc as [|p t]; [discriminate He|].
  unfold face_extent in He. simpl in He. injection He as <-.
  destruct (fold_min_lower (map fst t) (fst p)) as (A1 & A2 & A3).
  destruct (fold_max_upper (map fst t) (fst p)) as (B1 & B2 & B3).
  destruct (fold_min_lower (map snd t) (snd p)) as (C1 & C2 & C3).
  destruct (fold_max_upper (map snd t) (snd p)) as (D1 & D2 & D3).
  do 4 eexists. split; [reflexivity|]. split; [|simpl; auto].
  intros x y [E|Hin].
  - subst p. simpl in *. auto.
  - pose proof (in_map fst _ _ Hin) as Hx. pose proof (in_map snd _ _ Hin) as Hy.
    simpl in Hx, Hy. auto.
Qed.

Lemma extent_small_cell :
  exists r,
    build_row small_dem 0 (face_of 0 2 0 2) = Return r /\
    extent r = [0; 2; 0; 2]%Q.
Proof.
  destruct (build_row small_dem 0 (face_of 0 2 0 2)) as [r|e| |] eqn:Hb;
    try (exfalso; vm_compute in Hb; discriminate).
  destruct (extent_is_bounding_box small_dem 0 (face_of 0 2 0 2) r Hb)
    as (x0 & x1 & y0 & y1 & He & _).
  exists r. split; [reflexivity|].
  vm_compute in Hb. injection Hb as <-. reflexivity.
Defined.

Lemma face_slice_spec (d : dem) (fc : list (Q * Q)) (s : slice2) :
  face_slice d fc = Return s ->
  (forall c r, In (c, r) (world2px d fc) ->
               row_start s <= r <= row_stop s /\ col_start s <= c <= col_stop s) /\
  In (row_start s) (map snd (world2px d fc)) /\
  In (row_stop s) (map snd (world2px d fc)) /\
  In (col_start s) (map fst (world2px d fc)) /\
  In (col_stop s) (map fst (world2px d fc)).
Proof.
  unfold face_slice. destruct (world2px d fc) as [|p t]; [discriminate|].
  simpl. intro H. injection H as <-. cbn [row_start row_stop col_start col_stop].
  destruct (fold_Zmin_lower (map snd t) (snd p)) as (A1 & A2 & A3).
  destruct (fold_Zmax_upper (map snd t) (snd p)) as (B1 & B2 & B3).
  destruct (fold_Zmin_lower (map fst t) (fst p)) as (C1 & C2 & C3).
  destruct (fold_Zmax_upper (map fst t) (fst p)) as (D1 & D2 & D3).
  split; [|auto].
  intros c r [E|Hin].
  - subst p. simpl in *. auto.
  - pose proof (in_map fst _ _ Hin) as Hc. pose proof (in_map snd _ _ Hin) as Hr.
    simpl in Hc, Hr. auto.
Qed.

(** The pixel window of a polygon is bounded by the smallest and the
    largest pixel row and column of its vertices: all vertices lie
    between the bounds, and each bound is the row or column of a vertex. *)
Theorem face_slice_bounds_vertices (d : dem) (fc : list (Q * Q)) (s : slice2) :
  face_slice d fc = Return s ->
  (forall c r, In (c, r) (world2px d fc) ->
               row_start s <= r <= row_stop s /\ col_start s <= c <= col_stop s) /\
  (exists c, In (c, row_start s) (world2px d fc)) /\
  (exists c, In (c, row_stop s) (world2px d fc)) /\
  (exists r, In (col_start s, r) (world2px d fc)) /\
  (exists r, In (col_stop s, r) (world2px d fc)).
Proof.
  intro H. destruct (face_slice_spec d fc s H) as (Hb & R0 & R1 & C0 & C1).
  split; [exact Hb|].
  apply in_map_iff in R0. destruct R0 as ((c0 & r0) & E0 & H0).
  apply in_map_iff in R1. destruct R1 as ((c1 & r1) & E1 & H1).
  apply in_map_iff in C0. destruct C0 as ((c2 & r2) & E2 & H2).
  apply in_map_iff in C1. destruct C1 as ((c3 & r3) & E3 & H3).
  simpl in *. subst.
  split; [eauto|]. split; [eauto|]. split; eauto.
Qed.

Lemma face_slice_small_cell :
  face_slice small_dem (face_of 2 4 1 3) = Return (mkSlice 1 3 2 4) /\
  (exists c, In (c, 1) (world2px small_dem (face_of 2 4 1 3))) /\
  (exists r, In (4, r) (world2px small_dem (face_of 2 4 1 3))).
Proof.
  destruct (face_slice_bounds_vertices small_dem (face_of 2 4 1 3) (mkSlice 1 3 2 4) eq_refl)
    as (_ & H1 & _ & _ & H4).
  split; [reflexivity|]. split; [exact H1 | exact H4].
Defined.

Lemma py_slice_same_bound {A : Type} (l : list A) (a : Z) : py_slice l a a = [].
Proof.
  unfold py_slice. now rewrite Nat.sub_diag.
Qed.

Lemma concat_all_nil {A : Type} (l : list (list A)) :
  Forall (fun x => x = []) l -> concat l = [].
Proof.
  induction 1 as [|x t Hx Ht IH]; [reflexivity|].
  simpl. now rewrite Hx, IH.
Qed.

(** A cell whose vertices all map to one pixel column, or all to one
    pixel row, has a window without pixels: the slice runs from the
    smallest to the largest coordinate and excludes the largest. *)
Theorem window_empty_within_one_pixel (d : dem) (fc : list (Q * Q)) (s : slice2) :
  face_slice d fc = Return s ->
  (exists c, forall p, In p (world2px d fc) -> fst p = c) \/
  (exists r, forall p, In p (world2px d fc) -> snd p = r) ->
  concat (band_window d s) = [].
Proof.
  intros Hs Hone.
  destruct (face_slice_spec d fc s Hs) as (_ & R0 & R1 & C0 & C1).
  unfold band_window, slice2d.
  destruct Hone as [(c & Hc)|(r & Hr)].
  - assert (E : col_start s = col_stop s).
    { apply in_map_iff in C0. destruct C0 as (p0 & <- & H0).
      apply in_map_iff in C1. destruct C1 as (p1 & <- & H1).
      rewrite (Hc p0 H0), (Hc p1 H1). reflexivity. }
    rewrite E. apply concat_all_nil. apply Forall_forall.
    intros x Hx. apply in_map_iff in Hx. destruct Hx as (line & <- & _).
    apply py_slice_same_bound.
  - assert (E : row_start s = row_stop s).
    { apply in_map_iff in R0. destruct R0 as (p0 & <- & H0).
      apply in_map_iff in R1. destruct R1 as (p1 & <- & H1).
      rewrite (Hr p0 H0), (Hr p1 H1). reflexivity. }
    rewrite E, py_slice_same_bound. reflexivity.
Qed.

Lemma window_empty_small_cell :
  concat (band_window small_dem (mkSlice 1 3 1 1)) = [].
Proof.
  apply (window_empty_within_one_pixel small_dem (face_of 1 1 1 3) (mkSlice 1 3 1 1) eq_refl).
  left. exists 1. intros p Hp. vm_compute in Hp.
  destruct Hp as [<-|[<-|[<-|[<-|[]]]]]; reflexivity.
Defined.

(** ** Compositor: shape of the band, masked and written pixels *)

Lemma imap_from_length {A B : Type} (f : nat -> A -> B) (l : list A) :
  forall i, length (imap_from i f l) = length l.
Proof.
  induction l as [|x t IH]; intro i; simpl; [reflexivity|]. now rewrite IH.
Qed.

Lemma imap_from_nth {A B : Type} (f : nat -> A -> B) (da : A) (db : B) (l : list A) :
  forall i k, (k < length l)%nat -> nth k (imap_from i f l) db = f (i + k)%nat (nth k l da).
Proof.
  induction l as [|x t IH]; intros i k Hk; simpl in Hk; [lia|].
  destruct k as [|k]; simpl.
  - now rewrite Nat.add_0_r.
  - rewrite IH by lia. f_equal. lia.
Qed.

Lemma slice_bound_le (len : nat) (i : Z) : (slice_bound len i <= len)%nat.
Proof.
  unfold slice_bound. destruct (Z.ltb_spec i 0); lia.
Qed.

Lemma shape_nth {A : Type} (b : list (list A)) (i : nat) :
  nth i (shape b) O = length (nth i b []).
Proof.
  unfold shape.
  destruct (Nat.lt_ge_cases i (length b)) as [H|H].
  - rewrite (nth_indep _ O (length (@nil A))) by (rewrite length_map; exact H).
    apply map_nth.
  - rewrite !nth_overflow; [reflexivity | exact H | rewrite length_map; exact H].
Qed.

Lemma shape_length {A : Type} (b : list (list A)) : length (shape b) = length b.
Proof. unfold shape. apply length_map. Qed.

Lemma shape_imap_from {A : Type} (f : nat -> list A -> list A) (b : list (list A)) :
  (forall i line, length (f i line) = length line) ->
  forall i, shape (imap_from i f b) = shape b.
Proof.
  intro Hf. unfold shape.
  induction b as [|line t IH]; intro i; simpl; [reflexivity|].
  now rewrite Hf, IH.
Qed.

Lemma shape_band_assign (b : list (list band_pixel)) (s : slice2)
      (value : nat -> nat -> band_pixel) :
  shape (band_assign b s value) = shape b.
Proof.
  unfold band_assign. apply shape_imap_from.
  intros i line.
  destruct (in_range _ _ i); [apply imap_from_length | reflexivity].
Qed.

(** The band assignment writes the pixels of the window and no other. *)
Lemma px_band_assign (b : list (list band_pixel)) (s : slice2)
      (value : nat -> nat -> band_pixel) (i j : nat) :
  px (band_assign b s value) i j =
  if covers (shape b) s i j
  then value (i - slice_bound (length b) (row_start s))%nat
             (j - slice_bound (length (nth i b [])) (col_start s))%nat
  else px b i j.
Proof.
  unfold px, covers. rewrite shape_length, shape_nth.
  set (r0 := slice_bound (length b) (row_start s)).
  set (r1 := slice_bound (length b) (row_stop s)).
  destruct (Nat.lt_ge_cases i (length b)) as [Hi|Hi].
  - unfold band_assign. fold r0 r1.
    rewrite (imap_from_nth _ [] [] b 0 i Hi). simpl Nat.add.
    set (line := nth i b []).
    set (c0 := slice_bound (length line) (col_start s)).
    set (c1 := slice_bound (length line) (col_stop s)).
    destruct (in_range r0 r1 i); simpl andb; [|reflexivity].
    destruct (Nat.lt_ge_cases j (length line)) as [Hj|Hj].
    + rewrite (imap_from_nth (A:=band_pixel) (B:=band_pixel) _ Masked Masked line 0 j Hj).
      simpl Nat.add.
      destruct (in_range c0 c1 j); reflexivity.
    + rewrite nth_overflow by (rewrite imap_from_length; exact Hj).
      assert (E : in_range c0 c1 j = false).
      { unfold in_range. pose proof (slice_bound_le (length line) (col_stop s)).
        fold c1 in H. apply andb_false_iff. right. apply Nat.ltb_ge. lia. }
      rewrite E. symmetry. apply nth_overflow. exact Hj.
  - assert (E : in_range r0 r1 i = false).
    { unfold in_range. pose proof (slice_bound_le (length b) (row_stop s)).
      fold r1 in H. apply andb_false_iff. right. apply Nat.ltb_ge. lia. }
    rewrite E. simpl andb.
    rewrite (nth_overflow (band_assign b s value))
      by (unfold band_assign; rewrite imap_from_length; exact Hi).
    rewrite (nth_overflow b) by exact Hi. reflexivity.
Qed.

(** One iteration keeps the shape of the band and every pixel the row
    does not write. *)
Lemma band_step_frame (d : dem) (method : string) (st st' : band_state) (r : row) :
  band_step d method st r = Return st' ->
  shape (fst st') = shape (fst st) /\
  forall i j, writes (shape (fst st)) r i j = false -> px (fst st') i j = px (fst st) i j.
Proof.
  intro H.
  destruct (band_step_cases d method st st' r H)
    as [(_ & ->)|(s & value & Ht & Hs & -> & _)]; simpl; [auto|].
  split; [apply shape_band_assign|].
  intros i j Hc. rewrite px_band_assign.
  unfold writes in Hc. rewrite Hs in Hc.
  destruct (bin_edges r) as [edges|]; [|congruence].
  rewrite Hc. reflexivity.
Qed.

Lemma band_loop_frame (d : dem) (method : string) (rows : list row) :
  forall st st',
  band_loop d method rows st = Return st' ->
  shape (fst st') = shape (fst st) /\
  forall i j, (forall r, In r rows -> writes (shape (fst st)) r i j = false) ->
              px (fst st') i j = px (fst st) i j.
Proof.
  induction rows as [|r rest IH]; intros st st'; simpl.
  - intro H. injection H as <-. auto.
  - destruct (band_step d method st r) as [st1|e| |] eqn:E1; simpl; try discriminate.
    intro H.
    destruct (band_step_frame d method st st1 r E1) as (S1 & P1).
    destruct (IH st1 st' H) as (S2 & P2).
    split; [congruence|].
    intros i j Hn. rewrite P2.
    + apply P1. apply Hn. left. reflexivity.
    + intros r' Hr'. rewrite S1. apply Hn. right. exact Hr'.
Qed.

Lemma shape_masked_all {A : Type} (b : list (list A)) : shape (masked_all b) = shape b.
Proof.
  unfold shape, masked_all. rewrite map_map. apply map_ext.
  intro line. apply length_map.
Qed.

Lemma px_masked_all {A : Type} (b : list (list A)) (i j : nat) :
  px (masked_all b) i j = Masked.
Proof.
  unfold px, masked_all.
  destruct (Nat.lt_ge_cases i (length b)) as [Hi|Hi].
  - rewrite (nth_indep _ [] (map (fun _ : A => Masked) []))
      by (rewrite length_map; exact Hi).
    rewrite (map_nth (map (fun _ : A => Masked)) b [] i).
    destruct (Nat.lt_ge_cases j (length (nth i b []))) as [Hj|Hj].
    + destruct (nth i b []) as [|a t] eqn:E; [simpl in Hj; lia|].
      exact (map_nth (fun _ : A => Masked) (a :: t) a j).
    + apply nth_overflow. rewrite length_map. exact Hj.
  - rewrite (nth_overflow (map _ b)) by (rewrite length_map; exact Hi).
    destruct j; reflexivity.
Qed.

(** What a completed call of [compute_band] ran on: the tables with the
    volumes assigned. *)
Lemma compute_band_inv (g : grid) (d : dem) (dt : data) (method : string)
      (tables tables' : list row) (st : band_state) :
  compute_band g d dt method tables = (tables', Return st) ->
  length (d_vol1 dt) = length tables /\
  tables' = zip_with set_vol1 tables (d_vol1 dt) /\
  band_loop d method tables' (masked_all (band d), []) = Return st.
Proof.
  unfold compute_band, then_, assign, read, set_column.
  destruct (Nat.eqb (length (d_vol1 dt)) (length tables)) eqn:E; [|discriminate].
  apply Nat.eqb_eq in E. intro H. injection H as <- H. auto.
Qed.

Lemma zip_with_set_vol1_in (tables : list row) :
  forall values r, In r (zip_with set_vol1 tables values) ->
                   exists r0 v, In r0 tables /\ r = set_vol1 r0 v.
Proof.
  induction tables as [|r0 t IH]; intros [|v vs] r H; simpl in H; try contradiction.
  destruct H as [<-|H].
  - exists r0, v. split; [left; reflexivity | reflexivity].
  - destruct (IH vs r H) as (r1 & v1 & H1 & ->). exists r1, v1.
    split; [right; exact H1 | reflexivity].
Qed.

(** The band returned by [compute_band] has the shape of the terrain
    raster, whatever the windows of the rows and the levels solved for
    them (levels that are not finite included). *)
Theorem compute_band_has_terrain_shape (g : grid) (d : dem) (dt : data) (method : string)
        (tables tables' : list row) (b : list (list band_pixel)) (excluded : list nat) :
  compute_band g d dt method tables = (tables', Return (b, excluded)) ->
  shape b = shape (band d).
Proof.
  intro H. destruct (compute_band_inv g d dt method tables tables' _ H) as (_ & _ & Hl).
  destruct (band_loop_frame d method tables' _ _ Hl) as (Hs & _).
  simpl in Hs. rewrite Hs. apply shape_masked_all.
Qed.

(** In the band returned by [compute_band], every pixel that lies in the
    window of no row with a table is masked. *)
Theorem compute_band_masks_unwritten_pixels (g : grid) (d : dem) (dt : data)
        (method : string) (tables tables' : list row) (b : list (list band_pixel))
        (excluded : list nat) (i j : nat) :
  compute_band g d dt method tables = (tables', Return (b, excluded)) ->
  (forall r, In r tables -> writes (shape (band d)) r i j = false) ->
  px b i j = Masked.
Proof.
  intros H Hn.
  destruct (compute_band_inv g d dt method tables tables' _ H) as (_ & -> & Hl).
  destruct (band_loop_frame d method _ _ _ Hl) as (_ & Hp).
  simpl in Hp. rewrite Hp; [apply px_masked_all|].
  intros r Hr. rewrite shape_masked_all.
  destruct (zip_with_set_vol1_in tables _ r Hr) as (r0 & v & Hr0 & ->).
  apply (Hn r0 Hr0).
Qed.

Lemma compute_band_small_terrain_shape :
  exists tables tables' b excluded,
    build_tables small_grid small_dem = Return tables /\
    compute_band small_grid small_dem small_data "waterlevel" tables
    = (tables', Return (b, excluded)) /\
    shape b = [4; 4; 4]%nat.
Proof.
  destruct (build_tables small_grid small_dem) as [tables|e| |] eqn:Hb;
    try (exfalso; vm_compute in Hb; discriminate).
  destruct (compute_band small_grid small_dem small_data "waterlevel" tables)
    as [tables' [[b excluded]|e| |]] eqn:Hc;
    try (exfalso; vm_compute in Hb; injection Hb as <-; vm_compute in Hc; discriminate).
  exists tables, tables', b, excluded. split; [reflexivity|]. split; [exact Hc|].
  exact (compute_band_has_terrain_shape _ _ _ _ _ _ _ _ Hc).
Defined.

Lemma compute_band_small_terrain_masked :
  exists tables tables' b excluded,
    build_tables small_grid small_dem = Return tables /\
    compute_band small_grid small_dem small_data "waterlevel" tables
    = (tables', Return (b, excluded)) /\
    px b 0 2 = Masked.
Proof.
  destruct (build_tables small_grid small_dem) as [tables|e| |] eqn:Hb;
    try (exfalso; vm_compute in Hb; discriminate).
  destruct (compute_band small_grid small_dem small_data "waterlevel" tables)
    as [tables' [[b excluded]|e| |]] eqn:Hc;
    try (exfalso; vm_compute in Hb; injection Hb as <-; vm_compute in Hc; discriminate).
  exists tables, tables', b, excluded. split; [reflexivity|]. split; [exact Hc|].
  apply (compute_band_masks_unwritten_pixels _ _ _ _ _ _ _ _ 0%nat 2%nat Hc).
  clear Hc. vm_compute in Hb. injection Hb as <-.
  intros r [<-|[<-|[<-|[]]]]; reflexivity.
Defined.

Lemma band_loop_all_empty (d : dem) (method : string) (rows : list row) :
  (forall r, In r rows -> bin_edges r = None) ->
  forall st, band_loop d method rows st = Return (fst st, snd st ++ map id_ rows).
Proof.
  induction rows as [|r rest IH]; intros He st; simpl.
  - rewrite app_nil_r. destruct st; reflexivity.
  - rewrite (band_step_empty d method st r (He r (or_introl eq_refl))). simpl.
    rewrite IH by (intros r' Hr'; apply He; right; exact Hr').
    simpl. rewrite <- app_assoc. reflexivity.
Qed.

(** When no row has a table (and so for empty tables), [compute_band]
    returns the fully masked band and reports every cell as excluded, in
    table order; nothing is raised. *)
Theorem compute_band_without_tables (g : grid) (d : dem) (dt : data) (method : string)
        (tables : list row) :
  (forall r, In r tables -> bin_edges r = None) ->
  length (d_vol1 dt) = length tables ->
  compute_band g d dt method tables
  = (zip_with set_vol1 tables (d_vol1 dt),
     Return (masked_all (band d), map id_ tables)).
Proof.
  intros He Hl. unfold compute_band, then_, assign, read, set_column.
  rewrite Hl, Nat.eqb_refl.
  rewrite band_loop_all_empty.
  - simpl. do 3 f_equal.
    clear He. revert Hl. generalize (d_vol1 dt).
    induction tables as [|r t IH]; intros [|v vs] Hl; simpl in *;
      try discriminate; [reflexivity|].
    f_equal. apply IH. lia.
  - intros r Hr. destruct (zip_with_set_vol1_in tables _ r Hr) as (r0 & v & Hr0 & ->).
    apply (He r0 Hr0).
Qed.

Lemma compute_band_empty_row_only :
  compute_band (mkGrid []) scenario_dem (mkData [7%Q] [] []) "waterdepth" [empty_row]
  = ([set_vol1 empty_row 7], Return (masked_all (band scenario_dem), [1%nat])).
Proof.
  apply (compute_band_without_tables (mkGrid []) scenario_dem (mkData [7%Q] [] [])
           "waterdepth" [empty_row]).
  - intros r [<-|[]]. reflexivity.
  - reflexivity.
Defined.

Lemma subgrid_compute_waterlevel_result (r : row) (d : dem) (res : option solved) :
  subgrid_compute r d "waterlevel" = Return res ->
  match bin_edges r, res with
  | Some _, Some (Waterlevel _) => True
  | None, None => True
  | _, _ => False
  end.
Proof.
  unfold subgrid_compute. destruct (bin_edges r) as [edges|].
  - destruct (vol1 r) as [v|]; simpl; [|discriminate].
    destruct (target_level_of _ _ _ _ _ _) as [[t|]|e| |]; simpl; try discriminate.
    intro H. injection H as <-. exact I.
  - intro H. injection H as <-. exact I.
Qed.

(** Later rows overwrite earlier ones: in a completed waterlevel run,
    a pixel holds the level solved for the last row with a table whose
    window contains it, or, when that level is inf or nan, a value that
    is not finite. *)
Theorem compute_band_last_row_wins (g : grid) (d : dem) (dt : data)
        (tables pre post : list row) (r : row) (b : list (list band_pixel))
        (excluded : list nat) (i j : nat) :
  compute_band g d dt "waterlevel" tables = (pre ++ r :: post, Return (b, excluded)) ->
  writes (shape (band d)) r i j = true ->
  (forall r', In r' post -> writes (shape (band d)) r' i j = false) ->
  (exists level,
      subgrid_compute r d "waterlevel" = Return (Some (Waterlevel level)) /\
      px b i j = Value level) \/
  (subgrid_compute r d "waterlevel" = NonFinite /\ px b i j = NotFiniteValue).
Proof.
  intros H Hw Hpost.
  destruct (compute_band_inv g d dt "waterlevel" tables _ _ H) as (_ & _ & Hl).
  rewrite band_loop_app in Hl.
  destruct (band_loop d "waterlevel" pre (masked_all (band d), [])) as [st1|e| |] eqn:E1;
    simpl in Hl; try discriminate.
  destruct (band_step d "waterlevel" st1 r) as [st2|e| |] eqn:E2; simpl in Hl;
    try discriminate.
  destruct (band_loop_frame d "waterlevel" pre _ _ E1) as (S1 & _).
  simpl in S1. rewrite shape_masked_all in S1.
  destruct (band_loop_frame d "waterlevel" post _ _ Hl) as (_ & P3).
  simpl in P3.
  assert (S2 : shape (fst st2) = shape (band d)).
  { destruct (band_step_frame d "waterlevel" st1 st2 r E2) as (S2 & _). congruence. }
  rewrite P3 by (intros r' Hr'; rewrite S2; apply Hpost; exact Hr').
  unfold writes in Hw.
  destruct (band_step_cases d "waterlevel" st1 st2 r E2)
    as [(He & _)|(s & value & _ & Hs & -> & Hv)].
  - rewrite He in Hw. discriminate.
  - rewrite Hs in Hw. destruct (bin_edges r) as [edges|] eqn:He; [|discriminate].
    simpl. rewrite px_band_assign, S1, Hw.
    destruct Hv as [(res & Hres & ->)|(Hres & ->)]; [|right; auto].
    left. pose proof (subgrid_compute_waterlevel_result r d _ Hres) as Hk.
    rewrite He in Hk. destruct res as [level|depth]; [|contradiction].
    exists level. split; [exact Hres | reflexivity].
Qed.

Lemma compute_band_overlapping_cells :
  exists tables r0 r1 b excluded level,
    build_tables overlapping_grid small_dem = Return tables /\
    compute_band overlapping_grid small_dem overlapping_data "waterlevel" tables
    = ([r0; r1], Return (b, excluded)) /\
    writes (shape (band small_dem)) r0 1 1 = true /\
    subgrid_compute r1 small_dem "waterlevel" = Return (Some (Waterlevel level)) /\
    px b 1 1 = Value level.
Proof.
  destruct (build_tables overlapping_grid small_dem) as [tables|e| |] eqn:Hb;
    try (exfalso; vm_compute in Hb; discriminate).
  destruct (compute_band overlapping_grid small_dem overlapping_data "waterlevel" tables)
    as [tables' [[b excluded]|e| |]] eqn:Hc;
    try (exfalso; vm_compute in Hb; injection Hb as <-; vm_compute in Hc; discriminate).
  destruct (compute_band_inv _ _ _ _ _ _ _ Hc) as (_ & Ht & _).
  vm_compute in Hb. injection Hb as <-.
  cbn [zip_with d_vol1 overlapping_data] in Ht.
  match type of Ht with _ = [?a; ?b] => set (r0 := a) in *; set (r1 := b) in * end.
  subst tables'.
  destruct (compute_band_last_row_wins overlapping_grid small_dem overlapping_data _
              [r0] [] r1 b excluded 1%nat 1%nat Hc)
    as [(level & Hs & Hp)|(Hs & _)].
  - reflexivity.
  - intros r' [].
  - eexists. exists r0, r1, b, excluded, level.
    split; [reflexivity|]. split; [exact Hc|]. split; [reflexivity|].
    split; [exact Hs | exact Hp].
  - exfalso. vm_compute in Hs. discriminate.
Defined.

(* ------------------------------------------------------------------ *)
(** ** Compositor: excluded cells, unknown methods, imported rows *)

Lemma subgrid_compute_result (r : row) (d : dem) (method : string) (res : option solved) :
  subgrid_compute r d method = Return res -> (res = None <-> bin_edges r = None).
Proof.
  unfold subgrid_compute. destruct (bin_edges r) as [edges|].
  - destruct (vol1 r) as [v|]; simpl; [|discriminate].
    destruct (target_level_of _ _ _ _ _ _) as [[t|]|e| |]; simpl; try discriminate;
      destruct (String.eqb method "waterlevel"); try discriminate;
      destruct (String.eqb method "waterdepth"); try discriminate;
      intro H; injection H as <-; split; discriminate.
  - intro H. injection H as <-. split; reflexivity.
Qed.

Lemma band_loop_excluded_list (d : dem) (method : string) (rows : list row) :
  forall st st',
  band_loop d method rows st = Return st' ->
  snd st' = snd st ++ map id_ (filter (fun r => negb (has_table r)) rows).
Proof.
  induction rows as [|r rest IH]; intros st st'; simpl.
  - intro H. injection H as <-. now rewrite app_nil_r.
  - destruct (band_step d method st r) as [st1|e| |] eqn:E1; simpl; try discriminate.
    intro H. rewrite (IH st1 st' H). clear IH H.
    unfold has_table.
    destruct (band_step_cases d method st st1 r E1)
      as [(He & ->)|(s & value & He & _ & -> & _)].
    + rewrite He. simpl. now rewrite <- app_assoc.
    + destruct (bin_edges r) as [edges|]; [reflexivity | congruence].
Qed.

Lemma filter_zip_with_set_vol1 (tables : list row) :
  forall values,
  map id_ (filter (fun r => negb (has_table r)) (zip_with set_vol1 tables values))
  = map id_ (filter (fun r => negb (has_table r)) (firstn (length values) tables)).
Proof.
  induction tables as [|r t IH]; intros [|v vs]; simpl; try reflexivity.
  change (has_table (set_vol1 r v)) with (has_table r).
  destruct (has_table r); simpl; [apply IH | f_equal; apply IH].
Qed.

(** The cells [compute_band] reports as excluded are exactly the rows
    without a table, in table order; a row whose level is inf or nan is
    not among them. *)
Theorem compute_band_excludes_rows_without_table (g : grid) (d : dem) (dt : data)
        (method : string) (tables tables' : list row) (b : list (list band_pixel))
        (excluded : list nat) :
  compute_band g d dt method tables = (tables', Return (b, excluded)) ->
  excluded = map id_ (filter (fun r => negb (has_table r)) tables).
Proof.
  intro H. destruct (compute_band_inv g d dt method tables _ _ H) as (Hl & -> & Hloop).
  pose proof (band_loop_excluded_list d method _ _ _ Hloop) as He. simpl in He.
  rewrite He, filter_zip_with_set_vol1, Hl, firstn_all. reflexivity.
Qed.

(** A masked cell, a cell with an empty window, whose level is not
    finite, and a cell with a table: the run completes and only the
    masked cell is excluded. *)
Lemma compute_band_mixed_cells_excluded :
  exists tables tables' b excluded level,
    build_tables mixed_grid small_dem = Return tables /\
    compute_band mixed_grid small_dem mixed_data "waterlevel" tables
    = (tables', Return (b, excluded)) /\
    map (fun r => subgrid_compute r small_dem "waterlevel") tables'
    = [Return None; NonFinite; Return (Some (Waterlevel level))] /\
    excluded = [0%nat].
Proof.
  destruct (build_tables mixed_grid small_dem) as [tables|e| |] eqn:Hb;
    try (exfalso; vm_compute in Hb; discriminate).
  destruct (compute_band mixed_grid small_dem mixed_data "waterlevel" tables)
    as [tables' [[b excluded]|e| |]] eqn:Hc;
    try (exfalso; vm_compute in Hb; injection Hb as <-; vm_compute in Hc; discriminate).
  exists tables, tables', b, excluded. eexists.
  split; [reflexivity|]. split; [exact Hc|].
  rewrite (compute_band_excludes_rows_without_table _ _ _ _ _ _ _ _ Hc).
  destruct (compute_band_inv _ _ _ _ _ _ _ Hc) as (_ & -> & _).
  vm_compute in Hb. injection Hb as <-. split; vm_compute; reflexivity.
Defined.

(* ------------------------------------------------------------------ *)
(** ** Cells with a masked window *)





Lemma band_loop_rows (d : dem) (method : string) (P : row -> Prop) :
  (forall st st' r, band_step d method st r = Return st' -> P r) ->
  forall rows st st',
  band_loop d method rows st = Return st' -> forall r, In r rows -> P r.
Proof.
  intros Hstep. induction rows as [|r0 rest IH]; intros st st' H r Hr; [contradiction|].
  simpl in H.
  destruct (band_step d method st r0) as [st1|e| |] eqn:E1; simpl in H; try discriminate.
  destruct Hr as [<-|Hr]; [eapply Hstep; eassumption | eapply IH; eassumption].
Qed.

Lemma subgrid_compute_unknown_method (r : row) (d : dem) (method : string)
      (res : option solved) :
  method <> "waterlevel"%string -> method <> "waterdepth"%string ->
  subgrid_compute r d method = Return res -> bin_edges r = None.
Proof.
  intros H1 H2. apply String.eqb_neq in H1. apply String.eqb_neq in H2.
  unfold subgrid_compute. destruct (bin_edges r) as [edges|]; [|reflexivity].
  destruct (vol1 r) as [v|]; simpl; [|discriminate].
  destruct (target_level_of _ _ _ _ _ _) as [[t|]|e| |]; simpl; try discriminate;
    rewrite H1, H2; discriminate.
Qed.

(** A level that is not finite is the [None] of [target_level_of]. *)
Lemma target_level_of_outcome (edges : list Q) (vt cum : option (list Q))
      (dem_i : list (list pixel)) (d : dem) (v : Q) :
  target_level_of edges vt cum dem_i d v <> NonFinite.
Proof.
  unfold target_level_of.
  destruct cum as [cum|]; simpl; [|discriminate].
  destruct (bisect cum v) as [k|]; [|discriminate].
  destruct (py_index cum (Z.of_nat k - 1)); simpl; [|discriminate].
  destruct (flat_branch cum k).
  - destruct (py_index cum (-1)); simpl; [|discriminate].
    destruct (py_index edges (-1)); simpl; discriminate.
  - destruct vt as [vt|]; simpl; [|discriminate].
    destruct (py_index vt (Z.of_nat k)); simpl; [|discriminate].
    destruct (py_index edges (Z.of_nat k)); simpl; [|discriminate].
    destruct (py_index edges (Z.of_nat k + 1)); simpl; discriminate.
Qed.

Lemma subgrid_compute_unknown_finite (r : row) (d : dem) (method : string) :
  method <> "waterlevel"%string -> method <> "waterdepth"%string ->
  subgrid_compute r d method <> NonFinite.
Proof.
  intros H1 H2. apply String.eqb_neq in H1. apply String.eqb_neq in H2.
  unfold subgrid_compute. destruct (bin_edges r) as [edges|]; [|discriminate].
  destruct (vol1 r) as [v|]; simpl; [|discriminate].
  pose proof (target_level_of_outcome edges (volume_table r) (cum_volume_table r)
                (row_window r d) d v) as Hfin.
  destruct (target_level_of _ _ _ _ _ _) as [[t|]|e| |]; simpl; try discriminate;
    try congruence; rewrite H1, H2; discriminate.
Qed.

(** With a method other than ['waterlevel'] and ['waterdepth'] the solver
    has no result to return for a row with a table, so [compute_band]
    completes only on tables whose rows all lack a table: the band it
    returns is fully masked and every cell is excluded. *)
Theorem compute_band_unknown_method (g : grid) (d : dem) (dt : data) (method : string)
        (tables tables' : list row) (b : list (list band_pixel)) (excluded : list nat) :
  method <> "waterlevel"%string -> method <> "waterdepth"%string ->
  compute_band g d dt method tables = (tables', Return (b, excluded)) ->
  b = masked_all (band d) /\ excluded = map id_ tables.
Proof.
  intros H1 H2 H.
  destruct (compute_band_inv g d dt method tables _ _ H) as (Hl & -> & Hloop).
  assert (He : forall r, In r (zip_with set_vol1 tables (d_vol1 dt)) -> bin_edges r = None).
  { refine (band_loop_rows d method (fun r => bin_edges r = None) _ _ _ _ Hloop).
    intros st st' r Hstep.
    destruct (band_step_cases d method st st' r Hstep)
      as [(He & _)|(s & value & _ & _ & _ & [(res & Hres & _)|(Hres & _)])].
    - exact He.
    - exact (subgrid_compute_unknown_method r d method _ H1 H2 Hres).
    - exfalso. exact (subgrid_compute_unknown_finite r d method H1 H2 Hres). }
  rewrite (band_loop_all_empty d method _ He) in Hloop. injection Hloop as <- <-.
  split; [reflexivity|]. simpl.
  clear He H. revert Hl. generalize (d_vol1 dt).
  induction tables as [|r t IH]; intros [|v vs] Hl; simpl in *; try discriminate;
    [reflexivity|].
  f_equal. apply IH. lia.
Qed.

Lemma compute_band_unknown_method_empty_row :
  exists tables' b excluded,
    compute_band (mkGrid []) scenario_dem (mkData [7%Q] [] []) "depth" [empty_row]
    = (tables', Return (b, excluded)) /\
    b = masked_all (band scenario_dem) /\ excluded = map id_ [empty_row].
Proof.
  destruct (compute_band (mkGrid []) scenario_dem (mkData [7%Q] [] []) "depth" [empty_row])
    as [tables' [[b excluded]|e| |]] eqn:Hc; try (exfalso; vm_compute in Hc; discriminate).
  exists tables', b, excluded. split; [reflexivity|].
  apply (compute_band_unknown_method (mkGrid []) scenario_dem (mkData [7%Q] [] []) "depth"
           [empty_row] tables' b excluded); [discriminate | discriminate | exact Hc].
Defined.

Lemma zip_with_set_vol1_of (tables : list row) :
  forall values r,
  length values = length tables -> In r tables ->
  exists v, In (set_vol1 r v) (zip_with set_vol1 tables values).
Proof.
  induction tables as [|r0 t IH]; intros [|v vs] r Hl Hr; simpl in *;
    try contradiction; try discriminate.
  destruct Hr as [<-|Hr].
  - exists v. left. reflexivity.
  - destruct (IH vs r ltac:(lia) Hr) as (v' & H). exists v'. right. exact H.
Qed.

(** [compute_band] writes the result of a row through [row['slice']]:
    a run completes only if every row with a table carries a slice pair.
    Tables read back by [import_tables], which hold the four integers
    [slice_0] .. [slice_3] instead, cannot be composited. *)
Theorem compute_band_needs_slice_pair (g : grid) (d : dem) (dt : data) (method : string)
        (tables tables' : list row) (st : band_state) (r : row) :
  compute_band g d dt method tables = (tables', Return st) ->
  In r tables -> has_table r = true ->
  exists s, slice r = Slice s.
Proof.
  intros H Hr Ht.
  destruct (compute_band_inv g d dt method tables _ _ H) as (Hl & -> & Hloop).
  destruct (zip_with_set_vol1_of tables (d_vol1 dt) r Hl Hr) as (v & Hin).
  refine (band_loop_rows d method
            (fun r' => has_table r' = true -> exists s, slice r' = Slice s)
            _ _ _ _ Hloop (set_vol1 r v) Hin Ht).
  intros st0 st1 r' Hs Ht'. unfold has_table in Ht'.
  destruct (band_step_cases d method st0 st1 r' Hs)
    as [(He & _)|(s & value & _ & Hsl & _)].
  - rewrite He in Ht'. discriminate.
  - eauto.
Qed.

Lemma compute_band_scenario_slice_pair :
  exists tables' st s,
    compute_band (mkGrid []) scenario_dem (mkData [44%Q] [] []) "waterlevel"
                 [scenario_row 30] = (tables', Return st) /\
    slice (scenario_row 30) = Slice s.
Proof.
  destruct (compute_band (mkGrid []) scenario_dem (mkData [44%Q] [] []) "waterlevel"
                         [scenario_row 30])
    as [tables' [st|e| |]] eqn:Hc; try (exfalso; vm_compute in Hc; discriminate).
  destruct (compute_band_needs_slice_pair _ _ _ _ _ _ _ (scenario_row 30) Hc) as (s & Hs).
  - left. reflexivity.
  - reflexivity.
  - exists tables', st, s. split; [reflexivity | exact Hs].
Defined.

(** [compute_features] assigns the columns [vol1], [s1], [waterdepth] one
    after the other: when [s1] has the wrong length the call raises
    ValueError after the caller's tables have received [vol1]. *)
Theorem compute_features_assigns_in_order (d : dem) (dt : data) (method : string)
        (tables : list row) :
  length (d_vol1 dt) = length tables ->
  length (d_s1 dt) <> length tables ->
  compute_features d dt method tables
  = (zip_with set_vol1 tables (d_vol1 dt), Raise ValueError).
Proof.
  intros H1 H2. unfold compute_features, then_, assign, set_column.
  rewrite H1, Nat.eqb_refl.
  assert (L : length (zip_with set_vol1 tables (d_vol1 dt)) = length tables).
  { revert H1. generalize (d_vol1 dt). clear.
    induction tables as [|r t IH]; intros [|v vs] H; simpl in *; try discriminate;
      [reflexivity|].
    f_equal. apply IH. lia. }
  rewrite L. apply Nat.eqb_neq in H2. rewrite H2. reflexivity.
Qed.

Lemma compute_features_scenario_partial :
  compute_features scenario_dem (mkData [44%Q] [] []) "waterlevel" [scenario_row 30]
  = ([scenario_row 44], Raise ValueError).
Proof.
  apply (compute_features_assigns_in_order scenario_dem (mkData [44%Q] [] []) "waterlevel"
           [scenario_row 30]).
  - reflexivity.
  - discriminate.
Defined.

(* ------------------------------------------------------------------ *)
(** ** Table store: cells that are not written, stale tables, windows *)

Lemma nc_assign_inv {A : Type} (dim : nat) (var var' : list (nc_row A)) (i : nat)
      (val : list A) :
  nc_assign dim var i val = Return var' ->
  length var' = length var /\
  nth i var' Fill = Data val /\
  (forall j, i <> j -> nth j var' Fill = nth j var Fill).
Proof.
  unfold nc_assign.
  destruct (i <? length var)%nat eqn:Hi; [|discriminate].
  destruct (Nat.eqb (length val) dim); [|discriminate].
  intro H. injection H as <-. apply Nat.ltb_lt in Hi.
  split; [apply replace_nth_length|].
  split; [apply replace_nth_same; exact Hi|].
  intros j Hj. now apply replace_nth_other.
Qed.

Lemma nc_assign_opt_inv {A : Type} (dim : nat) (var var' : list (nc_row A)) (i : nat)
      (val : option (list A)) :
  nc_assign_opt dim var i val = Return var' ->
  length var' = length var /\
  nth i var' Fill = stored val (nth i var Fill) /\
  (forall j, i <> j -> nth j var' Fill = nth j var Fill).
Proof.
  destruct val as [v|]; simpl.
  - apply nc_assign_inv.
  - intro H. injection H as <-. auto.
Qed.

Lemma write_row_inv (ds ds' : dataset) (r : row) :
  write_row ds r = Return ds' ->
  import_row ds' (id_ r) = as_imported r (import_row ds (id_ r)) /\
  (forall j, id_ r <> j -> import_row ds' j = import_row ds j) /\
  length (var_bin_edges ds') = length (var_bin_edges ds) /\
  dim_cells ds' = dim_cells ds.
Proof.
  unfold write_row.
  destruct (nc_assign_opt (dim_bin_edges ds) (var_bin_edges ds) (id_ r) (bin_edges r))
    as [be|e| |] eqn:E1; simpl; try discriminate.
  destruct (nc_assign_opt (dim_bins ds) (var_cum_volume_table ds) (id_ r)
              (cum_volume_table r)) as [cv|e| |] eqn:E2; simpl; try discriminate.
  destruct (nc_assign_opt (dim_bins ds) (var_volume_table ds) (id_ r) (volume_table r))
    as [vt|e| |] eqn:E3; simpl; try discriminate.
  destruct (nc_assign two_times_two (var_extent ds) (id_ r) (extent r))
    as [ex|e| |] eqn:E4; simpl; try discriminate.
  destruct (nc_assign_opt (dim_bins ds) (var_n_per_bin ds) (id_ r) (n_per_bin r))
    as [np|e| |] eqn:E5; simpl; try discriminate.
  destruct (slice r) as [s|s0 s1 s2 s3] eqn:Hs; [|discriminate].
  destruct (nc_assign two_times_two (var_slice ds) (id_ r)
              [row_start s; row_stop s; col_start s; col_stop s])
    as [sl|e| |] eqn:E6; simpl; try discriminate.
  intro H. injection H as <-.
  destruct (nc_assign_opt_inv _ _ _ _ _ E1) as (L1 & S1 & O1).
  destruct (nc_assign_opt_inv _ _ _ _ _ E2) as (_ & S2 & O2).
  destruct (nc_assign_opt_inv _ _ _ _ _ E3) as (_ & S3 & O3).
  destruct (nc_assign_inv _ _ _ _ _ E4) as (_ & S4 & O4).
  destruct (nc_assign_opt_inv _ _ _ _ _ E5) as (_ & S5 & O5).
  destruct (nc_assign_inv _ _ _ _ _ E6) as (_ & S6 & O6).
  split; [|split; [|split; [exact L1 | reflexivity]]].
  - unfold import_row, as_imported. rewrite Hs. cbn.
    rewrite S1, S2, S3, S4, S5, S6. reflexivity.
  - intros j Hj. unfold import_row. cbn.
    rewrite O1, O2, O3, O4, O5, O6 by exact Hj. reflexivity.
Qed.

Lemma reserve_cells (ds : dataset) (i : nat) :
  dim_cells (reserve ds i) = dim_cells ds /\
  (length (var_bin_edges ds) <= length (var_bin_edges (reserve ds i)))%nat /\
  (dim_cells ds <> 0%nat ->
   length (var_bin_edges (reserve ds i)) = length (var_bin_edges ds)).
Proof.
  unfold reserve, cells_unlimited.
  destruct (Nat.eqb (dim_cells ds) 0) eqn:E.
  - apply Nat.eqb_eq in E. cbn. rewrite length_pad.
    split; [reflexivity|]. split; [lia | intro; congruence].
  - auto.
Qed.

(** One row written: what is read back for its cell and for the others,
    and the number of cells, which never decreases and stays as it is on
    a fixed dimension. *)
Lemma export_row_inv (ds ds' : dataset) (r : row) :
  export_row ds r = Return ds' ->
  import_row ds' (id_ r) = as_imported r (import_row ds (id_ r)) /\
  (forall j, id_ r <> j -> import_row ds' j = import_row ds j) /\
  dim_cells ds' = dim_cells ds /\
  (length (var_bin_edges ds) <= length (var_bin_edges ds'))%nat /\
  (dim_cells ds <> 0%nat -> length (var_bin_edges ds') = length (var_bin_edges ds)).
Proof.
  unfold export_row. intro H.
  destruct (write_row_inv _ _ _ H) as (S1 & O1 & L1 & D1).
  destruct (reserve_cells ds (id_ r)) as (D2 & L2 & L3).
  rewrite import_row_reserve in S1.
  split; [exact S1|]. split.
  - intros j Hj. rewrite (O1 j Hj). apply import_row_reserve.
  - split; [congruence|]. split; [lia|]. intro Hd. rewrite L1. apply L3, Hd.
Qed.

Lemma export_tables_other (rows : list row) :
  forall ds ds',
  export_tables ds rows = Return ds' ->
  (forall j, ~ In j (map id_ rows) -> import_row ds' j = import_row ds j) /\
  dim_cells ds' = dim_cells ds /\
  (length (var_bin_edges ds) <= length (var_bin_edges ds'))%nat /\
  (dim_cells ds <> 0%nat -> length (var_bin_edges ds') = length (var_bin_edges ds)).
Proof.
  induction rows as [|r rest IH]; intros ds ds'; simpl.
  - intro H. injection H as <-. auto.
  - destruct (export_row ds r) as [ds1|e| |] eqn:E1; simpl; try discriminate.
    intro H. destruct (export_row_inv ds ds1 r E1) as (_ & O1 & D1 & L1 & F1).
    destruct (IH ds1 ds' H) as (O2 & D2 & L2 & F2).
    split; [|split; [congruence|split; [lia|]]].
    + intros j Hj. rewrite O2 by tauto. apply O1. tauto.
    + intro Hd. rewrite F2 by congruence. apply F1, Hd.
Qed.

Lemma export_tables_written (rows : list row) :
  forall ds ds',
  export_tables ds rows = Return ds' ->
  NoDup (map id_ rows) ->
  forall r, In r rows -> import_row ds' (id_ r) = as_imported r (import_row ds (id_ r)).
Proof.
  induction rows as [|r0 rest IH]; intros ds ds' H Hnd r Hr; [contradiction|].
  simpl in H.
  destruct (export_row ds r0) as [ds1|e| |] eqn:E1; simpl in H; try discriminate.
  destruct (export_row_inv ds ds1 r0 E1) as (S1 & O1 & _).
  inversion Hnd as [|? ? Hnotin Hnd']; subst.
  destruct Hr as [<-|Hr].
  - destruct (export_tables_other rest ds1 ds' H) as (O2 & _).
    rewrite (O2 (id_ r0) Hnotin). exact S1.
  - rewrite (IH ds1 ds' H Hnd' r Hr). f_equal. apply O1.
    intro E. apply Hnotin. rewrite E. now apply in_map.
Qed.

Lemma nth_error_import_tables (ds : dataset) (j : nat) (ir : imported_row) :
  nth_error (import_tables ds) j = Some ir -> ir = import_row ds j.
Proof.
  unfold import_tables. intro H.
  assert (Hj : (j < length (var_bin_edges ds))%nat).
  { rewrite <- (length_seq (length (var_bin_edges ds)) 0),
            <- (length_map (import_row ds)).
    apply nth_error_Some. congruence. }
  rewrite (nth_error_nth' _ (import_row ds O)) in H
    by (rewrite length_map, length_seq; exact Hj).
  rewrite (map_nth (import_row ds) (seq 0 (length (var_bin_edges ds))) O j) in H.
  rewrite seq_nth in H by exact Hj. simpl in H. congruence.
Qed.



(** A row without a table is skipped field by field ([if val is None:
    continue]): written over a cell that already holds a table, it leaves
    the old [bin_edges], [cum_volume_table], [volume_table] and
    [n_per_bin] in the file, next to its own extent and window. *)
Theorem export_keeps_stale_table (ds ds' : dataset) (rows : list row) (r : row) :
  export_tables ds rows = Return ds' ->
  NoDup (map id_ rows) ->
  In r rows ->
  bin_edges r = None -> cum_volume_table r = None ->
  volume_table r = None -> n_per_bin r = None ->
  let old := import_row ds (id_ r) in
  let new := import_row ds' (id_ r) in
  i_bin_edges new = i_bin_edges old /\
  i_cum_volume_table new = i_cum_volume_table old /\
  i_volume_table new = i_volume_table old /\
  i_n_per_bin new = i_n_per_bin old /\
  i_extent new = Data (extent r).
Proof.
  intros H Hnd Hr E1 E2 E3 E4. cbv zeta.
  rewrite (export_tables_written rows ds ds' H Hnd r Hr).
  unfold as_imported.
  destruct (slice r) as [s|s0 s1 s2 s3] eqn:Hs.
  - cbn. rewrite E1, E2, E3, E4. cbn. auto.
  - exfalso. clear - H Hr Hs.
    revert ds H. induction rows as [|r0 rest IH]; intros ds H; [contradiction|].
    simpl in H.
    destruct (export_row ds r0) as [ds1|e| |] eqn:Ex; simpl in H; try discriminate.
    destruct Hr as [->|Hr]; [|exact (IH Hr ds1 H)].
    unfold export_row, write_row in Ex. rewrite Hs in Ex.
    destruct (nc_assign_opt _ _ _ (bin_edges r)); simpl in Ex; try discriminate.
    destruct (nc_assign_opt _ _ _ (cum_volume_table r)); simpl in Ex; try discriminate.
    destruct (nc_assign_opt _ _ _ (volume_table r)); simpl in Ex; try discriminate.
    destruct (nc_assign _ _ _ (extent r)); simpl in Ex; try discriminate.
    destruct (nc_assign_opt _ _ _ (n_per_bin r)); simpl in Ex; discriminate.
Qed.

(** The masked cell of the small terrain written over the table of its
    first cell. *)
Lemma export_stale_small_terrain :
  exists r0 r1 ds ds',
    build_row small_dem 0 (face_of 0 2 0 2) = Return r0 /\
    build_row small_dem 0 (face_of 2 4 0 2) = Return r1 /\
    export_tables (create_export 1 20) [r0] = Return ds /\
    export_tables ds [r1] = Return ds' /\
    i_bin_edges (import_row ds' 0) = stored (bin_edges r0) Fill /\
    i_extent (import_row ds' 0) = Data (extent r1).
Proof.
  destruct (build_row small_dem 0 (face_of 0 2 0 2)) as [r0|e| |] eqn:H0;
    try (exfalso; vm_compute in H0; discriminate).
  destruct (build_row small_dem 0 (face_of 2 4 0 2)) as [r1|e| |] eqn:H1;
    try (exfalso; vm_compute in H1; discriminate).
  destruct (export_tables (create_export 1 20) [r0]) as [ds|e| |] eqn:E0;
    try (exfalso; vm_compute in H0; injection H0 as <-; vm_compute in E0; discriminate).
  destruct (export_tables ds [r1]) as [ds'|e| |] eqn:E1;
    try (exfalso; vm_compute in H0; injection H0 as <-;
         vm_compute in H1; injection H1 as <-;
         vm_compute in E0; injection E0 as <-; vm_compute in E1; discriminate).
  exists r0, r1, ds, ds'.
  split; [reflexivity|]. split; [reflexivity|]. split; [exact E0|].
  split; [exact E1|].
  assert (Hid : id_ r1 = 0%nat) by (vm_compute in H1; injection H1 as <-; reflexivity).
  destruct (export_keeps_stale_table ds ds' [r1] r1 E1) as (B & _ & _ & _ & X).
  - constructor; [intros [] | constructor].
  - left. reflexivity.
  - vm_compute in H1. injection H1 as <-. reflexivity.
  - vm_compute in H1. injection H1 as <-. reflexivity.
  - vm_compute in H1. injection H1 as <-. reflexivity.
  - vm_compute in H1. injection H1 as <-. reflexivity.
  - rewrite Hid in B, X. split; [|exact X].
    rewrite B. clear - H0 E0.
    vm_compute in H0. injection H0 as <-.
    vm_compute in E0. injection E0 as <-. reflexivity.
Defined.

Lemma stored_idem {A : Type} (val : option (list A)) (old : nc_row A) :
  stored val (stored val old) = stored val old.
Proof. destruct val; reflexivity. Qed.

Lemma as_imported_idem (r : row) (old : imported_row) :
  as_imported r (as_imported r old) = as_imported r old.
Proof.
  unfold as_imported. destruct (slice r); [|reflexivity].
  cbn. now rewrite !stored_idem.
Qed.

(** Exporting the same tables a second time changes nothing that
    [import_tables] reads: the second run succeeds and the imported rows
    are those of the first run. *)
Theorem export_tables_twice (n bins : nat) (ds : dataset) (rows : list row) :
  container n bins ds ->
  Forall (exportable bins) rows ->
  NoDup (map id_ rows) ->
  (forall r, In r rows -> (id_ r < n)%nat) ->
  exists ds1 ds2,
    export_tables ds rows = Return ds1 /\
    export_tables ds1 rows = Return ds2 /\
    import_tables ds2 = import_tables ds1.
Proof.
  intros Hc Hex Hnd Hid.
  destruct (export_tables_spec n bins rows ds Hc Hex Hnd Hid)
    as (ds1 & E1 & Hc1 & In1 & Out1).
  destruct (export_tables_spec n bins rows ds1 Hc1 Hex Hnd Hid)
    as (ds2 & E2 & Hc2 & In2 & Out2).
  exists ds1, ds2. split; [exact E1|]. split; [exact E2|].
  unfold import_tables.
  destruct Hc1 as (_ & L1 & _). destruct Hc2 as (_ & L2 & _). rewrite L1, L2.
  apply map_ext. intro j.
  destruct (in_dec Nat.eq_dec j (map id_ rows)) as [Hj|Hj].
  - apply in_map_iff in Hj. destruct Hj as (r & <- & Hr).
    rewrite (In2 r Hr), (In1 r Hr). apply as_imported_idem.
  - apply Out2. exact Hj.
Qed.

Lemma export_twice_small_terrain :
  exists tables ds1 ds2,
    build_tables small_grid small_dem = Return tables /\
    export_tables (create_export 3 20) tables = Return ds1 /\
    export_tables ds1 tables = Return ds2 /\
    import_tables ds2 = import_tables ds1.
Proof.
  destruct (build_tables small_grid small_dem) as [tables|e| |] eqn:Hb;
    try (exfalso; vm_compute in Hb; discriminate).
  apply build_tables_inv in Hb. destruct Hb as (Hb & _).
  destruct (build_rows_spec small_dem (face_coordinates small_grid) 0 tables Hb)
    as (Hids & Hex).
  destruct (export_tables_twice 3 20 (create_export 3 20) tables)
    as (ds1 & ds2 & E1 & E2 & E).
  - apply create_export_container.
  - exact Hex.
  - rewrite Hids. apply seq_NoDup.
  - intros r Hr. apply (in_map id_) in Hr. rewrite Hids in Hr.
    apply in_seq in Hr. simpl in Hr. lia.
  - exists tables, ds1, ds2. auto.
Defined.

(** The solver reads the window of an imported row as
    [band[slice_0:slice_2, slice_1:slice_3]], while [export_tables] stores
    the four integers in the order row start, row stop, column start,
    column stop: for a row that went through the file the solver reads
    [band[row_start:col_start, row_stop:col_stop]], not the window
    [band[row_start:row_stop, col_start:col_stop]] its table was built
    from. *)
Theorem imported_row_reads_swapped_window (ds ds' : dataset) (rows : list row) (r sr : row)
        (s : slice2) (ir : imported_row) (v : Q) (d : dem) :
  export_tables ds rows = Return ds' ->
  NoDup (map id_ rows) ->
  In r rows ->
  slice r = Slice s ->
  nth_error (import_tables ds') (id_ r) = Some ir ->
  solver_row ir v = Some sr ->
  row_window sr d
  = slice2d (band d) (row_start s) (col_start s) (row_stop s) (col_stop s) /\
  row_window r d
  = slice2d (band d) (row_start s) (row_stop s) (col_start s) (col_stop s).
Proof.
  intros H Hnd Hr Hs Hir Hsr.
  split; [|unfold row_window, band_window; rewrite Hs; reflexivity].
  apply nth_error_import_tables in Hir.
  rewrite (export_tables_written rows ds ds' H Hnd r Hr) in Hir.
  unfold as_imported in Hir. rewrite Hs in Hir. subst ir.
  unfold solver_row in Hsr. cbn in Hsr.
  destruct (stored (bin_edges r) _); try discriminate.
  destruct (stored (cum_volume_table r) _); try discriminate.
  destruct (stored (volume_table r) _); try discriminate.
  destruct (stored (n_per_bin r) _); try discriminate.
  injection Hsr as <-. reflexivity.
Qed.

Lemma imported_window_small_terrain :
  exists r ds ir sr,
    build_row small_dem 0 (face_of 1 3 0 2) = Return r /\
    export_tables (create_export 1 20) [r] = Return ds /\
    nth_error (import_tables ds) 0 = Some ir /\
    solver_row ir 1 = Some sr /\
    row_window sr small_dem = slice2d (band small_dem) 0 1 2 3 /\
    row_window r small_dem = slice2d (band small_dem) 0 2 1 3.
Proof.
  destruct (build_row small_dem 0 (face_of 1 3 0 2)) as [r|e| |] eqn:Hb;
    try (exfalso; vm_compute in Hb; discriminate).
  destruct (export_tables (create_export 1 20) [r]) as [ds|e| |] eqn:He;
    try (exfalso; vm_compute in Hb; injection Hb as <-; vm_compute in He; discriminate).
  destruct (nth_error (import_tables ds) 0) as [ir|] eqn:Hi;
    [|exfalso; vm_compute in Hb; injection Hb as <-;
      vm_compute in He; injection He as <-; vm_compute in Hi; discriminate].
  destruct (solver_row ir 1) as [sr|] eqn:Hsr;
    [|exfalso; vm_compute in Hb; injection Hb as <-;
      vm_compute in He; injection He as <-;
      vm_compute in Hi; injection Hi as <-; vm_compute in Hsr; discriminate].
  assert (Hid : id_ r = 0%nat) by (vm_compute in Hb; injection Hb as <-; reflexivity).
  assert (Hs : slice r = Slice (mkSlice 0 2 1 3))
    by (vm_compute in Hb; injection Hb as <-; reflexivity).
  destruct (imported_row_reads_swapped_window (create_export 1 20) ds [r] r sr
              (mkSlice 0 2 1 3) ir 1 small_dem He) as (W1 & W2).
  - constructor; [intros [] | constructor].
  - left. reflexivity.
  - exact Hs.
  - rewrite Hid. exact Hi.
  - exact Hsr.
  - exists r, ds, ir, sr.
    split; [reflexivity|]. split; [exact He|]. split; [exact Hi|].
    split; [exact Hsr|]. split; [exact W1 | exact W2].
Defined.

(* ------------------------------------------------------------------ *)
(** ** Level solver on built tables: the three regimes *)

(** A table of [build_tables] over a window with at least one pixel, on a
    terrain whose pixel sizes agree with its affine transform: the solver
    returns a level for every non-negative volume, given by one of the
    three cases at the bisection index. *)
Lemma built_table_solves (d : dem) (i : nat) (fc : list (Q * Q)) (r : row)
      (edges : list Q) (v : Q) :
  build_row d i fc = Return r ->
  bin_edges r = Some edges ->
  concat (row_window r d) <> [] ->
  (dxp d * dyp d == Qabs (affine_a d * affine_e d))%Q ->
  ~ (affine_a d * affine_e d == 0)%Q ->
  (0 <= v)%Q ->
  exists vt k l,
    volume_table r = Some vt /\ cum_volume_table r = Some (cumsumQ vt) /\
    length vt = 20%nat /\ length edges = 21%nat /\
    (forall j, (j < 20)%nat -> (0 <= nth j vt 0)%Q) /\
    (forall j, (j < 20)%nat -> (nth j edges 0 < nth (S j) edges 0)%Q) /\
    (forall z, In (Some z) (concat (row_window r d)) ->
               (nth 0 edges 0 <= z <= nth 20 edges 0)%Q) /\
    (0 < face_area (row_window r d) d)%Q /\
    (nth 19 vt 0 == face_area (row_window r d) d * (nth 20 edges 0 - nth 19 edges 0))%Q /\
    splits (cumsumQ vt) v k /\
    target_level_of edges (Some vt) (Some (cumsumQ vt)) (row_window r d) d v
    = Return (Some l) /\
    level_case edges vt (cumsumQ vt) 20 (face_area (row_window r d) d) k v l.
Proof.
  intros Hb He Hw Hpx Hnz H0.
  destruct (build_row_table d i fc r edges Hb He)
    as (values & first & last & Hu & Ho & Hlt & -> & _ & Hvt & Hcum).
  set (vt := volume_table_of d (counts_of first last 20 values) (linspace first last 20)) in *.
  pose proof (Qabs_positive _ Hnz) as Habs.
  assert (Hsize : length values = length (concat (row_window r d))).
  { apply unmask_valid in Hu. rewrite Hu, length_map. reflexivity. }
  assert (Hcount : (1 <= inject_Z (Z.of_nat (length values)))%Q).
  { change 1%Q with (inject_Z 1). rewrite <- Zle_Qle.
    destruct (concat (row_window r d)); [congruence | simpl in Hsize; lia]. }
  assert (Harea : (face_area (row_window r d) d
                   == inject_Z (Z.of_nat (length values)) * Qabs (affine_a d * affine_e d))%Q).
  { unfold face_area, np_size. rewrite <- Hsize, Hpx. reflexivity. }
  assert (A1 : (1 <= 20)%nat) by lia.
  assert (A2 : length (linspace first last 20) = 21%nat) by apply linspace_length.
  assert (A3 : length vt = 20%nat) by (apply volume_table_length; lia).
  assert (A4 : forall k, (k < 20)%nat -> (0 <= nth k vt 0)%Q).
  { intros k Hk. apply volume_table_nonneg; [lia | exact Hlt | exact Hk]. }
  assert (A5 : forall k, (k < 20)%nat ->
                         (nth k (linspace first last 20) 0
                          < nth (S k) (linspace first last 20) 0)%Q).
  { intros k Hk.
    pose proof (linspace_diff first last 20 k Hk) as H.
    rewrite diff_nth in H by (rewrite linspace_length; lia).
    pose proof (linspace_step_positive first last 20 ltac:(lia) Hlt). lra. }
  assert (A6 : (0 < face_area (row_window r d) d)%Q).
  { rewrite Harea. apply Qmult_lt_0_compat; lra. }
  assert (A7 : (nth (20 - 1) vt 0 ==
                face_area (row_window r d) d
                * (nth 20 (linspace first last 20) 0
                   - nth (20 - 1) (linspace first last 20) 0))%Q).
  { unfold vt. rewrite volume_table_last by lia.
    pose proof (linspace_diff first last 20 19 ltac:(lia)) as Hd.
    rewrite diff_nth in Hd by (rewrite linspace_length; lia).
    change (20 - 1)%nat with 19%nat. rewrite Hd, Harea. ring. }
  destruct (solve_cases (linspace first last 20) vt 20 (row_window r d) d
              A1 A2 A3 A4 A6 A7 v H0) as (k & l & Hsp & Ht & Hc).
  exists vt, k, l.
  split; [exact Hvt|]. split; [exact Hcum|]. split; [exact A3|]. split; [exact A2|].
  split; [exact A4|]. split; [exact A5|]. split; [|auto].
  intros z Hz. apply unmask_valid in Hu. rewrite Hu in Hz.
  apply in_map_iff in Hz. destruct Hz as (z' & E & Hz). injection E as ->.
  pose proof (outer_edges_bounds values first last z Ho Hz) as Hbz.
  rewrite !linspace_nth by lia.
  assert (E0 : (first + inject_Z (Z.of_nat 0) * ((last - first) / inject_Z (Z.of_nat 20))
                == first)%Q).
  { change (inject_Z (Z.of_nat 0)) with 0%Q. ring. }
  assert (E20 : (first + inject_Z (Z.of_nat 20) * ((last - first) / inject_Z (Z.of_nat 20))
                 == last)%Q).
  { field. }
  rewrite E0, E20. exact Hbz.
Qed.

Lemma subgrid_compute_set_vol1 (r : row) (d : dem) (edges vt cum : list Q) (v l : Q) :
  bin_edges r = Some edges ->
  volume_table r = Some vt ->
  cum_volume_table r = Some cum ->
  target_level_of edges (Some vt) (Some cum) (row_window r d) d v = Return (Some l) ->
  subgrid_compute (set_vol1 r v) d "waterlevel" = Return (Some (Waterlevel l)) /\
  subgrid_compute (set_vol1 r v) d "waterdepth"
  = Return (Some (Waterdepth (map (map (pixel_depth (band_dtype d) l)) (row_window r d)))).
Proof.
  intros He Hvt Hcum Ht. unfold subgrid_compute.
  change (bin_edges (set_vol1 r v)) with (bin_edges r).
  change (volume_table (set_vol1 r v)) with (volume_table r).
  change (cum_volume_table (set_vol1 r v)) with (cum_volume_table r).
  change (row_window (set_vol1 r v) d) with (row_window r d).
  change (vol1 (set_vol1 r v)) with (Some v).
  rewrite He, Hvt, Hcum. cbn [or_raise bind]. rewrite Ht. split; reflexivity.
Qed.

(** A cell that holds less than the first cumulative volume is rendered
    dry.  For a table of [build_tables] and a volume
    [0 <= v < cum_volume_table[0]] the bisection index is 0, the solver
    reads [cum_volume_table[-1]] as the volume below the first bin, and
    the level it returns lies below the lowest bin edge, hence below every
    pixel of the window: the waterdepth result is zero everywhere. *)
Theorem built_first_bin_is_dry (d : dem) (i : nat) (fc : list (Q * Q)) (r : row)
        (edges cum : list Q) (v : Q) :
  build_row d i fc = Return r ->
  bin_edges r = Some edges ->
  cum_volume_table r = Some cum ->
  concat (row_window r d) <> [] ->
  (dxp d * dyp d == Qabs (affine_a d * affine_e d))%Q ->
  ~ (affine_a d * affine_e d == 0)%Q ->
  (0 <= v)%Q -> (v < nth 0 cum 0)%Q ->
  exists level,
    subgrid_compute (set_vol1 r v) d "waterlevel" = Return (Some (Waterlevel level)) /\
    (level < nth 0 edges 0)%Q /\
    subgrid_compute (set_vol1 r v) d "waterdepth"
    = Return (Some (Waterdepth (map (map (fun _ => Some 0%Q)) (row_window r d)))).
Proof.
  intros Hb He Hcum Hw Hpx Hnz H0 Hv.
  destruct (built_table_solves d i fc r edges v Hb He Hw Hpx Hnz H0)
    as (vt & k & l & Hvt & Hcum' & Lvt & Le & Nvt & Se & Span & Area & Last & Hsp & Ht & Hc).
  rewrite Hcum in Hcum'. injection Hcum' as ->.
  destruct (subgrid_compute_set_vol1 r d edges vt (cumsumQ vt) v l He Hvt Hcum Ht)
    as (Hwl & Hwd).
  assert (Hk : k = O).
  { destruct Hsp as (_ & Hbefore & _). destruct k as [|k]; [reflexivity|].
    pose proof (Hbefore O ltac:(lia)). lra. }
  subst k.
  assert (Hl : (l < nth 0 edges 0)%Q).
  { destruct Hc as [(C & _)|[(_ & C & _)|(_ & _ & P & E)]]; try lia.
    pose proof (cum_sorted vt 20 Lvt Nvt O 19%nat ltac:(lia)
                  ltac:(rewrite (cum_length vt 20 Lvt); lia)) as Hs.
    change (20 - 1)%nat with 19%nat in E.
    pose proof (Se O ltac:(lia)) as W.
    set (f := ((v - nth 19 (cumsumQ vt) 0) / nth 0 vt 0)%Q) in *.
    assert (Hf : (f * nth 0 vt 0 == v - nth 19 (cumsumQ vt) 0)%Q)
      by (unfold f; field; lra).
    assert (Hneg : (f < 0)%Q) by nra.
    nra. }
  exists l. split; [exact Hwl|]. split; [exact Hl|].
  rewrite Hwd. do 3 f_equal.
  apply map_ext_in. intros line Hline. apply map_ext_in. intros p Hp.
  assert (Hin : In p (concat (row_window r d))).
  { apply in_concat. exists line. split; assumption. }
  destruct p as [z|].
  - pose proof (Span z Hin) as (Hz & _). unfold pixel_depth, Qlt_bool.
    replace (Qle_bool l z) with true; [reflexivity|].
    symmetry. apply Qle_bool_iff. lra.
  - exfalso.
    destruct (build_row_table d i fc r edges Hb He) as (values & _ & _ & Hu & _).
    apply unmask_valid in Hu. rewrite Hu in Hin.
    apply in_map_iff in Hin. destruct Hin as (z & E & _). discriminate.
Qed.

Lemma built_first_bin_small_cell :
  exists r level,
    build_row small_dem 0 (face_of 0 2 0 2) = Return r /\
    subgrid_compute (set_vol1 r (1 # 20)) small_dem "waterlevel"
    = Return (Some (Waterlevel level)) /\
    (level < 1)%Q /\
    subgrid_compute (set_vol1 r (1 # 20)) small_dem "waterdepth"
    = Return (Some (Waterdepth [[Some 0; Some 0]; [Some 0; Some 0]]%Q)).
Proof.
  destruct (build_row small_dem 0 (face_of 0 2 0 2)) as [r|e| |] eqn:Hb;
    try (exfalso; vm_compute in Hb; discriminate).
  assert (He : exists edges cum,
             bin_edges r = Some edges /\ cum_volume_table r = Some cum /\
             (1 # 20 < nth 0 cum 0)%Q /\ (nth 0 edges 0 == 1)%Q /\
             row_window r small_dem = [[Some 1; Some 2]; [Some 2; Some 3]]%Q).
  { vm_compute in Hb. injection Hb as <-. eexists. eexists.
    split; [reflexivity|]. split; [reflexivity|].
    split; [vm_compute; reflexivity|]. split; vm_compute; reflexivity. }
  destruct He as (edges & cum & He & Hc & Hlt & He0 & Hwin).
  destruct (built_first_bin_is_dry small_dem 0 (face_of 0 2 0 2) r edges cum (1 # 20)
              Hb He Hc) as (level & H1 & H2 & H3).
  - rewrite Hwin. discriminate.
  - reflexivity.
  - vm_compute. discriminate.
  - discriminate.
  - exact Hlt.
  - exists r, level. split; [reflexivity|]. split; [exact H1|].
    split; [rewrite <- He0; exact H2|].
    rewrite H3, Hwin. reflexivity.
Defined.

(** At or beyond the last cumulative volume the whole window is flooded:
    for a table of [build_tables] and [v >= cum_volume_table[-1]] the
    level is the highest bin edge plus the surplus spread over the window
    area, at least the highest bin edge and so at least every elevation
    of the window; at [v = cum_volume_table[-1]] it is the highest bin
    edge. *)
Theorem built_table_overflow_floods_window (d : dem) (i : nat) (fc : list (Q * Q))
        (r : row) (edges cum : list Q) (v : Q) :
  build_row d i fc = Return r ->
  bin_edges r = Some edges ->
  cum_volume_table r = Some cum ->
  concat (row_window r d) <> [] ->
  (dxp d * dyp d == Qabs (affine_a d * affine_e d))%Q ->
  ~ (affine_a d * affine_e d == 0)%Q ->
  (nth 19 cum 0 <= v)%Q ->
  exists level,
    subgrid_compute (set_vol1 r v) d "waterlevel" = Return (Some (Waterlevel level)) /\
    (level == nth 20 edges 0 + (v - nth 19 cum 0) / face_area (row_window r d) d)%Q /\
    (nth 20 edges 0 <= level)%Q /\
    (forall z, In (Some z) (concat (row_window r d)) -> (z <= level)%Q).
Proof.
  intros Hb He Hcum Hw Hpx Hnz Hv.
  assert (H0 : (0 <= v)%Q).
  { destruct (built_table_solves d i fc r edges 0 Hb He Hw Hpx Hnz ltac:(lra))
      as (vt & _ & _ & _ & Hcum' & Lvt & Le & Nvt & _).
    rewrite Hcum in Hcum'. injection Hcum' as ->.
    pose proof (cum_sorted vt 20 Lvt Nvt O 19%nat ltac:(lia)
                  ltac:(rewrite (cum_length vt 20 Lvt); lia)) as Hs.
    assert (F : (nth 0 (cumsumQ vt) 0 == nth 0 vt 0)%Q).
    { unfold cumsumQ. rewrite cumsum_from_prefix by lia.
      destruct vt as [|x t]; [discriminate|]. cbn [firstn qsum fold_right nth]. ring. }
    pose proof (Nvt O ltac:(lia)). lra. }
  destruct (built_table_solves d i fc r edges v Hb He Hw Hpx Hnz H0)
    as (vt & k & l & Hvt & Hcum' & Lvt & Le & Nvt & Se & Span & Area & Last & Hsp & Ht & Hc).
  rewrite Hcum in Hcum'. injection Hcum' as ->.
  destruct (subgrid_compute_set_vol1 r d edges vt (cumsumQ vt) v l He Hvt Hcum Ht)
    as (Hwl & _).
  pose proof (cum_length vt 20 Lvt) as Lc.
  assert (Hk : k = 20%nat).
  { pose proof Hsp as (Hle & _ & Hafter). rewrite Lc in Hle, Hafter.
    destruct (Nat.eq_dec k 20) as [E|Hne]; [exact E|]. exfalso.
    pose proof (Hafter 19%nat ltac:(lia) ltac:(lia)). lra. }
  subst k.
  destruct Hc as [(_ & E)|[(C & _)|(C & _)]]; try lia.
  change (20 - 1)%nat with 19%nat in E.
  assert (Hl : (nth 20 edges 0 <= l)%Q).
  { pose proof (Qdiv_le_mono 0%Q (v - nth 19 (cumsumQ vt) 0)%Q
                  (face_area (row_window r d) d) Area ltac:(lra)) as H.
    assert (Hz : (0 / face_area (row_window r d) d == 0)%Q) by (field; lra).
    lra. }
  exists l. split; [exact Hwl|]. split; [exact E|]. split; [exact Hl|].
  intros z Hz. pose proof (Span z Hz). lra.
Qed.

Lemma built_table_overflow_small_cell :
  exists r level,
    build_row small_dem 0 (face_of 0 2 0 2) = Return r /\
    subgrid_compute (set_vol1 r 10) small_dem "waterlevel"
    = Return (Some (Waterlevel level)) /\
    (3 <= level)%Q.
Proof.
  destruct (build_row small_dem 0 (face_of 0 2 0 2)) as [r|e| |] eqn:Hb;
    try (exfalso; vm_compute in Hb; discriminate).
  assert (He : exists edges cum,
             bin_edges r = Some edges /\ cum_volume_table r = Some cum /\
             (nth 19 cum 0 <= 10)%Q /\
             In (Some 3%Q) (concat (row_window r small_dem))).
  { vm_compute in Hb. injection Hb as <-. eexists. eexists.
    split; [reflexivity|]. split; [reflexivity|].
    split; [vm_compute; discriminate|]. vm_compute. auto. }
  destruct He as (edges & cum & He & Hc & Hv & Hin).
  destruct (built_table_overflow_floods_window small_dem 0 (face_of 0 2 0 2) r edges cum 10
              Hb He Hc) as (level & H1 & _ & _ & H4).
  - intro E. rewrite E in Hin. contradiction.
  - reflexivity.
  - vm_compute. discriminate.
  - exact Hv.
  - exists r, level. split; [reflexivity|]. split; [exact H1|]. exact (H4 3%Q Hin).
Defined.

(* ------------------------------------------------------------------ *)
(** ** Cell lookup *)

Lemma py_int_monotone (x y : Q) : (x <= y)%Q -> py_int x <= py_int y.
Proof.
  intro H. unfold py_int, Qlt_bool.
  destruct (Qle_bool 0 x) eqn:Ex; destruct (Qle_bool 0 y) eqn:Ey; simpl.
  - apply Qfloor_resp_le. exact H.
  - apply Qle_bool_iff in Ex.
    assert (Hy : ~ (0 <= y)%Q) by (intro C; apply Qle_bool_iff in C; congruence).
    exfalso. apply Hy. lra.
  - apply Qle_bool_iff in Ey.
    assert (Hx : ~ (0 <= x)%Q) by (intro C; apply Qle_bool_iff in C; congruence).
    apply Z.le_trans with 0.
    + change 0 with (Qceiling 0). apply Qceiling_resp_le. lra.
    + change 0 with (Qfloor 0). apply Qfloor_resp_le. exact Ey.
  - apply Qceiling_resp_le. exact H.
Qed.

Lemma py_int_Qmin (x y : Q) : py_int (Qmin x y) = Z.min (py_int x) (py_int y).
Proof.
  destruct (Qlt_le_dec y x) as [Hlt|Hle].
  - destruct (Q.min_spec x y) as [(C & _)|(_ & E)]; [lra|].
    assert (H1 : py_int (Qmin x y) <= py_int y) by (apply py_int_monotone; lra).
    assert (H2 : py_int y <= py_int (Qmin x y)) by (apply py_int_monotone; lra).
    assert (H3 : py_int y <= py_int x) by (apply py_int_monotone; lra).
    lia.
  - pose proof (Q.le_min_l x y) as L. pose proof (Q.le_min_r x y) as R.
    assert (G : (x <= Qmin x y)%Q) by (apply Q.min_glb; lra).
    assert (H1 : py_int (Qmin x y) <= py_int x) by (apply py_int_monotone; lra).
    assert (H2 : py_int x <= py_int (Qmin x y)) by (apply py_int_monotone; lra).
    assert (H3 : py_int x <= py_int y) by (apply py_int_monotone; lra).
    lia.
Qed.

Lemma py_int_Qmax (x y : Q) : py_int (Qmax x y) = Z.max (py_int x) (py_int y).
Proof.
  pose proof (Q.le_max_l x y) as L. pose proof (Q.le_max_r x y) as R.
  destruct (Qlt_le_dec y x) as [Hlt|Hle].
  - assert (G : (Qmax x y <= x)%Q) by (apply Q.max_lub; lra).
    assert (H1 : py_int (Qmax x y) <= py_int x) by (apply py_int_monotone; lra).
    assert (H2 : py_int x <= py_int (Qmax x y)) by (apply py_int_monotone; lra).
    assert (H3 : py_int y <= py_int x) by (apply py_int_monotone; lra).
    lia.
  - assert (G : (Qmax x y <= y)%Q) by (apply Q.max_lub; lra).
    assert (H1 : py_int (Qmax x y) <= py_int y) by (apply py_int_monotone; lra).
    assert (H2 : py_int y <= py_int (Qmax x y)) by (apply py_int_monotone; lra).
    assert (H3 : py_int x <= py_int y) by (apply py_int_monotone; lra).
    lia.
Qed.

(** Truncating after the reduction, as [data_for_idx] does, or before it,
    as a truncating [world2px] followed by [min]/[max] does, gives the
    same pixel bound. *)
Lemma reduce_min_py_int (l : list Q) :
  reduce Z.min (map py_int l) = option_map py_int (reduce Qmin l).
Proof.
  destruct l as [|x t]; [reflexivity|]. simpl. f_equal.
  revert x. induction t as [|z t IH]; intro x; simpl; [reflexivity|].
  rewrite <- py_int_Qmin. apply IH.
Qed.

Lemma reduce_max_py_int (l : list Q) :
  reduce Z.max (map py_int l) = option_map py_int (reduce Qmax l).
Proof.
  destruct l as [|x t]; [reflexivity|]. simpl. f_equal.
  revert x. induction t as [|z t IH]; intro x; simpl; [reflexivity|].
  rewrite <- py_int_Qmax. apply IH.
Qed.

(** [data_for_idx] and [build_tables] read the same pixels.  When
    [world2px] truncates the affine pixel coordinates of a vertex, the
    terrain window returned by [data_for_idx] for a cell is the window
    the row of that cell was built from, next to the polygon of the cell
    and its observed volume. *)
Theorem data_for_idx_reads_table_window (g : grid) (d : dem) (dt : data) (xoff yoff : Q)
        (i : nat) (face : list (Q * Q)) (r : row) (c : cell_data) :
  world2px d face = truncating_world2px d xoff yoff face ->
  nth_error (face_coordinates g) i = Some face ->
  build_row d i face = Return r ->
  data_for_idx (Z.of_nat i) d xoff yoff g dt = Return c ->
  c_dem c = row_window r d /\
  c_face c = face /\
  nth_error (d_vol1 dt) i = Some (c_vol c).
Proof.
  intros Hpx Hface Hb Hc.
  destruct (build_row_inv d i face r Hb) as (s & ext & Hs & _ & ->).
  unfold row_window, band_window. cbn [slice].
  unfold data_for_idx in Hc. rewrite !py_index_nat, Hface in Hc. cbn [or_raise bind] in Hc.
  destruct face as [|p0 rest]; [discriminate|].
  destruct (Qeq_bool (affine_a d) 0);
    [unfold int_of_zero_division in Hc; destruct (existsb _ _); discriminate|].
  destruct (Qeq_bool (affine_e d) 0);
    [unfold int_of_zero_division in Hc; destruct (existsb _ _); discriminate|].
  cbv zeta in Hc.
  set (idx := map (fun p => ((fst p - xoff) / affine_a d, (snd p - yoff) / affine_e d)%Q)
                  (p0 :: rest)) in *.
  unfold face_slice in Hs. rewrite Hpx in Hs. unfold truncating_world2px in Hs.
  assert (Ef : map fst (map (fun p => (py_int ((fst p - xoff) / affine_a d),
                                       py_int ((snd p - yoff) / affine_e d)))
                            (p0 :: rest))
               = map py_int (map fst idx)).
  { unfold idx. rewrite !map_map. reflexivity. }
  assert (Es : map snd (map (fun p => (py_int ((fst p - xoff) / affine_a d),
                                       py_int ((snd p - yoff) / affine_e d)))
                            (p0 :: rest))
               = map py_int (map snd idx)).
  { unfold idx. rewrite !map_map. reflexivity. }
  cbv zeta in Hs. rewrite Ef, Es in Hs.
  rewrite !reduce_min_py_int, !reduce_max_py_int in Hs.
  destruct (reduce Qmin (map fst idx)) as [i_min|]; [|discriminate].
  destruct (reduce Qmax (map fst idx)) as [i_max|]; [|discriminate].
  destruct (reduce Qmin (map snd idx)) as [j_min|]; [|discriminate].
  destruct (reduce Qmax (map snd idx)) as [j_max|]; [|discriminate].
  cbn [or_raise bind option_map] in Hs, Hc.
  injection Hs as <-.
  destruct (nth_error (d_vol1 dt) i) as [vol_i|]; [|discriminate].
  cbn [or_raise bind] in Hc. injection Hc as <-.
  cbn [c_dem c_face c_vol row_start row_stop col_start col_stop]. auto.
Qed.

(** The cell [0 <= x <= 2], [1 <= y <= 3] of the north-up terrain: pixel
    rows 0-2 and columns 0-2. *)
Lemma data_for_idx_north_up_cell :
  exists r c,
    build_row north_up_dem 0 (face_of 0 2 1 3) = Return r /\
    data_for_idx 0 north_up_dem 0 3 (mkGrid [face_of 0 2 1 3]) (mkData [7%Q] [] [])
    = Return c /\
    c_dem c = row_window r north_up_dem /\
    c_dem c = [[Some 1; Some 2]; [Some 2; Some 3]]%Q /\
    c_vol c = 7%Q.
Proof.
  destruct (build_row north_up_dem 0 (face_of 0 2 1 3)) as [r|e| |] eqn:Hb;
    try (exfalso; vm_compute in Hb; discriminate).
  destruct (data_for_idx 0 north_up_dem 0 3 (mkGrid [face_of 0 2 1 3]) (mkData [7%Q] [] []))
    as [c|e| |] eqn:Hc; try (exfalso; vm_compute in Hc; discriminate).
  destruct (data_for_idx_reads_table_window (mkGrid [face_of 0 2 1 3]) north_up_dem
              (mkData [7%Q] [] []) 0 3 0 (face_of 0 2 1 3) r c) as (H1 & H2 & H3).
  - reflexivity.
  - reflexivity.
  - exact Hb.
  - exact Hc.
  - exists r, c. split; [reflexivity|]. split; [reflexivity|]. split; [exact H1|].
    vm_compute in Hc. injection Hc as <-. split; reflexivity.
Defined.
